(** * Retrieval-and-generation pipeline of the textbook assistant

    A shallow embedding of the Python services under [backend/app/services]
    (context builder, response generator, embedding client, indexer,
    retriever and chunker), and the properties of the pipeline that are
    proved about them.

    Conventions of the embedding.
    - A Python [int] is a [Z]; [len] is [Z.of_nat] of a length.
    - A Python [float] is a binary64 primitive float ([PrimFloat]); [>=] is
      [PrimFloat.leb] flipped, and the truth value of a float is [x != 0.0].
    - A Python [str] is a [string] with one character per code point (code
      points below 256), so [len s] is [String.length s]; where the source
      encodes a [str] as UTF-8 the encoder is written out.
    - A call that can raise returns a sum, with the exception on the left.
    - The vector store, the embedding provider and the chat provider are
      outside the program: they are functions of an abstract [World], and
      every call to them is appended, with its outcome, to a trace. *)

From Stdlib Require Import ZArith Floats Ascii String.
From stdpp Require Import base tactics option list numbers strings gmap pretty sorting.

Set Warnings "-inexact-float".
Local Open Scope Z_scope.

(** ** Python strings *)

Definition NL : string := String "010"%char "".

(** [len(text)] *)
Definition len (text : string) : Z := Z.of_nat (String.length text).

(** [sep.join(parts)] *)
Fixpoint join (sep : string) (parts : list string) : string :=
  match parts with
  | [] => ""
  | [p] => p
  | p :: rest => p +:+ sep +:+ join sep rest
  end.

(** [str(n)] for an [int]. *)
Definition str_of_int (n : Z) : string := pretty n.

(** The truth value of an optional string: [None] and [""] are false. *)
Definition truthy_str (s : option string) : bool :=
  match s with
  | None => false
  | Some s => negb (String.eqb s "")
  end.

(** ** retriever_service.py: the data classes *)

Module RetrievedChunk.
Record t := mk {
  id : string;
  content : string;
  chapter_id : string;
  title : string;
  section_title : string;
  page_url : string;
  position : Z;
  score : float;
}.
End RetrievedChunk.

Module RetrievalResult.
Record t := mk {
  query : string;
  processed_query : string;
  chunks : list RetrievedChunk.t;
  total_found : Z;
}.
End RetrievalResult.

(** ** context_builder.py *)

Module BuiltContext.
Record t := mk {
  context_text : string;
  chunks_used : list RetrievedChunk.t;
  total_tokens_estimate : Z;
  truncated : bool;
}.
End BuiltContext.

Module ContextBuilder.
Import RetrievedChunk.

Definition DEFAULT_MAX_TOKENS : Z := 4000.
Definition DEFAULT_MAX_CHUNKS : Z := 10.
Definition CHARS_PER_TOKEN_ESTIMATE : Z := 4.

Record t := mk {
  max_tokens : Z;
  max_chunks : Z;
}.

(** [ContextBuilder()] *)
Definition init_default : t := mk DEFAULT_MAX_TOKENS DEFAULT_MAX_CHUNKS.

Definition _estimate_tokens (text : string) : Z :=
  len text `div` CHARS_PER_TOKEN_ESTIMATE.

Definition _format_chunk (chunk : RetrievedChunk.t) (index : Z) : string :=
  "[Source " +:+ str_of_int index +:+ ": " +:+ title chunk +:+ " - "
    +:+ section_title chunk +:+ "]" +:+ NL
    +:+ content chunk +:+ NL.

(** The local variables of [build_context] that its loop updates. *)
Record loop_state := mk_state {
  context_parts : list string;
  used : list RetrievedChunk.t;
  current_tokens : Z;
  truncated : bool;
}.

(** The [for i, chunk in enumerate(chunks)] loop; each [break] ends the
    recursion with [truncated] set. *)
Fixpoint build_loop (self : t) (chunks : list RetrievedChunk.t)
    (st : loop_state) : loop_state :=
  match chunks with
  | [] => st
  | chunk :: rest =>
      if Z.of_nat (length (used st)) >=? max_chunks self then
        mk_state (context_parts st) (used st) (current_tokens st) true
      else
        let formatted := _format_chunk chunk (Z.of_nat (length (used st)) + 1) in
        let chunk_tokens := _estimate_tokens formatted in
        if current_tokens st + chunk_tokens >? max_tokens self then
          mk_state (context_parts st) (used st) (current_tokens st) true
        else
          build_loop self rest
            (mk_state (context_parts st ++ [formatted]) (used st ++ [chunk])
                      (current_tokens st + chunk_tokens) (truncated st))
  end.

Definition selected_context (selected_text : string) : string :=
  "[User Selected Text]" +:+ NL +:+ selected_text +:+ NL +:+ NL.

Definition header : string :=
  "Relevant content from the textbook:" +:+ NL +:+ NL.

(** The state of the locals when the loop is entered: the selected-text
    block, when there is one, and then the header. *)
Definition preamble (selected_text : option string) : loop_state :=
  let st0 :=
    if truthy_str selected_text then
      let sc := selected_context (default "" selected_text) in
      mk_state [sc] [] (0 + _estimate_tokens sc) false
    else mk_state [] [] 0 false in
  mk_state (context_parts st0 ++ [header]) [] (current_tokens st0 + _estimate_tokens header) false.

Definition build_context (self : t) (chunks : list RetrievedChunk.t)
    (selected_text : option string) : BuiltContext.t :=
  match chunks with
  | [] => BuiltContext.mk "" [] 0 false
  | _ =>
      let st := build_loop self chunks (preamble selected_text) in
      BuiltContext.mk (join NL (context_parts st)) (used st) (current_tokens st)
                      (truncated st)
  end.

Definition build_context_with_priority (self : t) (chunks : list RetrievedChunk.t)
    (priority_chapter_id : option string) (selected_text : option string)
    : BuiltContext.t :=
  if negb (truthy_str priority_chapter_id) then build_context self chunks selected_text
  else
    let p := default "" priority_chapter_id in
    let priority_chunks := List.filter (fun c => String.eqb (chapter_id c) p) chunks in
    let other_chunks := List.filter (fun c => negb (String.eqb (chapter_id c) p)) chunks in
    let reordered := priority_chunks ++ other_chunks in
    build_context self reordered selected_text.
End ContextBuilder.

(** ** Exceptions and the outside world *)

(** The exceptions the services tell apart.  [RateLimitError] is a subclass
    of [APIError] in the provider's client library and is caught first;
    [Error cls msg] is any other subclass of [Exception], with its class
    name.  The last field is [str(e)]. *)
Inductive Exn :=
| RateLimitError (retry_after : option float) (msg : string)
| APIError (msg : string)
| Error (cls : string) (msg : string).

(** [str(e)] *)
Definition str_of_exn (e : Exn) : string :=
  match e with
  | RateLimitError _ msg => msg
  | APIError msg => msg
  | Error _ msg => msg
  end.

(** The payload stored with a vector: the keys the indexer writes, each of
    which may be missing when a payload is read back
    ([payload.get(key, default)]). *)
Module Payload.
Record t := mk {
  content : option string;
  chapter_id : option string;
  title : option string;
  section_title : option string;
  page_url : option string;
  position : option Z;
  token_count : option Z;
}.
End Payload.

(** A point handed to [QdrantDatabase.upsert_vectors]. *)
Module Point.
Record t := mk {
  id : string;
  vector : list float;
  payload : Payload.t;
}.
End Point.

(** One result of [QdrantDatabase.search]: [{"id", "score", "payload"}];
    the store may return no payload ([None]). *)
Module SearchHit.
Record t := mk {
  id : string;
  score : float;
  payload : option Payload.t;
}.
End SearchHit.

(** The answer of the embeddings endpoint: [response.data[i].embedding] and
    [response.usage]. *)
Module EmbeddingResponse.
Record t := mk {
  data : list (list float);
  prompt_tokens : Z;
  total_tokens : Z;
}.
End EmbeddingResponse.

(** The arguments of [chat.completions.create]. *)
Module ChatRequest.
Record t := mk {
  model : string;
  system_content : string;
  user_content : string;
  max_tokens : Z;
  temperature : float;
}.
End ChatRequest.

(** query_processor.py: the result of [process_query]. *)
Module ProcessedQuery.
Record t := mk {
  original_query : string;
  processed_query : string;
  expanded_terms : list string;
  embedding : list float;
}.
End ProcessedQuery.

(** The collaborators: each call takes the world to a new world and either
    raises or returns.  [chat_completions_create] returns
    [choices[i].message.content] for each choice. *)
Class Collaborators (World : Type) := {
  embeddings_create : string → list string → World → World * (Exn + EmbeddingResponse.t);
  asyncio_sleep : float → World → World;
  upsert_vectors : list Point.t → World → World * (Exn + unit);
  search : list float → Z → float → World → World * (Exn + list SearchHit.t);
  chat_completions_create : ChatRequest.t → World → World * (Exn + list (option string));
  process_query : string → World → World * (Exn + ProcessedQuery.t);
}.

(** What the program did to the world, in order. *)
Inductive Event :=
| EvEmbed (model : string) (texts : list string) (out : Exn + EmbeddingResponse.t)
| EvSleep (seconds : float)
| EvUpsert (points : list Point.t) (out : Exn + unit)
| EvSearch (query_vector : list float) (limit : Z) (score_threshold : float)
    (out : Exn + list SearchHit.t)
| EvChat (request : ChatRequest.t) (out : Exn + list (option string))
| EvProcessQuery (query : string) (out : Exn + ProcessedQuery.t).

Module IO.
Section Monad.
Context {World : Type}.

Record Env := mk_env {
  world : World;
  trace : list Event;
}.

(** A computation: from the world and the trace so far to the new world and
    trace, with an exception or a value. *)
Definition M (A : Type) : Type := Env → Env * (Exn + A).

Definition ret {A} (a : A) : M A := fun env => (env, inr a).

Definition raise {A} (e : Exn) : M A := fun env => (env, inl e).

Definition bind {A B} (m : M A) (k : A → M B) : M B :=
  fun env =>
    match m env with
    | (env', inl e) => (env', inl e)
    | (env', inr a) => k a env'
    end.

(** [try: m  except Exception as e: h e] *)
Definition try_except {A} (m : M A) (h : Exn → M A) : M A :=
  fun env =>
    match m env with
    | (env', inl e) => h e env'
    | (env', inr a) => (env', inr a)
    end.

(** An external call: run it on the world and record it. *)
Definition call {A} (f : World → World * (Exn + A)) (ev : Exn + A → Event) : M A :=
  fun env =>
    let '(w', out) := f (world env) in
    (mk_env w' (trace env ++ [ev out]), out).

End Monad.
Arguments Env : clear implicits.
Arguments M : clear implicits.
End IO.

#[global] Instance IO_ret {World} : MRet (IO.M World) := @IO.ret World.
#[global] Instance IO_bind {World} : MBind (IO.M World) :=
  fun A B k m => IO.bind m k.

(** ** Python built-ins on floats and lists *)

(** [bool(x)] for a float: [x != 0.0]. *)
Definition truthy_float (x : float) : bool := negb (PrimFloat.eqb x 0%float).

(** [min(a, b)] keeps [a] unless [b < a]. *)
Definition min_float (a b : float) : float := if PrimFloat.ltb b a then b else a.

(** [l[:k]]: a negative [k] counts from the end. *)
Definition slice_to {A} (l : list A) (k : Z) : list A :=
  if k >=? 0 then take (Z.to_nat k) l
  else take (Z.to_nat (Z.of_nat (length l) + k)) l.

(** [l[i : i + n]] for [i >= 0] and [n >= 0]. *)
Definition slice {A} (l : list A) (i n : nat) : list A := take n (drop i l).

(** [range(0, n, step)] as the list of its values. *)
Definition range_step (n step : nat) : list nat :=
  (fun k => k * step)%nat <$> seq 0 (Nat.div (n + step - 1) step).

(** ** embedding_service.py *)

Module EmbeddingResult.
Record t := mk {
  text : string;
  embedding : list float;
  token_count : Z;
}.
End EmbeddingResult.

Module EmbeddingService.

Definition MAX_BATCH_SIZE : Z := 100.
Definition MAX_TOKENS_PER_BATCH : Z := 8000.
Definition MAX_RETRIES : Z := 3.
Definition INITIAL_RETRY_DELAY : float := 1.0%float.
Definition MAX_RETRY_DELAY : float := 60.0%float.

Record t := mk {
  model : string;
}.

(** The locals of [_create_batches]. *)
Record batch_state := mk_batches {
  batches : list (list string);
  current_batch : list string;
  current_tokens : Z;
}.

(** [if current_batch: batches.append(current_batch)] *)
Definition flush (batches : list (list string)) (current_batch : list string)
    : list (list string) :=
  match current_batch with
  | [] => batches
  | _ => batches ++ [current_batch]
  end.

(** One iteration of [for text in texts]. *)
Definition batch_step (st : batch_state) (text : string) : batch_state :=
  let estimated_tokens := len text `div` 4 in
  let st1 :=
    if (Z.of_nat (length (current_batch st)) >=? MAX_BATCH_SIZE)
       || (current_tokens st + estimated_tokens >? MAX_TOKENS_PER_BATCH)
    then mk_batches (flush (batches st) (current_batch st)) [] 0
    else st in
  mk_batches (batches st1) (current_batch st1 ++ [text])
             (current_tokens st1 + estimated_tokens).

Definition _create_batches (texts : list string) : list (list string) :=
  let st := foldl batch_step (mk_batches [] [] 0) texts in
  flush (batches st) (current_batch st).

Section WithWorld.
Context {World : Type} {collaborators : Collaborators World}.

(** The [for i, text in enumerate(texts)] loop of [_process_batch], from
    index [i] on; [response.data[i]] raises [IndexError] when the answer is
    shorter than the batch. *)
Fixpoint batch_results (response : EmbeddingResponse.t) (n : Z) (i : nat)
    (rest : list string) : Exn + list EmbeddingResult.t :=
  match rest with
  | [] => inr []
  | text :: rest' =>
      match EmbeddingResponse.data response !! i with
      | None => inl (Error "IndexError" "list index out of range")
      | Some embedding =>
          match batch_results response n (S i) rest' with
          | inl e => inl e
          | inr rs =>
              inr (EmbeddingResult.mk text embedding
                     (EmbeddingResponse.prompt_tokens response `div` n) :: rs)
          end
      end
  end.

(** [_process_batch]: one call of the endpoint. *)
Definition _process_batch (self : t) (texts : list string)
    : IO.M World (list EmbeddingResult.t) :=
  response ← IO.call (embeddings_create (model self) texts) (EvEmbed (model self) texts);
  match batch_results response (Z.of_nat (length texts)) 0 texts with
  | inl e => IO.raise e
  | inr results => mret results
  end.

(** [wait_time = retry_after if retry_after else retry_delay] *)
Definition wait_time (retry_after : option float) (retry_delay : float) : float :=
  match retry_after with
  | Some r => if truthy_float r then r else retry_delay
  | None => retry_delay
  end.

(** The [for attempt in range(self.MAX_RETRIES)] loop of
    [_process_batch_with_retry], from iteration [attempt] on, with
    [remaining] iterations left. *)
Fixpoint retry_loop (self : t) (texts : list string) (remaining : nat)
    (attempt : Z) (retry_delay : float) : IO.M World (list EmbeddingResult.t) :=
  match remaining with
  | O => IO.raise (Error "RuntimeError" "Unexpected state in retry loop")
  | S remaining' =>
      IO.try_except (_process_batch self texts) (fun e =>
        match e with
        | RateLimitError retry_after _ =>
            if attempt =? MAX_RETRIES - 1 then IO.raise e
            else
              IO.call (fun w => (asyncio_sleep (wait_time retry_after retry_delay) w, inr ()))
                      (fun _ => EvSleep (wait_time retry_after retry_delay));;
              retry_loop self texts remaining' (attempt + 1)
                (min_float (retry_delay * 2)%float MAX_RETRY_DELAY)
        | APIError _ =>
            if attempt =? MAX_RETRIES - 1 then IO.raise e
            else
              IO.call (fun w => (asyncio_sleep retry_delay w, inr ()))
                      (fun _ => EvSleep retry_delay);;
              retry_loop self texts remaining' (attempt + 1)
                (min_float (retry_delay * 2)%float MAX_RETRY_DELAY)
        | Error _ _ => IO.raise e
        end)
  end.

Definition _process_batch_with_retry (self : t) (texts : list string)
    : IO.M World (list EmbeddingResult.t) :=
  retry_loop self texts (Z.to_nat MAX_RETRIES) 0 INITIAL_RETRY_DELAY.

(** The [for batch_idx, batch in enumerate(batches)] loop of
    [generate_embeddings]. *)
Fixpoint process_batches (self : t) (batches : list (list string))
    (all_results : list EmbeddingResult.t) : IO.M World (list EmbeddingResult.t) :=
  match batches with
  | [] => mret all_results
  | batch :: rest =>
      batch_results ← _process_batch_with_retry self batch;
      process_batches self rest (all_results ++ batch_results)
  end.

Definition generate_embeddings (self : t) (texts : list string)
    : IO.M World (list EmbeddingResult.t) :=
  match texts with
  | [] => mret []
  | _ => process_batches self (_create_batches texts) []
  end.

End WithWorld.
End EmbeddingService.

(** ** content_parser.py: the data classes *)

Module ContentMetadata.
Record t := mk {
  chapter_id : string;
  title : string;
  section_title : string;
  page_url : string;
  sidebar_position : option Z;
}.
End ContentMetadata.

Module ContentChunk.
Record t := mk {
  id : string;
  content : string;
  metadata : ContentMetadata.t;
  position : Z;
  token_count : Z;
}.
End ContentChunk.

Module ParsedContent.
Record t := mk {
  raw_content : string;
  text_content : string;
  metadata : ContentMetadata.t;
  sections : list (string * string);
}.
End ParsedContent.

(** ** indexer_service.py *)

Module IndexingResult.
Record t := mk {
  total_chunks : Z;
  indexed_chunks : Z;
  failed_chunks : Z;
  chapters_processed : list string;
  errors : list string;
}.
End IndexingResult.

Module IndexedChunk.
Record t := mk {
  id : string;
  content : string;
  embedding : list float;
  metadata : Payload.t;
}.
End IndexedChunk.

Module QdrantIndexer.

Definition UPSERT_BATCH_SIZE : nat := 100.

Record t := mk {
  embedding_service : EmbeddingService.t;
}.

(** The [IndexedChunk] built from a chunk and its embedding. *)
Definition indexed_chunk (chunk : ContentChunk.t) (embedding_result : EmbeddingResult.t)
    : IndexedChunk.t :=
  let md := ContentChunk.metadata chunk in
  IndexedChunk.mk (ContentChunk.id chunk) (ContentChunk.content chunk)
    (EmbeddingResult.embedding embedding_result)
    (Payload.mk (Some (ContentChunk.content chunk))
                (Some (ContentMetadata.chapter_id md))
                (Some (ContentMetadata.title md))
                (Some (ContentMetadata.section_title md))
                (Some (ContentMetadata.page_url md))
                (Some (ContentChunk.position chunk))
                (Some (ContentChunk.token_count chunk))).

(** One iteration of [for chunk, embedding_result in zip(...)], on the
    locals [(chapters, indexed_chunks)]. *)
Definition prepare_step (st : gset string * list IndexedChunk.t)
    (pair : ContentChunk.t * EmbeddingResult.t) : gset string * list IndexedChunk.t :=
  let '(chapters, indexed_chunks) := st in
  let '(chunk, embedding_result) := pair in
  (chapters ∪ {[ ContentMetadata.chapter_id (ContentChunk.metadata chunk) ]},
   indexed_chunks ++ [indexed_chunk chunk embedding_result]).

(** The loop over [zip(chunks, embedding_results)]: the chapters seen and
    the chunks prepared. *)
Definition prepare (chunks : list ContentChunk.t) (embedding_results : list EmbeddingResult.t)
    : gset string * list IndexedChunk.t :=
  foldl prepare_step (∅, []) (zip chunks embedding_results).

(** [sorted(chapters)] *)
Definition sorted (chapters : gset string) : list string :=
  merge_sort String.le (elements chapters).

(** The counters the upsert loop updates. *)
Record counters := mk_counters {
  indexed_count : Z;
  failed_count : Z;
  errors : list string;
}.

Section WithWorld.
Context {World : Type} {collaborators : Collaborators World}.

Definition _upsert_batch (chunks : list IndexedChunk.t) : IO.M World unit :=
  let points :=
    (fun chunk => Point.mk (IndexedChunk.id chunk) (IndexedChunk.embedding chunk)
                           (IndexedChunk.metadata chunk)) <$> chunks in
  IO.call (upsert_vectors points) (EvUpsert points).

(** The body of the upsert loop for the offset [i]. *)
Definition upsert_step (indexed_chunks : list IndexedChunk.t) (st : counters) (i : nat)
    : IO.M World counters :=
  let batch := slice indexed_chunks i UPSERT_BATCH_SIZE in
  IO.try_except
    (_upsert_batch batch;;
     mret (mk_counters (indexed_count st + Z.of_nat (length batch)) (failed_count st)
                       (errors st)))
    (fun e =>
       let error_msg :=
         "Failed to upsert batch "
           +:+ str_of_int (Z.of_nat i `div` Z.of_nat UPSERT_BATCH_SIZE + 1)
           +:+ ": " +:+ str_of_exn e in
       mret (mk_counters (indexed_count st) (failed_count st + Z.of_nat (length batch))
                         (errors st ++ [error_msg]))).

(** [for i in range(0, len(indexed_chunks), self.UPSERT_BATCH_SIZE)] *)
Fixpoint upsert_loop (indexed_chunks : list IndexedChunk.t) (offsets : list nat)
    (st : counters) : IO.M World counters :=
  match offsets with
  | [] => mret st
  | i :: rest =>
      st' ← upsert_step indexed_chunks st i;
      upsert_loop indexed_chunks rest st'
  end.

Definition index_chunks (self : t) (chunks : list ContentChunk.t)
    : IO.M World IndexingResult.t :=
  match chunks with
  | [] => mret (IndexingResult.mk 0 0 0 [] [])
  | _ =>
      let texts := ContentChunk.content <$> chunks in
      attempt ← IO.try_except
        (embedding_results ←
           EmbeddingService.generate_embeddings (embedding_service self) texts;
         mret (inr embedding_results))
        (fun e =>
           mret (inl (IndexingResult.mk (Z.of_nat (length chunks)) 0
                        (Z.of_nat (length chunks)) []
                        ["Embedding generation failed: " +:+ str_of_exn e])));
      match attempt with
      | inl early_return => mret early_return
      | inr embedding_results =>
          let '(chapters, indexed_chunks) := prepare chunks embedding_results in
          st ← upsert_loop indexed_chunks
                 (range_step (length indexed_chunks) UPSERT_BATCH_SIZE)
                 (mk_counters 0 0 []);
          mret (IndexingResult.mk (Z.of_nat (length chunks)) (indexed_count st)
                  (failed_count st) (sorted chapters) (errors st))
      end
  end.

End WithWorld.
End QdrantIndexer.

(** ** retriever_service.py *)

Module VectorRetriever.

Definition DEFAULT_TOP_K : Z := 5.
Definition DEFAULT_SCORE_THRESHOLD : float := 0.5%float.
Definition MAX_TOP_K : Z := 20.

Record t := mk {
  default_top_k : Z;
  default_score_threshold : float;
}.

(** [VectorRetriever()], which is also what [get_retriever()] builds. *)
Definition init_default : t := mk DEFAULT_TOP_K DEFAULT_SCORE_THRESHOLD.

(** [top_k or self.default_top_k]: [None] and [0] give the default. *)
Definition top_k_or_default (self : t) (top_k : option Z) : Z :=
  match top_k with
  | Some k => if k =? 0 then default_top_k self else k
  | None => default_top_k self
  end.

(** [min(top_k or self.default_top_k, self.MAX_TOP_K)] *)
Definition effective_top_k (self : t) (top_k : option Z) : Z :=
  Z.min (top_k_or_default self top_k) MAX_TOP_K.

(** [score_threshold or self.default_score_threshold] *)
Definition effective_score_threshold (self : t) (score_threshold : option float) : float :=
  match score_threshold with
  | Some s => if truthy_float s then s else default_score_threshold self
  | None => default_score_threshold self
  end.

(** The [RetrievedChunk] built from one search result;
    [payload.get(...)] on a missing payload raises [AttributeError]. *)
Definition to_chunk (result : SearchHit.t) : Exn + RetrievedChunk.t :=
  match SearchHit.payload result with
  | None => inl (Error "AttributeError" "'NoneType' object has no attribute 'get'")
  | Some payload =>
      inr (RetrievedChunk.mk (SearchHit.id result)
             (default "" (Payload.content payload))
             (default "" (Payload.chapter_id payload))
             (default "" (Payload.title payload))
             (default "" (Payload.section_title payload))
             (default "" (Payload.page_url payload))
             (default 0 (Payload.position payload))
             (SearchHit.score result))
  end.

(** The [for result in search_results] loop. *)
Fixpoint to_chunks (search_results : list SearchHit.t) (chunks : list RetrievedChunk.t)
    : Exn + list RetrievedChunk.t :=
  match search_results with
  | [] => inr chunks
  | result :: rest =>
      match to_chunk result with
      | inl e => inl e
      | inr chunk => to_chunks rest (chunks ++ [chunk])
      end
  end.

Section WithWorld.
Context {World : Type} {collaborators : Collaborators World}.

Definition lift {A} (r : Exn + A) : IO.M World A :=
  match r with
  | inl e => IO.raise e
  | inr a => mret a
  end.

Definition retrieve (self : t) (query : string) (top_k : option Z)
    (score_threshold : option float) : IO.M World RetrievalResult.t :=
  let top_k := effective_top_k self top_k in
  let score_threshold := effective_score_threshold self score_threshold in
  processed_query ← IO.call (process_query query) (EvProcessQuery query);
  search_results ←
    IO.call (search (ProcessedQuery.embedding processed_query) top_k score_threshold)
            (EvSearch (ProcessedQuery.embedding processed_query) top_k score_threshold);
  chunks ← lift (to_chunks search_results []);
  mret (RetrievalResult.mk query (ProcessedQuery.processed_query processed_query)
          chunks (Z.of_nat (length chunks))).

Definition retrieve_with_embedding (self : t) (embedding : list float)
    (top_k : option Z) (score_threshold : option float)
    : IO.M World (list RetrievedChunk.t) :=
  let top_k := effective_top_k self top_k in
  let score_threshold := effective_score_threshold self score_threshold in
  search_results ←
    IO.call (search embedding top_k score_threshold)
            (EvSearch embedding top_k score_threshold);
  lift (to_chunks search_results []).

Definition retrieve_by_chapter (self : t) (query : string) (chapter_id : string)
    (top_k : option Z) (score_threshold : option float)
    : IO.M World RetrievalResult.t :=
  result ← retrieve self query (Some (top_k_or_default self top_k * 3)) score_threshold;
  let filtered_chunks :=
    List.filter (fun chunk => String.eqb (RetrievedChunk.chapter_id chunk) chapter_id)
                (RetrievalResult.chunks result) in
  let top_k := top_k_or_default self top_k in
  let filtered_chunks := slice_to filtered_chunks top_k in
  mret (RetrievalResult.mk (RetrievalResult.query result)
          (RetrievalResult.processed_query result)
          filtered_chunks (Z.of_nat (length filtered_chunks))).

End WithWorld.
End VectorRetriever.

(** ** response_generator.py *)

Module Source.
Record t := mk {
  chapter_id : string;
  title : string;
  section_title : string;
  page_url : string;
  relevance_score : float;
}.
End Source.

Module GeneratedResponse.
Record t := mk {
  response : string;
  sources : list Source.t;
  is_fallback : bool;
  query : string;
  selected_text : option string;
}.
End GeneratedResponse.

Module ResponseGenerator.

Definition MIN_RELEVANCE_THRESHOLD : float := 0.7%float.

Definition DEFAULT_MAX_TOKENS : Z := 1024.
Definition DEFAULT_TEMPERATURE : float := 0.7%float.

Definition SYSTEM_PROMPT : string :=
"You are a helpful AI tutor for a Physical AI & Humanoid Robotics textbook. Your role is to answer questions about the textbook content accurately and helpfully.

Guidelines:
1. Base your answers on the provided context from the textbook.
2. Always cite your sources by referencing the source numbers (e.g., [Source 1], [Source 2]).
3. If the user has selected specific text, prioritize explaining that content.
4. Be educational and explain concepts clearly.
5. If the context doesn't contain enough information to fully answer the question, acknowledge this and provide what information you can.
6. Use technical terms appropriately but explain them when first introduced.
7. Be concise but thorough in your explanations.

Remember: You are helping students learn about Physical AI and Humanoid Robotics. Be encouraging and supportive.".

Definition FALLBACK_PROMPT : string :=
"You are a helpful AI tutor for a Physical AI & Humanoid Robotics textbook. The user has asked a question, but no relevant content was found in the textbook.

Guidelines:
1. Politely acknowledge that you couldn't find specific information in the textbook.
2. Suggest related topics from the textbook that might be helpful.
3. Offer to help with a rephrased question.
4. Be encouraging and supportive.

Available textbook topics include:
- Introduction to Physical AI
- Fundamentals of Humanoid Robotics
- Sensors and Perception
- Motion Planning and Control
- Computer Vision for Robotics
- Natural Language Interaction
- Reinforcement Learning for Robotics
- Human-Robot Interaction
- Safety and Ethics in Physical AI
- Building Your First Robot Project
- Industry Applications
- Future of Physical AI".

Record t := mk {
  model : string;
  max_tokens : Z;
  temperature : float;
  context_builder : ContextBuilder.t;
}.

(** [f"{chunk.chapter_id}:{chunk.section_title}"] *)
Definition source_key (chunk : RetrievedChunk.t) : string :=
  RetrievedChunk.chapter_id chunk +:+ ":" +:+ RetrievedChunk.section_title chunk.

(** One iteration of the loop of [_extract_sources] on the locals
    [(seen_chapters, sources)]. *)
Definition extract_step (st : gset string * list Source.t) (chunk : RetrievedChunk.t)
    : gset string * list Source.t :=
  let '(seen_chapters, sources) := st in
  let key := source_key chunk in
  if decide (key ∉ seen_chapters) then
    (seen_chapters ∪ {[ key ]},
     sources ++ [Source.mk (RetrievedChunk.chapter_id chunk) (RetrievedChunk.title chunk)
                           (RetrievedChunk.section_title chunk)
                           (RetrievedChunk.page_url chunk) (RetrievedChunk.score chunk)])
  else st.

Definition _extract_sources (chunks : list RetrievedChunk.t) : list Source.t :=
  snd (foldl extract_step (∅, []) chunks).

Definition _has_relevant_results (chunks : list RetrievedChunk.t) : bool :=
  match chunks with
  | [] => false
  | _ => existsb (fun chunk => PrimFloat.leb MIN_RELEVANCE_THRESHOLD (RetrievedChunk.score chunk))
                 chunks
  end.

(** The user message [_call_openai] builds. *)
Definition user_message (query context : string) (is_fallback : bool) : string :=
  if is_fallback then
    let user_message := "User question: " +:+ query in
    if negb (String.eqb context "") then
      "User selected text: " +:+ context +:+ NL +:+ NL +:+ user_message
    else user_message
  else context +:+ NL +:+ NL +:+ "User question: " +:+ query.

Section WithWorld.
Context {World : Type} {collaborators : Collaborators World}.

Definition _call_openai (self : t) (query context : string) (is_fallback : bool)
    : IO.M World string :=
  let system_prompt := if is_fallback then FALLBACK_PROMPT else SYSTEM_PROMPT in
  let request :=
    ChatRequest.mk (model self) system_prompt (user_message query context is_fallback)
                   (max_tokens self) (temperature self) in
  IO.try_except
    (choices ← IO.call (chat_completions_create request) (EvChat request);
     match choices with
     | [] => IO.raise (Error "IndexError" "list index out of range")
     | content :: _ => mret (default "" content)
     end)
    (fun e => IO.raise e).

Definition _generate_fallback_response (self : t) (query : string)
    (selected_text : option string) : IO.M World GeneratedResponse.t :=
  response_text ← _call_openai self query (default "" selected_text) true;
  mret (GeneratedResponse.mk response_text [] true query selected_text).

Definition generate_response (self : t) (query : string)
    (retrieval_result : RetrievalResult.t) (selected_text : option string)
    : IO.M World GeneratedResponse.t :=
  let chunks := RetrievalResult.chunks retrieval_result in
  if negb (_has_relevant_results chunks) then
    _generate_fallback_response self query selected_text
  else
    let built_context :=
      ContextBuilder.build_context (context_builder self) chunks selected_text in
    response_text ←
      _call_openai self query (BuiltContext.context_text built_context) false;
    let sources := _extract_sources (BuiltContext.chunks_used built_context) in
    mret (GeneratedResponse.mk response_text sources false query selected_text).

End WithWorld.
End ResponseGenerator.

(** ** The standard library's [uuid.uuid5] and [hashlib.sha1] *)

Module uuid.

(** [bytes(name, "utf-8")] for code points below 256. *)
Definition utf8_char (c : ascii) : list Z :=
  let n := Z.of_N (N_of_ascii c) in
  if n <? 128 then [n]
  else [Z.lor 192 (Z.shiftr n 6); Z.lor 128 (Z.land n 63)].

Fixpoint utf8 (s : string) : list Z :=
  match s with
  | EmptyString => []
  | String c s' => utf8_char c ++ utf8 s'
  end.

Definition mask32 (x : Z) : Z := Z.land x (Z.ones 32).

Definition rotl (n x : Z) : Z :=
  mask32 (Z.lor (Z.shiftl x n) (Z.shiftr x (32 - n))).

(** [n] as [k] big-endian bytes. *)
Fixpoint to_bytes (k : nat) (n : Z) : list Z :=
  match k with
  | O => []
  | S k' => to_bytes k' (Z.shiftr n 8) ++ [Z.land n 255]
  end.

(** The integer of big-endian bytes. *)
Definition from_bytes (bs : list Z) : Z :=
  foldl (fun acc b => Z.lor (Z.shiftl acc 8) b) 0 bs.

(** The message followed by the bit 1, zeros up to 56 modulo 64 bytes, and
    the length in bits as 8 bytes. *)
Definition sha1_pad (msg : list Z) : list Z :=
  let l := length msg in
  let zeros := ((119 - l mod 64) mod 64)%nat in
  msg ++ [128] ++ replicate zeros 0 ++ to_bytes 8 (8 * Z.of_nat l).

(** The list cut into pieces of [n] elements; [fuel] bounds the pieces. *)
Fixpoint chunks_of {A} (fuel n : nat) (l : list A) : list (list A) :=
  match fuel, l with
  | O, _ | _, [] => []
  | S fuel', _ => take n l :: chunks_of fuel' n (drop n l)
  end.

(** The message schedule, most recent word first. *)
Fixpoint schedule (rounds : nat) (w : list Z) : list Z :=
  match rounds with
  | O => w
  | S rounds' =>
      let x := Z.lxor (Z.lxor (Z.lxor (nth 2 w 0) (nth 7 w 0)) (nth 13 w 0)) (nth 15 w 0) in
      schedule rounds' (rotl 1 x :: w)
  end.

Record sha1_state := mk_sha1 { h0 : Z; h1 : Z; h2 : Z; h3 : Z; h4 : Z }.

Definition sha1_round (t : nat) (st : sha1_state) (w : Z) : sha1_state :=
  let '(mk_sha1 a b c d e) := st in
  let '(f, k) :=
    if (t <? 20)%nat then
      (Z.lor (Z.land b c) (Z.land (Z.lxor b (Z.ones 32)) d), 0x5A827999)
    else if (t <? 40)%nat then (Z.lxor (Z.lxor b c) d, 0x6ED9EBA1)
    else if (t <? 60)%nat then
      (Z.lor (Z.lor (Z.land b c) (Z.land b d)) (Z.land c d), 0x8F1BBCDC)
    else (Z.lxor (Z.lxor b c) d, 0xCA62C1D6) in
  mk_sha1 (mask32 (rotl 5 a + f + e + k + w)) a (rotl 30 b) c d.

Fixpoint sha1_rounds (t : nat) (ws : list Z) (st : sha1_state) : sha1_state :=
  match ws with
  | [] => st
  | w :: ws' => sha1_rounds (S t) ws' (sha1_round t st w)
  end.

Definition sha1_block (st : sha1_state) (block : list Z) : sha1_state :=
  let w16 := from_bytes <$> chunks_of 16 4 block in
  let ws := rev (schedule 64 (rev w16)) in
  let st' := sha1_rounds 0 ws st in
  mk_sha1 (mask32 (h0 st + h0 st')) (mask32 (h1 st + h1 st')) (mask32 (h2 st + h2 st'))
          (mask32 (h3 st + h3 st')) (mask32 (h4 st + h4 st')).

(** [hashlib.sha1(msg).digest()] *)
Definition sha1 (msg : list Z) : list Z :=
  let padded := sha1_pad msg in
  let st := foldl sha1_block
              (mk_sha1 0x67452301 0xEFCDAB89 0x98BADCFE 0x10325476 0xC3D2E1F0)
              (chunks_of (length padded) 64 padded) in
  to_bytes 4 (h0 st) ++ to_bytes 4 (h1 st) ++ to_bytes 4 (h2 st)
    ++ to_bytes 4 (h3 st) ++ to_bytes 4 (h4 st).

(** A [UUID] is its 128-bit integer. [UUID(bytes=b, version=v)] sets the
    variant and the version bits. *)
Definition UUID_of_bytes (b : list Z) (version : Z) : Z :=
  let int := from_bytes b in
  let int := Z.land int (Z.lnot (Z.shiftl 0xc000 48)) in
  let int := Z.lor int (Z.shiftl 0x8000 48) in
  let int := Z.land int (Z.lnot (Z.shiftl 0xf000 64)) in
  Z.lor int (Z.shiftl version 76).

Definition uuid5 (namespace : Z) (name : string) : Z :=
  let hash := sha1 (to_bytes 16 namespace ++ utf8 name) in
  UUID_of_bytes (take 16 hash) 5.

Definition hex_digit (n : Z) : ascii :=
  if n <? 10 then ascii_of_N (Z.to_N (48 + n)) else ascii_of_N (Z.to_N (87 + n)).

(** ['%0kx' % n] *)
Fixpoint hex (k : nat) (n : Z) : string :=
  match k with
  | O => ""
  | S k' => hex k' (Z.shiftr n 4) +:+ String (hex_digit (Z.land n 15)) ""
  end.

Definition substring (i n : nat) (s : string) : string := String.substring i n s.

(** [str(u)] *)
Definition str (u : Z) : string :=
  let h := hex 32 u in
  substring 0 8 h +:+ "-" +:+ substring 8 4 h +:+ "-" +:+ substring 12 4 h +:+ "-"
    +:+ substring 16 4 h +:+ "-" +:+ substring 20 12 h.

Definition digit_of_hex (c : ascii) : option Z :=
  let n := Z.of_N (N_of_ascii c) in
  if (48 <=? n) && (n <=? 57) then Some (n - 48)
  else if (97 <=? n) && (n <=? 102) then Some (n - 87)
  else if (65 <=? n) && (n <=? 70) then Some (n - 55)
  else None.

(** [int(hex, 16)] on the string with its hyphens removed. *)
Fixpoint int_of_hex (acc : Z) (s : string) : option Z :=
  match s with
  | EmptyString => Some acc
  | String c s' =>
      if Ascii.eqb c "-" then int_of_hex acc s'
      else match digit_of_hex c with
           | Some d => int_of_hex (16 * acc + d) s'
           | None => None
           end
  end.

(** [uuid.UUID(hex)] for a string of 32 hexadecimal digits and hyphens. *)
Definition UUID (hex : string) : option Z := int_of_hex 0 hex.

End uuid.

(** ** The string operations of the chunker *)

(** [c.isspace()], which is also what [\s] matches. *)
Definition isspace (c : ascii) : bool :=
  let n := N_of_ascii c in
  ((9 <=? n) && (n <=? 13) || (28 <=? n) && (n <=? 32) || (n =? 133) || (n =? 160))%N.

Fixpoint lstrip (s : string) : string :=
  match s with
  | EmptyString => ""
  | String c s' => if isspace c then lstrip s' else s
  end.

(** [s.strip()] *)
Definition strip (s : string) : string :=
  String.rev (lstrip (String.rev (lstrip s))).

Definition is_newline (c : ascii) : bool := Ascii.eqb c "010".

(** [re.split(r"\n\n+", text)]: [cur] is the piece being read, reversed;
    [in_sep] holds inside a run of newlines that has matched. *)
Fixpoint split_paragraphs (in_sep : bool) (cur : string) (text : string) : list string :=
  match text with
  | EmptyString => [String.rev cur]
  | String c rest =>
      if in_sep then
        if is_newline c then split_paragraphs true cur rest
        else split_paragraphs false (String c "") rest
      else
        match rest with
        | String c' _ =>
            if is_newline c && is_newline c' then
              String.rev cur :: split_paragraphs true "" rest
            else split_paragraphs false (String c cur) rest
        | EmptyString => split_paragraphs false (String c cur) rest
        end
  end.

Definition is_sentence_end (c : ascii) : bool :=
  Ascii.eqb c "." || Ascii.eqb c "!" || Ascii.eqb c "?".

(** [re.split(r"(?<=[.!?])\s+", paragraph)]: [after_end] holds when the
    character before the current one is one of [.!?]. *)
Fixpoint split_sentences (in_sep after_end : bool) (cur : string) (text : string)
    : list string :=
  match text with
  | EmptyString => [String.rev cur]
  | String c rest =>
      if in_sep then
        if isspace c then split_sentences true false cur rest
        else split_sentences false (is_sentence_end c) (String c "") rest
      else if after_end && isspace c then
        String.rev cur :: split_sentences true false "" rest
      else split_sentences false (is_sentence_end c) (String c cur) rest
  end.

(** ** content_parser.py: the chunker *)

Module ContentChunker.

Record t := mk {
  chunk_size : Z;
  chunk_overlap : Z;
  min_chunk_size : Z;
}.

(** [ContentChunker(chunk_size, chunk_overlap)] and its defaults. *)
Definition init (chunk_size chunk_overlap : Z) : t := mk chunk_size chunk_overlap 100.
Definition init_default : t := init 500 50.

Definition estimate_tokens (text : string) : Z := len text `div` 4.

(** The namespace [uuid.UUID("6ba7b810-9dad-11d1-80b4-00c04fd430c8")]. *)
Definition namespace : Z := 0x6ba7b8109dad11d180b400c04fd430c8.

Definition _generate_chunk_id (chapter_id section_title : string) (position : Z) : string :=
  let content := chapter_id +:+ ":" +:+ section_title +:+ ":" +:+ str_of_int position in
  uuid.str (uuid.uuid5 namespace content).

(** The locals of a splitting loop: what has been yielded, and the chunk
    being filled with its size. *)
Record split_state := mk_split {
  yielded : list string;
  current_chunk : list string;
  current_size : Z;
}.

(** [if current_chunk: yield sep.join(current_chunk)] *)
Definition yield_current (sep : string) (st : split_state) : list string :=
  match current_chunk st with
  | [] => yielded st
  | _ => yielded st ++ [join sep (current_chunk st)]
  end.

(** One iteration of [for sentence in sentences]. *)
Definition sentence_step (self : t) (st : split_state) (sentence : string) : split_state :=
  let sentence := strip sentence in
  if String.eqb sentence "" then st
  else
    let sentence_tokens := estimate_tokens sentence in
    let st1 :=
      match current_chunk st with
      | [] => st
      | _ =>
          if current_size st + sentence_tokens >? chunk_size self then
            mk_split (yielded st ++ [join " " (current_chunk st)]) [] 0
          else st
      end in
    mk_split (yielded st1) (current_chunk st1 ++ [sentence])
             (current_size st1 + sentence_tokens).

Definition _split_large_paragraph (self : t) (paragraph : string) : list string :=
  let sentences := split_sentences false false "" paragraph in
  yield_current " " (foldl (sentence_step self) (mk_split [] [] 0) sentences).

(** The [for prev_para in reversed(current_chunk)] loop, on the reversed
    list: the paragraphs kept as overlap and their size. *)
Fixpoint overlap (self : t) (reversed : list string) (overlap_chunks : list string)
    (overlap_size : Z) : list string * Z :=
  match reversed with
  | [] => (overlap_chunks, overlap_size)
  | prev_para :: rest =>
      let prev_size := estimate_tokens prev_para in
      if overlap_size + prev_size <=? chunk_overlap self then
        overlap self rest (prev_para :: overlap_chunks) (overlap_size + prev_size)
      else (overlap_chunks, overlap_size)
  end.

Definition PARA_SEP : string := NL +:+ NL.

(** One iteration of [for para in paragraphs]. *)
Definition paragraph_step (self : t) (st : split_state) (para : string) : split_state :=
  let para := strip para in
  if String.eqb para "" then st
  else
    let para_tokens := estimate_tokens para in
    if para_tokens >? chunk_size self then
      let st0 :=
        match current_chunk st with
        | [] => st
        | _ => mk_split (yielded st ++ [join PARA_SEP (current_chunk st)]) [] 0
        end in
      mk_split (yielded st0 ++ _split_large_paragraph self para)
               (current_chunk st0) (current_size st0)
    else
      let st1 :=
        match current_chunk st with
        | [] => st
        | _ =>
            if current_size st + para_tokens >? chunk_size self then
              let '(overlap_chunks, overlap_size) :=
                overlap self (rev (current_chunk st)) [] 0 in
              mk_split (yielded st ++ [join PARA_SEP (current_chunk st)])
                       overlap_chunks overlap_size
            else st
        end in
      mk_split (yielded st1) (current_chunk st1 ++ [para]) (current_size st1 + para_tokens).

(** [_split_text], with the strings it yields as a list. *)
Definition _split_text (self : t) (text : string) : list string :=
  if String.eqb (strip text) "" then []
  else
    let paragraphs := split_paragraphs false "" text in
    yield_current PARA_SEP (foldl (paragraph_step self) (mk_split [] [] 0) paragraphs).

(** The locals of [chunk_content]. *)
Record chunk_state := mk_chunks {
  chunks : list ContentChunk.t;
  position : Z;
}.

(** One iteration of [for chunk_text in self._split_text(section_content)]. *)
Definition chunk_step (self : t) (parsed_content : ParsedContent.t)
    (section_title : string) (section_metadata : ContentMetadata.t)
    (st : chunk_state) (chunk_text : string) : chunk_state :=
  let token_count := estimate_tokens chunk_text in
  if token_count <? min_chunk_size self then st
  else
    let chunk_id :=
      _generate_chunk_id
        (ContentMetadata.chapter_id (ParsedContent.metadata parsed_content))
        section_title (position st) in
    mk_chunks
      (chunks st ++ [ContentChunk.mk chunk_id chunk_text section_metadata (position st)
                                     token_count])
      (position st + 1).

(** One iteration of [for section_title, section_content in ...sections]. *)
Definition section_step (self : t) (parsed_content : ParsedContent.t)
    (st : chunk_state) (section : string * string) : chunk_state :=
  let '(section_title, section_content) := section in
  let md := ParsedContent.metadata parsed_content in
  let section_metadata :=
    ContentMetadata.mk (ContentMetadata.chapter_id md) (ContentMetadata.title md)
      section_title (ContentMetadata.page_url md) (ContentMetadata.sidebar_position md) in
  foldl (chunk_step self parsed_content section_title section_metadata) st
        (_split_text self section_content).

Definition chunk_content (self : t) (parsed_content : ParsedContent.t)
    : list ContentChunk.t :=
  chunks (foldl (section_step self parsed_content) (mk_chunks [] 0)
                (ParsedContent.sections parsed_content)).

End ContentChunker.

(** * Further code of the pipeline *)

(** ** More Python string operations *)

(** [s.split()]: the maximal runs of characters that are not whitespace;
    [cur] is the run being read, reversed. *)
Fixpoint split_ws_go (cur : string) (s : string) : list string :=
  match s with
  | EmptyString => if String.eqb cur "" then [] else [String.rev cur]
  | String c rest =>
      if isspace c then
        (if String.eqb cur "" then [] else [String.rev cur]) ++ split_ws_go "" rest
      else split_ws_go (String c cur) rest
  end.

Definition split_ws (s : string) : list string := split_ws_go "" s.

(** [s.split("\n")]: the lines of [s], at least one; [cur] is the line
    being read, reversed. *)
Fixpoint split_lines_go (cur : string) (s : string) : list string :=
  match s with
  | EmptyString => [String.rev cur]
  | String c rest =>
      if is_newline c then String.rev cur :: split_lines_go "" rest
      else split_lines_go (String c cur) rest
  end.

Definition split_lines (s : string) : list string := split_lines_go "" s.

(** [c.lower()] for a code point below 256: the letters A to Z and the
    Latin-1 capitals 192 to 222, the multiplication sign 215 apart. *)
Definition lower_char (c : ascii) : ascii :=
  let n := N_of_ascii c in
  if ((65 <=? n) && (n <=? 90) || (192 <=? n) && (n <=? 222) && negb (n =? 215))%N
  then ascii_of_N (n + 32)
  else c.

(** [s.lower()] *)
Fixpoint lower (s : string) : string :=
  match s with
  | EmptyString => ""
  | String c rest => String (lower_char c) (lower rest)
  end.

(** What [\w] matches below 256: digits, letters, the underscore, and the
    Latin-1 letters and numerals. *)
Definition is_word_char (c : ascii) : bool :=
  let n := N_of_ascii c in
  ((48 <=? n) && (n <=? 57) || (65 <=? n) && (n <=? 90) || (n =? 95)
   || (97 <=? n) && (n <=? 122) || (n =? 170) || (178 <=? n) && (n <=? 179)
   || (n =? 181) || (185 <=? n) && (n <=? 186) || (188 <=? n) && (n <=? 190)
   || (192 <=? n) && (n <=? 214) || (216 <=? n) && (n <=? 246)
   || (248 <=? n) && (n <=? 255))%N.

(** [needle in haystack] *)
Fixpoint contains (needle haystack : string) : bool :=
  String.prefix needle haystack
  || match haystack with
     | EmptyString => false
     | String _ rest => contains needle rest
     end.

(** ** embedding_service.py: a single text *)

Module EmbeddingServiceSingle.
Section WithWorld.
Context {World : Type} {collaborators : Collaborators World}.

(** [generate_embedding]: [results[0]] of the embeddings of [[text]]. *)
Definition generate_embedding (self : EmbeddingService.t) (text : string)
    : IO.M World EmbeddingResult.t :=
  results ← EmbeddingService.generate_embeddings self [text];
  match results with
  | [] => IO.raise (Error "IndexError" "list index out of range")
  | result :: _ => mret result
  end.

End WithWorld.
End EmbeddingServiceSingle.

(** ** query_processor.py *)

Module QueryProcessor.

Definition STOP_WORDS : gset string :=
  list_to_set [
    "a"; "an"; "the"; "is"; "are"; "was"; "were"; "be"; "been"; "being"; "have"; "has";
    "had"; "do"; "does"; "did"; "will"; "would"; "could"; "should"; "may"; "might";
    "must"; "shall"; "can"; "need"; "dare"; "ought"; "used"; "to"; "of"; "in"; "for";
    "on"; "with"; "at"; "by"; "from"; "as"; "into"; "through"; "during"; "before";
    "after"; "above"; "below"; "between"; "under"; "again"; "further"; "then"; "once";
    "here"; "there"; "when"; "where"; "why"; "how"; "all"; "each"; "few"; "more";
    "most"; "other"; "some"; "such"; "no"; "nor"; "not"; "only"; "own"; "same"; "so";
    "than"; "too"; "very"; "just"; "and"; "but"; "if"; "or"; "because"; "until";
    "while"; "what"; "which"; "who"; "whom"; "this"; "that"; "these"; "those"; "am";
    "i"; "me"; "my"; "myself"; "we"; "our"; "ours"; "ourselves"; "you"; "your";
    "yours"; "yourself"; "yourselves"; "he"; "him"; "his"; "himself"; "she"; "her";
    "hers"; "herself"; "it"; "its"; "itself"; "they"; "them"; "their"; "theirs";
    "themselves"].

Definition DOMAIN_SYNONYMS : gmap string (list string) :=
  list_to_map [
    ("robot", ["robotics"; "robotic"; "humanoid"]);
    ("ai", ["artificial intelligence"; "machine learning"; "ml"]);
    ("vision", ["computer vision"; "visual perception"; "image processing"]);
    ("motion", ["movement"; "locomotion"; "kinematics"]);
    ("sensor", ["sensors"; "perception"; "sensing"]);
    ("control", ["controller"; "controlling"; "actuation"]);
    ("learning", ["training"; "machine learning"; "neural network"]);
    ("planning", ["path planning"; "motion planning"; "trajectory"]);
    ("manipulation", ["grasping"; "handling"; "pick and place"]);
    ("navigation", ["localization"; "mapping"; "slam"]);
    ("hri", ["human robot interaction"; "human-robot interaction"]);
    ("safety", ["safe"; "collision avoidance"; "risk"]);
    ("ethics", ["ethical"; "responsible ai"; "fairness"])].

Record t := mk {
  embedding_service : EmbeddingService.t;
  enable_expansion : bool;
}.

(** [re.sub(r"[^\w\s\?\-]", " ", processed)] on one character. *)
Definition keep_char (c : ascii) : ascii :=
  if is_word_char c || isspace c || Ascii.eqb c "?" || Ascii.eqb c "-" then c else " "%char.

Fixpoint remove_punctuation (s : string) : string :=
  match s with
  | EmptyString => ""
  | String c rest => String (keep_char c) (remove_punctuation rest)
  end.

Definition preprocess_query (query : string) : string :=
  let processed := join " " (split_ws query) in
  let processed := lower processed in
  let processed := remove_punctuation processed in
  let processed := join " " (split_ws processed) in
  processed.

(** The [for synonym in self.DOMAIN_SYNONYMS[word]] loop. *)
Definition add_synonyms (query_lower : string) (expanded_terms : list string)
    (synonyms : list string) : list string :=
  foldl (fun expanded_terms synonym =>
           if negb (contains (lower synonym) query_lower)
           then expanded_terms ++ [synonym]
           else expanded_terms)
        expanded_terms synonyms.

(** One iteration of [for word in meaningful_words]. *)
Definition expand_word (query_lower : string) (expanded_terms : list string)
    (word : string) : list string :=
  match DOMAIN_SYNONYMS !! word with
  | Some synonyms => add_synonyms query_lower expanded_terms synonyms
  | None => expanded_terms
  end.

Definition build_embedding_text (processed_query : string) (expanded_terms : list string)
    : string :=
  let parts := [processed_query] in
  let parts :=
    match expanded_terms with
    | [] => parts
    | _ =>
        let relevant_expansions := slice_to expanded_terms 3 in
        parts ++ [join " " relevant_expansions]
    end in
  join " " parts.

Section Iteration.
(** Python iterates over a set of strings in an order that depends on the
    hashes of the strings, which change from one process to the next: the
    order is a parameter. *)
Variable iterate : gset string → list string.

Definition expand_query (self : t) (query : string) : list string :=
  if negb (enable_expansion self) then []
  else
    let query_lower := lower query in
    let words : gset string := list_to_set (split_ws query_lower) in
    let meaningful_words := words ∖ STOP_WORDS in
    foldl (expand_word query_lower) [] (iterate meaningful_words).

Context {World : Type} {collaborators : Collaborators World}.

Definition process_query (self : t) (query : string) : IO.M World ProcessedQuery.t :=
  let processed := preprocess_query query in
  let expanded_terms := expand_query self processed in
  let embedding_text := build_embedding_text processed expanded_terms in
  embedding_result ←
    EmbeddingServiceSingle.generate_embedding (embedding_service self) embedding_text;
  mret (ProcessedQuery.mk query processed expanded_terms
          (EmbeddingResult.embedding embedding_result)).

End Iteration.
End QueryProcessor.

(** ** rag_service.py *)

Module RAGRequest.
Record t := mk {
  query : string;
  selected_text : option string;
  user_id : option string;
  top_k : Z;
  score_threshold : float;
}.

(** [RAGRequest(query)], with the defaults of the other fields. *)
Definition init (query : string) : t := mk query None None 5 0.5%float.
End RAGRequest.

(** A value of the dictionary [Source.to_dict] builds. *)
Inductive DictValue :=
| VStr (s : string)
| VFloat (x : float).

Module RAGResponse.
Record t := mk {
  response : string;
  sources : list (gmap string DictValue);
  is_fallback : bool;
  query : string;
  selected_text : option string;
}.
End RAGResponse.

Module RAGService.

Record t := mk {
  retriever : VectorRetriever.t;
  response_generator : ResponseGenerator.t;
}.

(** [Source.to_dict] *)
Definition to_dict (s : Source.t) : gmap string DictValue :=
  list_to_map [
    ("chapter_id", VStr (Source.chapter_id s));
    ("title", VStr (Source.title s));
    ("section_title", VStr (Source.section_title s));
    ("page_url", VStr (Source.page_url s));
    ("relevance_score", VFloat (Source.relevance_score s))].

Section WithWorld.
Context {World : Type} {collaborators : Collaborators World}.

Definition process_query (self : t) (request : RAGRequest.t) : IO.M World RAGResponse.t :=
  retrieval_result ←
    VectorRetriever.retrieve (retriever self) (RAGRequest.query request)
      (Some (RAGRequest.top_k request)) (Some (RAGRequest.score_threshold request));
  generated ←
    ResponseGenerator.generate_response (response_generator self)
      (RAGRequest.query request) retrieval_result (RAGRequest.selected_text request);
  mret (RAGResponse.mk (GeneratedResponse.response generated)
          (to_dict <$> GeneratedResponse.sources generated)
          (GeneratedResponse.is_fallback generated)
          (RAGRequest.query request) (RAGRequest.selected_text request)).

End WithWorld.
End RAGService.

(** ** content_parser.py: the sections of a document *)

Module ContentParser.

(** The number of [#] a line starts with, and what follows them. *)
Fixpoint leading_hashes (line : string) : nat * string :=
  match line with
  | String c rest =>
      if Ascii.eqb c "#" then
        let '(k, after) := leading_hashes rest in (S k, after)
      else (0%nat, line)
  | EmptyString => (0%nat, line)
  end.

(** The last character of a string, as a string. *)
Definition last_char (s : string) : string :=
  String.substring (String.length s - 1) 1 s.

(** [HEADING_PATTERN.match(line).group(2)] for a line without a newline,
    the pattern being [^(#{1,6})\s+(.+)$]: one to six [#], then whitespace,
    then at least one more character.  The whitespace is matched greedily;
    when nothing but whitespace follows the [#], its last character is the
    group. *)
Definition heading_match (line : string) : option string :=
  let '(k, rest) := leading_hashes line in
  if ((1 <=? k) && (k <=? 6))%nat then
    match rest with
    | String c rest' =>
        if isspace c && negb (String.eqb rest' "") then
          let after := lstrip rest in
          Some (if String.eqb after "" then last_char rest else after)
        else None
    | EmptyString => None
    end
  else None.

(** The locals of [_extract_sections]. *)
Record sections_state := mk_sections {
  sections : list (string * string);
  current_heading : string;
  current_content : list string;
}.

(** [if current_content: sections.append((current_heading, ...))] *)
Definition save_section (st : sections_state) : list (string * string) :=
  match current_content st with
  | [] => sections st
  | _ => sections st ++ [(current_heading st, strip (join NL (current_content st)))]
  end.

(** One iteration of [for line in lines]. *)
Definition line_step (st : sections_state) (line : string) : sections_state :=
  match heading_match line with
  | Some title => mk_sections (save_section st) (strip title) []
  | None => mk_sections (sections st) (current_heading st) (current_content st ++ [line])
  end.

Definition _extract_sections (content : string) : list (string * string) :=
  let lines := split_lines content in
  save_section (foldl line_step (mk_sections [] "Introduction" []) lines).

End ContentParser.

(** ** indexer_service.py: deleting and re-indexing a chapter *)

(** The client of the vector store, as [delete_chapter] uses it: whether
    there is one, and its [delete] with a filter on the key [chapter_id]
    of a collection. *)
Class QdrantClient (World : Type) := {
  is_connected : World → bool;
  client_delete : string → string → World → World * (Exn + unit);
}.

Module QdrantIndexerChapters.
Section WithWorld.
Context {World : Type} {collaborators : Collaborators World} {client : QdrantClient World}.

(** [get_settings().qdrant_collection_name] *)
Variable qdrant_collection_name : string.

(** [delete_chapter]; the deletion changes the world and leaves the trace
    as it is. *)
Definition delete_chapter (self : QdrantIndexer.t) (chapter_id : string) : IO.M World Z :=
  fun env =>
    if negb (is_connected (IO.world env)) then
      (env, inl (Error "RuntimeError" "Qdrant not connected"))
    else
      let '(w', out) := client_delete qdrant_collection_name chapter_id (IO.world env) in
      match out with
      | inl e => (IO.mk_env w' (IO.trace env), inl e)
      | inr _ => (IO.mk_env w' (IO.trace env), inr 0)
      end.

Definition reindex_chapter (self : QdrantIndexer.t) (chapter_id : string)
    (chunks : list ContentChunk.t) : IO.M World IndexingResult.t :=
  delete_chapter self chapter_id;;
  QdrantIndexer.index_chunks self chunks.

End WithWorld.
End QdrantIndexerChapters.

(** * The vocabulary of the properties *)

(** ** Test data, after the test suite *)

(** The chunks the tests build ([create_mock_chunk] of test_rag_response.py),
    with the fields the tests vary. *)
Definition create_mock_chunk (id chapter_id section_title : string) (score : float)
    : RetrievedChunk.t :=
  RetrievedChunk.mk id "Test content about robotics" chapter_id "Motion Planning"
                    section_title "/core/motion-planning" 0 score.

(** A string of [n] letters. *)
Definition letters (n : nat) : string := String.concat "" (replicate n "A").

(** The hits of [test_retrieve_by_chapter_excludes_other_chapters]. *)
Definition mixed_hits : list SearchHit.t :=
  [SearchHit.mk "chunk-1" 0.95%float
     (Some (Payload.mk (Some "Content 1") (Some "motion-planning") (Some "Motion Planning")
                       (Some "Intro") (Some "/motion-planning") (Some 0) None));
   SearchHit.mk "chunk-2" 0.90%float
     (Some (Payload.mk (Some "Content 2") (Some "computer-vision") (Some "Computer Vision")
                       (Some "Intro") (Some "/computer-vision") (Some 0) None))].

(** A chunk of chapter [intro] at position [n]. *)
Definition sample_chunk (n : nat) : ContentChunk.t :=
  ContentChunk.mk (ContentChunker._generate_chunk_id "intro" "Overview" (Z.of_nat n))
    "A paragraph about humanoid robots."
    (ContentMetadata.mk "intro" "Introduction" "Overview" "/docs/intro" None)
    (Z.of_nat n) 8.

(** ** Test doubles *)

(** Collaborators in the manner of the mocks of the test suite.  The world
    is the number of upserts so far; the search returns the first [limit]
    of fixed [hits]; the upsert number [n] fails when [failing n]. *)
Definition mock_collaborators (hits : list SearchHit.t) (failing : nat → bool)
    : Collaborators nat := {|
  embeddings_create _ texts w :=
    (w, inr (EmbeddingResponse.mk (replicate (length texts) [0.1%float])
               (Z.of_nat (length texts)) (Z.of_nat (length texts))));
  asyncio_sleep _ w := w;
  upsert_vectors _ w :=
    (S w, if failing w
          then inl (Error "RuntimeError" "Qdrant not connected. Call connect() first.")
          else inr ());
  search _ limit _ w := (w, inr (take (Z.to_nat limit) hits));
  chat_completions_create _ w := (w, inr [Some "This is a test response about robotics."]);
  process_query query w := (w, inr (ProcessedQuery.mk query query [] [0.1%float]));
|}.

(** The world before anything has happened. *)
Definition start : IO.Env nat := IO.mk_env 0%nat [].

(** ** Batches *)

Section BatchVocabulary.
Import EmbeddingService.

(** The estimate of one text, and of a batch. *)
Definition text_tokens (text : string) : Z := len text `div` 4.

Fixpoint batch_tokens (batch : list string) : Z :=
  match batch with
  | [] => 0
  | text :: rest => text_tokens text + batch_tokens rest
  end.

(** A batch within the caps; a single text above the token cap is a batch
    of its own. *)
Definition within_caps (batch : list string) : Prop :=
  batch ≠ [] ∧ Z.of_nat (length batch) ≤ MAX_BATCH_SIZE ∧
  (batch_tokens batch ≤ MAX_TOKENS_PER_BATCH ∨ length batch = 1%nat).

(** [batch] was closed because the first text of [next] did not fit. *)
Definition closed_before (batch next : list string) : Prop :=
  ∃ text, head next = Some text ∧
    (MAX_BATCH_SIZE ≤ Z.of_nat (length batch)
     ∨ MAX_TOKENS_PER_BATCH < batch_tokens batch + text_tokens text).

(** Every batch but the last was closed by the first text of the next. *)
Definition adjacent (batches : list (list string)) : Prop :=
  ∀ i batch next,
    batches !! i = Some batch → batches !! S i = Some next → closed_before batch next.

(** The invariant of the loop of [_create_batches] after the texts
    [processed]. *)
Record batch_inv (st : batch_state) (processed : list string) : Prop := {
  inv_concat : concat (batches st) ++ current_batch st = processed;
  inv_tokens : current_tokens st = batch_tokens (current_batch st);
  inv_closed : Forall within_caps (batches st);
  inv_current : current_batch st ≠ [] → within_caps (current_batch st);
  inv_first : current_batch st = [] → batches st = [];
  inv_adjacent : adjacent (flush (batches st) (current_batch st));
}.

(** The sizes of the batches when the token cap is never reached and the
    item cap is 100: [c] texts are in the current batch and [n] more
    arrive. *)
Fixpoint sizes (c n : nat) : list nat :=
  match n with
  | O => if decide (c = 0)%nat then [] else [c]
  | S n' => if decide (100 ≤ c)%nat then c :: sizes 1 n' else sizes (S c) n'
  end.

End BatchVocabulary.

(** ** Sources and their keys *)

Section SourceVocabulary.
Import ResponseGenerator.

(** The citation of a chunk. *)
Definition source_of (chunk : RetrievedChunk.t) : Source.t :=
  Source.mk (RetrievedChunk.chapter_id chunk) (RetrievedChunk.title chunk)
            (RetrievedChunk.section_title chunk) (RetrievedChunk.page_url chunk)
            (RetrievedChunk.score chunk).

(** The chunks whose key is neither in [seen] nor the key of an earlier
    chunk. *)
Fixpoint first_by_key (seen : list string) (chunks : list RetrievedChunk.t)
    : list RetrievedChunk.t :=
  match chunks with
  | [] => []
  | chunk :: rest =>
      if decide (source_key chunk ∈ seen) then first_by_key seen rest
      else chunk :: first_by_key (source_key chunk :: seen) rest
  end.

End SourceVocabulary.

(** ** Traces *)

(** The [limit] and [score_threshold] of the searches of a trace. *)
Definition search_calls (trace : list Event) : list (Z * float) :=
  omap (fun ev => match ev with
                  | EvSearch _ limit score_threshold _ => Some (limit, score_threshold)
                  | _ => None
                  end) trace.

(** The chunks of the hits that carry a payload. *)
Definition converted (hits : list SearchHit.t) : list RetrievedChunk.t :=
  omap (fun hit => match VectorRetriever.to_chunk hit with
                   | inr chunk => Some chunk
                   | inl _ => None
                   end) hits.

(** The points of a sub-batch, as [_upsert_batch] builds them. *)
Definition points_of (batch : list IndexedChunk.t) : list Point.t :=
  (fun chunk => Point.mk (IndexedChunk.id chunk) (IndexedChunk.embedding chunk)
                         (IndexedChunk.metadata chunk)) <$> batch.

(** The sub-batch at offset [i]. *)
Definition sub_batch (indexed_chunks : list IndexedChunk.t) (i : nat) : list IndexedChunk.t :=
  slice indexed_chunks i QdrantIndexer.UPSERT_BATCH_SIZE.

(** The events of the upserts [runs]: the offset of each sub-batch with the
    outcome of its upsert. *)
Definition upsert_events (indexed_chunks : list IndexedChunk.t)
    (runs : list (nat * (Exn + unit))) : list Event :=
  (fun '(i, out) => EvUpsert (points_of (sub_batch indexed_chunks i)) out) <$> runs.

(** The sizes of the sub-batches that failed, and of those that did not. *)
Fixpoint failed_size (indexed_chunks : list IndexedChunk.t)
    (runs : list (nat * (Exn + unit))) : Z :=
  match runs with
  | [] => 0
  | (i, inl _) :: rest =>
      Z.of_nat (length (sub_batch indexed_chunks i)) + failed_size indexed_chunks rest
  | (_, inr _) :: rest => failed_size indexed_chunks rest
  end.

Fixpoint indexed_size (indexed_chunks : list IndexedChunk.t)
    (runs : list (nat * (Exn + unit))) : Z :=
  match runs with
  | [] => 0
  | (_, inl _) :: rest => indexed_size indexed_chunks rest
  | (i, inr _) :: rest =>
      Z.of_nat (length (sub_batch indexed_chunks i)) + indexed_size indexed_chunks rest
  end.

(** The message of each sub-batch that failed. *)
Definition failure_messages (runs : list (nat * (Exn + unit))) : list string :=
  omap (fun '(i, out) =>
          match out with
          | inl e => Some ("Failed to upsert batch "
                             +:+ str_of_int
                                   (Z.of_nat i `div` Z.of_nat QdrantIndexer.UPSERT_BATCH_SIZE
                                    + 1)
                             +:+ ": " +:+ str_of_exn e)
          | inr _ => None
          end) runs.

(** What the store answers to the upserts of the sub-batches at [offsets],
    made one after the other from the world [w]: the offset of each
    sub-batch with the outcome of its upsert, and the world the last
    upsert leaves. *)
Fixpoint store_runs {World : Type} {collaborators : Collaborators World}
    (indexed_chunks : list IndexedChunk.t) (offsets : list nat) (w : World)
    : list (nat * (Exn + unit)) * World :=
  match offsets with
  | [] => ([], w)
  | i :: rest =>
      let '(w', out) := upsert_vectors (points_of (sub_batch indexed_chunks i)) w in
      let '(runs, w'') := store_runs indexed_chunks rest w' in
      ((i, out) :: runs, w'')
  end.

(** ** Chunk names *)

Section ChunkerVocabulary.
Import ContentChunker.

(** The name the identifier of a chunk is computed from. *)
Definition chunk_name (chapter_id section_title : string) (position : Z) : string :=
  chapter_id +:+ ":" +:+ section_title +:+ ":" +:+ str_of_int position.

(** The invariant of the loops of [chunk_content]: every chunk made so far
    has the identifier of its chapter, section and position, and the
    positions count from 0. *)
Record chunks_inv (parsed_content : ParsedContent.t) (st : chunk_state) : Prop := {
  inv_ids :
    Forall (λ chunk,
      ContentChunk.id chunk
      = uuid.str (uuid.uuid5 namespace
          (chunk_name (ContentMetadata.chapter_id (ParsedContent.metadata parsed_content))
             (ContentMetadata.section_title (ContentChunk.metadata chunk))
             (ContentChunk.position chunk))))
      (chunks st);
  inv_positions : ContentChunk.position <$> chunks st = Z.of_nat <$> seq 0 (length (chunks st));
  inv_next : position st = Z.of_nat (length (chunks st));
}.

End ChunkerVocabulary.

(** ** The layout of a context *)

(** The chunks as [build_context] formats them, the first one numbered
    [first]. *)
Fixpoint formatted_from (first : Z) (chunks : list RetrievedChunk.t) : list string :=
  match chunks with
  | [] => []
  | chunk :: rest =>
      ContextBuilder._format_chunk chunk first :: formatted_from (first + 1) rest
  end.

(** The sum of the estimates of some parts of a context. *)
Fixpoint parts_tokens (parts : list string) : Z :=
  match parts with
  | [] => 0
  | part :: rest => ContextBuilder._estimate_tokens part + parts_tokens rest
  end.

(** ** The calls of the embedding client *)

(** The calls of the embeddings endpoint in a trace: model, texts and
    outcome. *)
Definition embed_calls (trace : list Event)
    : list (string * list string * (Exn + EmbeddingResponse.t)) :=
  omap (fun ev => match ev with
                  | EvEmbed model texts out => Some (model, texts, out)
                  | _ => None
                  end) trace.

(** The durations slept in a trace. *)
Definition sleeps (trace : list Event) : list float :=
  omap (fun ev => match ev with
                  | EvSleep seconds => Some seconds
                  | _ => None
                  end) trace.

(** The event of a call of the embeddings endpoint. *)
Definition event_of_call (call : string * list string * (Exn + EmbeddingResponse.t))
    : Event :=
  EvEmbed call.1.1 call.1.2 call.2.

(** The elements of [xs] with those of [ys] between them: the first of
    [xs], the first of [ys], the second of [xs], and so on. *)
Fixpoint interleave {A} (xs ys : list A) : list A :=
  match xs with
  | [] => []
  | x :: xs' =>
      x :: match ys with
           | [] => xs'
           | y :: ys' => y :: interleave xs' ys'
           end
  end.

(** An outcome the retry loop tries again after. *)
Definition retryable {A} (out : Exn + A) : bool :=
  match out with
  | inl (RateLimitError _ _) | inl (APIError _) => true
  | _ => false
  end.

(** A rate-limit error that says how long to wait. *)
Definition suggests_wait {A} (out : Exn + A) : bool :=
  match out with
  | inl (RateLimitError (Some _) _) => true
  | _ => false
  end.

(** The delays of [n] retries from [delay] on: each the double of the one
    before, capped. *)
Fixpoint backoff (n : nat) (delay : float) : list float :=
  match n with
  | O => []
  | S n' =>
      delay :: backoff n' (min_float (delay * 2)%float EmbeddingService.MAX_RETRY_DELAY)
  end.

(** ** The estimates of paragraphs *)

(** The sum of the estimates of some paragraphs. *)
Fixpoint paragraphs_tokens (paragraphs : list string) : Z :=
  match paragraphs with
  | [] => 0
  | paragraph :: rest => ContentChunker.estimate_tokens paragraph + paragraphs_tokens rest
  end.

(** ** Characters *)

(** The characters of a string. *)
Definition chars (s : string) : list ascii := list_ascii_of_string s.

(** ** Queries *)

(** A word: not empty, and without whitespace. *)
Definition is_word (w : string) : Prop :=
  w ≠ "" ∧ Forall (λ c, isspace c = false) (chars w).

(** A character a processed query is made of, the space apart: a word
    character, a question mark or a hyphen, in lower case. *)
Definition query_char (c : ascii) : Prop :=
  (is_word_char c || Ascii.eqb c "?" || Ascii.eqb c "-") = true ∧ lower_char c = c.

(** The synonyms of a word that do not occur in the query. *)
Definition candidates (query_lower word : string) : list string :=
  match QueryProcessor.DOMAIN_SYNONYMS !! word with
  | Some synonyms =>
      filter (λ synonym, contains (lower synonym) query_lower = false) synonyms
  | None => []
  end.

(** ** Retrieval *)

(** The requests made to the chat model in a trace, with their outcomes. *)
Definition chat_calls (trace : list Event)
    : list (ChatRequest.t * (Exn + list (option string))) :=
  omap (fun ev => match ev with
                  | EvChat request out => Some (request, out)
                  | _ => None
                  end) trace.

(** The upserts of a trace. *)
Definition upserts (trace : list Event) : list (list Point.t) :=
  omap (fun ev => match ev with
                  | EvUpsert points _ => Some points
                  | _ => None
                  end) trace.

(** The hit the store returns for a point it holds, with a score. *)
Definition hit_of (point : Point.t) (score : float) : SearchHit.t :=
  SearchHit.mk (Point.id point) score (Some (Point.payload point)).

(** The chunk that comes back for a chunk that was indexed. *)
Definition retrieved_of (chunk : ContentChunk.t) (score : float) : RetrievedChunk.t :=
  let md := ContentChunk.metadata chunk in
  RetrievedChunk.mk (ContentChunk.id chunk) (ContentChunk.content chunk)
    (ContentMetadata.chapter_id md) (ContentMetadata.title md)
    (ContentMetadata.section_title md) (ContentMetadata.page_url md)
    (ContentChunk.position chunk) score.

(** The key under which [_extract_sources] has recorded a source. *)
Definition key_of_source (source : Source.t) : string :=
  Source.chapter_id source +:+ ":" +:+ Source.section_title source.

(** The chapters of a list of chunks. *)
Definition chapter_of (chunk : ContentChunk.t) : string :=
  ContentMetadata.chapter_id (ContentChunk.metadata chunk).

(** The request [generate_response] sends to the chat model for the chunks
    retrieved: the fallback prompt and the selected text when no chunk is
    relevant, the system prompt and the built context otherwise. *)
Definition chat_request (self : ResponseGenerator.t) (query : string)
    (chunks : list RetrievedChunk.t) (selected_text : option string) : ChatRequest.t :=
  let is_fallback := negb (ResponseGenerator._has_relevant_results chunks) in
  let context :=
    if is_fallback then default "" selected_text
    else BuiltContext.context_text
           (ContextBuilder.build_context (ResponseGenerator.context_builder self)
              chunks selected_text) in
  ChatRequest.mk (ResponseGenerator.model self)
    (if is_fallback then ResponseGenerator.FALLBACK_PROMPT
     else ResponseGenerator.SYSTEM_PROMPT)
    (ResponseGenerator.user_message query context is_fallback)
    (ResponseGenerator.max_tokens self) (ResponseGenerator.temperature self).

(** ** The pieces of a text *)

(** What the paragraphs of one piece of [_split_text] can add up to: a
    piece is started with the paragraphs carried over from the one before. *)
Definition split_bound (self : ContentChunker.t) : Z :=
  ContentChunker.chunk_size self + Z.max 0 (ContentChunker.chunk_overlap self).

(** The paragraph [para] is accounted for by the pieces yielded so far and
    the paragraphs of the piece being filled: the pieces of a paragraph
    above [chunk_size] have been yielded, and any other paragraph is in the
    piece being filled or in a piece that has been yielded. *)
Definition paragraph_kept (self : ContentChunker.t) (pieces current : list string)
    (para : string) : Prop :=
  if ContentChunker.estimate_tokens para >? ContentChunker.chunk_size self
  then ∀ piece, piece ∈ ContentChunker._split_large_paragraph self para → piece ∈ pieces
  else para ∈ current ∨
       ∃ group, para ∈ group ∧ join ContentChunker.PARA_SEP group ∈ pieces ∧
                paragraphs_tokens group ≤ split_bound self.

(** The invariant of the loop of [_split_text] over the paragraphs
    [seen]. *)
Definition split_inv (self : ContentChunker.t) (seen : list string)
    (st : ContentChunker.split_state) : Prop :=
  ContentChunker.current_size st = paragraphs_tokens (ContentChunker.current_chunk st) ∧
  (ContentChunker.current_chunk st = [] ∨
   paragraphs_tokens (ContentChunker.current_chunk st) ≤ split_bound self) ∧
  ∀ para, para ∈ seen → para ≠ "" →
    paragraph_kept self (ContentChunker.yielded st) (ContentChunker.current_chunk st) para.




(** * Properties *)

(** ** The context builder *)

Section ContextBuilderFacts.
Import ContextBuilder.

Lemma estimate_tokens_nonneg text : 0 ≤ _estimate_tokens text.
Proof. unfold _estimate_tokens, len, CHARS_PER_TOKEN_ESTIMATE. apply Z.div_pos; lia. Qed.

Lemma preamble_used selected_text : used (preamble selected_text) = [].
Proof. reflexivity. Qed.

Lemma preamble_truncated selected_text : truncated (preamble selected_text) = false.
Proof. reflexivity. Qed.

Lemma preamble_tokens_nonneg selected_text : 0 ≤ current_tokens (preamble selected_text).
Proof.
  unfold preamble. destruct (truthy_str selected_text); simpl.
  - pose proof (estimate_tokens_nonneg (selected_context (default "" selected_text))).
    pose proof (estimate_tokens_nonneg header). lia.
  - pose proof (estimate_tokens_nonneg header). lia.
Qed.

(** What the loop does: it takes a prefix of the candidates, of some length
    [k]; it sets [truncated] exactly when it stops before the end; and a
    chunk is only added within both budgets. *)
Lemma build_loop_spec self chunks st :
  ∃ k : nat,
    (k ≤ length chunks)%nat ∧
    used (build_loop self chunks st) = used st ++ take k chunks ∧
    truncated (build_loop self chunks st)
      = (if decide (k < length chunks)%nat then true else truncated st) ∧
    (k = 0%nat → current_tokens (build_loop self chunks st) = current_tokens st) ∧
    (k ≠ 0%nat →
       current_tokens (build_loop self chunks st) ≤ max_tokens self ∧
       Z.of_nat (length (used (build_loop self chunks st))) ≤ max_chunks self).
Proof.
  revert st. induction chunks as [|chunk rest IH]; intros st.
  - exists 0%nat. simpl. rewrite app_nil_r. repeat split; (done || lia).
  - cbn [build_loop].
    destruct (Z.of_nat (length (used st)) >=? max_chunks self) eqn:Hcount.
    { exists 0%nat. cbn. rewrite app_nil_r. repeat split; (done || lia). }
    set (formatted := _format_chunk chunk (Z.of_nat (length (used st)) + 1)).
    destruct (current_tokens st + _estimate_tokens formatted >? max_tokens self) eqn:Htok.
    { exists 0%nat. cbn. rewrite app_nil_r. repeat split; (done || lia). }
    match goal with |- context [build_loop self rest ?s] => set (st2 := s) end.
    destruct (IH st2) as (k & Hk & Hused & Htrunc & Hzero & Hpos).
    exists (S k). cbn [length take].
    split; [lia|]. split.
    { rewrite Hused. subst st2. cbn. by rewrite <- app_assoc. }
    split.
    { rewrite Htrunc. subst st2. cbn.
      destruct (decide (k < length rest)%nat), (decide (S k < S (length rest))%nat);
        try done; lia. }
    split; [done|]. intros _.
    destruct (decide (k = 0%nat)) as [->|Hne].
    + rewrite Hzero by done. rewrite Hused. subst st2. cbn.
      rewrite app_nil_r, length_app. cbn. lia.
    + by apply Hpos.
Qed.

(** The chunks used are a prefix of the candidates. *)
Lemma build_context_prefix self chunks selected_text :
  BuiltContext.chunks_used (build_context self chunks selected_text) `prefix_of` chunks.
Proof.
  destruct chunks as [|c rest]; [done|].
  unfold build_context.
  destruct (build_loop_spec self (c :: rest) (preamble selected_text))
    as (k & _ & Hused & _).
  cbn [BuiltContext.chunks_used]. rewrite Hused, preamble_used. cbn [app].
  apply prefix_take.
Qed.

End ContextBuilderFacts.

Section ContextBuilderClaims.
Import ContextBuilder.

(** C10. On the empty chunk list [build_context] returns the empty context:
    no text, no chunks, zero tokens, not truncated, whatever the selected
    text is; neither the selected-text block nor the header is produced. *)
Theorem build_context_empty (self : ContextBuilder.t) (selected_text : option string) :
  build_context self [] selected_text = BuiltContext.mk "" [] 0 false.
Proof. reflexivity. Qed.

(** C2, as stated, fails: with [max_tokens = 100] and a selected text of 400
    characters, the selected-text block and the header alone are estimated at
    114 tokens, and that is the total returned. *)
Lemma build_context_budget_counterexample :
  (BuiltContext.total_tokens_estimate
     (build_context (ContextBuilder.mk 100 10)
        [create_mock_chunk "1" "motion-planning" "Introduction" 0.9%float]
        (Some (letters 400)))
   <=? max_tokens (ContextBuilder.mk 100 10)) = false.
Proof. vm_compute. reflexivity. Qed.

(** C2, amended. The budget is checked for each chunk, not for what is put
    before the chunks: the total is at most [max_tokens] as soon as one chunk
    is included, and in every case at most the larger of [max_tokens] and
    the estimate of the selected-text block and header; the number of chunks
    used is at most [max_chunks] (or zero, when that is negative); and
    [truncated] holds exactly when fewer than all candidates were included. *)
Theorem build_context_budget (self : ContextBuilder.t) (chunks : list RetrievedChunk.t)
    (selected_text : option string) :
  let r := build_context self chunks selected_text in
  (BuiltContext.chunks_used r ≠ [] →
     BuiltContext.total_tokens_estimate r ≤ max_tokens self) ∧
  BuiltContext.total_tokens_estimate r
    ≤ Z.max (max_tokens self) (current_tokens (preamble selected_text)) ∧
  Z.of_nat (length (BuiltContext.chunks_used r)) ≤ Z.max (max_chunks self) 0 ∧
  (BuiltContext.truncated r = true
     ↔ (length (BuiltContext.chunks_used r) < length chunks)%nat).
Proof.
  pose proof (preamble_tokens_nonneg selected_text) as Hpre.
  destruct chunks as [|c rest].
  { cbn zeta. rewrite build_context_empty.
    cbn [BuiltContext.chunks_used BuiltContext.total_tokens_estimate
         BuiltContext.truncated length].
    split_and!; [done|lia|lia|]. split; [done|lia]. }
  cbn zeta. unfold build_context.
  destruct (build_loop_spec self (c :: rest) (preamble selected_text))
    as (k & Hk & Hused & Htrunc & Hzero & Hpos).
  cbn [BuiltContext.chunks_used BuiltContext.total_tokens_estimate BuiltContext.truncated].
  rewrite preamble_used in Hused. rewrite preamble_truncated in Htrunc.
  cbn [app] in Hused.
  assert (Hlen : length (used (build_loop self (c :: rest) (preamble selected_text))) = k).
  { rewrite Hused, length_take. lia. }
  destruct (decide (k = 0%nat)) as [->|Hne].
  - rewrite Hzero by done. rewrite Hused, Htrunc. cbn [take length].
    split_and!; [done|lia|lia|].
    destruct (decide _) as [_|Hn]; [split; intros; [lia|done]|]. cbn in Hn. lia.
  - destruct (Hpos Hne) as [Htok Hcount]. rewrite Hlen in *. rewrite Htrunc.
    split_and!; [done|lia|lia|].
    destruct (decide _); split; intros; (done || lia).
Qed.

Lemma filter_eqb_chapter (p : string) (chunks : list RetrievedChunk.t) :
  List.filter (fun c => String.eqb (RetrievedChunk.chapter_id c) p) chunks
  = filter (λ c, RetrievedChunk.chapter_id c = p) chunks.
Proof.
  induction chunks as [|c rest IH]; [done|].
  cbn [List.filter]. rewrite filter_cons, IH.
  destruct (String.eqb_spec (RetrievedChunk.chapter_id c) p), (decide _); done.
Qed.

Lemma filter_neqb_chapter (p : string) (chunks : list RetrievedChunk.t) :
  List.filter (fun c => negb (String.eqb (RetrievedChunk.chapter_id c) p)) chunks
  = filter (λ c, RetrievedChunk.chapter_id c ≠ p) chunks.
Proof.
  induction chunks as [|c rest IH]; [done|].
  cbn [List.filter]. rewrite filter_cons, IH.
  destruct (String.eqb_spec (RetrievedChunk.chapter_id c) p), (decide _); done.
Qed.

(** C8. With a non-empty priority chapter, [build_context_with_priority] is
    [build_context] on the stable partition of the chunks (those of the
    priority chapter, then the others, each in its original order); the
    chunks used are a prefix of that list, so a chunk of another chapter is
    only included after every chunk of the priority chapter.  For three
    chunks [v; m1; m2] with only [m1] and [m2] in the priority chapter, the
    chunks used are [m1], [m1; m2] or [m1; m2; v], or none. *)
Theorem build_context_with_priority_partition (self : ContextBuilder.t)
    (chunks : list RetrievedChunk.t) (priority_chapter_id : string)
    (selected_text : option string) :
  priority_chapter_id ≠ "" →
  let priority := filter (λ c, RetrievedChunk.chapter_id c = priority_chapter_id) chunks in
  let others := filter (λ c, RetrievedChunk.chapter_id c ≠ priority_chapter_id) chunks in
  let r := build_context_with_priority self chunks (Some priority_chapter_id) selected_text in
  r = build_context self (priority ++ others) selected_text ∧
  priority ++ others ≡ₚ chunks ∧
  priority `sublist_of` chunks ∧ others `sublist_of` chunks ∧
  BuiltContext.chunks_used r `prefix_of` priority ++ others ∧
  (∀ v m1 m2,
     chunks = [v; m1; m2] →
     RetrievedChunk.chapter_id v ≠ priority_chapter_id →
     RetrievedChunk.chapter_id m1 = priority_chapter_id →
     RetrievedChunk.chapter_id m2 = priority_chapter_id →
     BuiltContext.chunks_used r ∈ [[]; [m1]; [m1; m2]; [m1; m2; v]]).
Proof.
  intros Hne priority others r.
  assert (Hr : r = build_context self (priority ++ others) selected_text).
  { subst r priority others. unfold build_context_with_priority.
    cbn [truthy_str default from_option id].
    destruct (String.eqb_spec priority_chapter_id "") as [->|_]; [done|].
    cbn [negb]. by rewrite filter_eqb_chapter, filter_neqb_chapter. }
  assert (Hprefix : BuiltContext.chunks_used r `prefix_of` priority ++ others).
  { rewrite Hr. apply build_context_prefix. }
  split; [done|]. split; [apply filter_app_complement|].
  split; [apply sublist_filter|]. split; [apply sublist_filter|].
  split; [done|].
  intros v m1 m2 -> Hv Hm1 Hm2.
  assert (Hreordered : priority ++ others = [m1; m2; v]).
  { subst priority others. rewrite !filter_cons, !filter_nil.
    repeat case_decide; done. }
  rewrite Hreordered in Hprefix. destruct Hprefix as [tail Htail].
  destruct (BuiltContext.chunks_used r) as [|a [|b [|c [|d l]]]];
    simplify_eq/=; set_solver.
Qed.

(** The theorem at the chunks of [test_build_context_with_priority]. *)
Lemma build_context_with_priority_partition_witness :
  BuiltContext.chunks_used
    (build_context_with_priority (ContextBuilder.mk 1000 5)
       [create_mock_chunk "1" "vision" "Introduction" 0.95%float;
        create_mock_chunk "2" "motion" "Introduction" 0.90%float;
        create_mock_chunk "3" "motion" "Introduction" 0.85%float]
       (Some "motion") None)
  ∈ [[]; [create_mock_chunk "2" "motion" "Introduction" 0.90%float];
     [create_mock_chunk "2" "motion" "Introduction" 0.90%float;
      create_mock_chunk "3" "motion" "Introduction" 0.85%float];
     [create_mock_chunk "2" "motion" "Introduction" 0.90%float;
      create_mock_chunk "3" "motion" "Introduction" 0.85%float;
      create_mock_chunk "1" "vision" "Introduction" 0.95%float]].
Proof.
  apply (proj2 (proj2 (proj2 (proj2 (proj2
    (build_context_with_priority_partition (ContextBuilder.mk 1000 5) _ "motion" None
       ltac:(done)))))));
    [reflexivity | done | reflexivity | reflexivity].
Defined.

End ContextBuilderClaims.

(** ** The batches of the embedding client *)

Section BatchFacts.
Import EmbeddingService.

Lemma text_tokens_nonneg text : 0 ≤ text_tokens text.
Proof. unfold text_tokens, len. apply Z.div_pos; lia. Qed.

Lemma batch_tokens_nonneg batch : 0 ≤ batch_tokens batch.
Proof.
  induction batch as [|t b IH]; cbn; [lia|]. pose proof (text_tokens_nonneg t). lia.
Qed.

Lemma batch_tokens_app b1 b2 : batch_tokens (b1 ++ b2) = batch_tokens b1 + batch_tokens b2.
Proof. induction b1 as [|t b IH]; cbn; lia. Qed.

Lemma adjacent_snoc batches batch :
  adjacent batches →
  (∀ b, last batches = Some b → closed_before b batch) →
  adjacent (batches ++ [batch]).
Proof.
  intros Hadj Hlast i b next Hb Hnext.
  destruct (decide (S i < length batches)%nat) as [Hlt|Hge].
  - rewrite lookup_app_l in Hb by lia. rewrite lookup_app_l in Hnext by lia. eauto.
  - assert (S i = length batches) as Hi.
    { apply lookup_lt_Some in Hnext. rewrite length_app in Hnext. cbn in Hnext. lia. }
    rewrite lookup_app_l in Hb by lia.
    rewrite Hi, lookup_app_r, Nat.sub_diag in Hnext by lia. cbn in Hnext.
    injection Hnext as <-. apply Hlast.
    rewrite last_lookup. rewrite <- Hi. cbn. done.
Qed.

Lemma adjacent_grow_last batches batch text :
  batch ≠ [] → adjacent (batches ++ [batch]) → adjacent (batches ++ [batch ++ [text]]).
Proof.
  intros Hne Hadj i b next Hb Hnext.
  assert (S i < length (batches ++ [batch ++ [text]]))%nat as Hlt
    by (by apply lookup_lt_Some in Hnext).
  rewrite length_app in Hlt. cbn in Hlt.
  rewrite lookup_app_l in Hb by lia.
  destruct (decide (S i < length batches)%nat) as [Hin|Hout].
  - rewrite lookup_app_l in Hnext by lia.
    apply (Hadj i); by rewrite lookup_app_l by lia.
  - assert (S i = length batches) as Hi by lia.
    rewrite Hi, lookup_app_r, Nat.sub_diag in Hnext by lia. cbn in Hnext.
    injection Hnext as <-.
    destruct (Hadj i b batch) as (t & Ht & Hc).
    + by rewrite lookup_app_l by lia.
    + by rewrite Hi, lookup_app_r, Nat.sub_diag by lia.
    + exists t. split; [|done]. destruct batch; [done|]. done.
Qed.

Lemma flush_nonempty batches batch : batch ≠ [] → flush batches batch = batches ++ [batch].
Proof. by destruct batch. Qed.

Lemma batch_inv_init : batch_inv (mk_batches [] [] 0) [].
Proof. split; cbn; done. Qed.

Lemma batch_inv_step st processed text :
  batch_inv st processed → batch_inv (batch_step st text) (processed ++ [text]).
Proof.
  intros [Hconcat Htok Hclosed Hcur Hfirst Hadj].
  pose proof (text_tokens_nonneg text) as Htext.
  unfold batch_step. fold (text_tokens text).
  destruct ((Z.of_nat (length (current_batch st)) >=? MAX_BATCH_SIZE)
            || (current_tokens st + text_tokens text >? MAX_TOKENS_PER_BATCH)) eqn:Hflush.
  - (* the current batch is closed and [text] opens a new one *)
    cbn [batches current_batch current_tokens].
    assert (Hone : within_caps [text]).
    { split; [done|]. split; [cbn; unfold MAX_BATCH_SIZE; lia|]. by right. }
    destruct (current_batch st) as [|t0 cur] eqn:Hcb.
    + rewrite (Hfirst eq_refl) in *. cbn in *. subst processed.
      split; cbn; (done || lia).
    + cbn [flush]. split; cbn [batches current_batch current_tokens].
      * rewrite concat_app. cbn. rewrite app_nil_r, Hconcat. done.
      * cbn. lia.
      * apply Forall_app. split; [done|]. apply Forall_singleton. by apply Hcur.
      * done.
      * done.
      * cbn [flush]. apply adjacent_snoc; [done|].
        intros b Hb. rewrite last_snoc in Hb. injection Hb as <-.
        exists text. split; [done|]. rewrite <- Htok.
        apply orb_true_iff in Hflush. lia.
  - (* [text] joins the current batch *)
    apply orb_false_iff in Hflush as [Hcount Hsum].
    assert (Hgrown : within_caps (current_batch st ++ [text])).
    { split; [by destruct (current_batch st)|]. rewrite length_app. cbn.
      split; [lia|]. left. rewrite batch_tokens_app. cbn. lia. }
    split; cbn [batches current_batch current_tokens].
    + rewrite app_assoc, Hconcat. done.
    + rewrite batch_tokens_app. cbn. lia.
    + done.
    + done.
    + intros Hnil. by destruct (current_batch st).
    + rewrite flush_nonempty by (by destruct (current_batch st)).
      destruct (current_batch st) as [|t0 cur] eqn:Hcb.
      * rewrite (Hfirst eq_refl). intros i b next Hb Hnext. by destruct i.
      * cbn [flush] in Hadj. by apply adjacent_grow_last.
Qed.

Lemma batch_inv_foldl texts st processed :
  batch_inv st processed → batch_inv (foldl batch_step st texts) (processed ++ texts).
Proof.
  revert st processed. induction texts as [|text rest IH]; intros st processed Hinv.
  - by rewrite app_nil_r.
  - cbn [foldl]. replace (processed ++ text :: rest) with ((processed ++ [text]) ++ rest)
      by (by rewrite <- app_assoc).
    apply IH. by apply batch_inv_step.
Qed.

Lemma foldl_batch_step_sizes texts st :
  0 ≤ current_tokens st →
  current_tokens st + batch_tokens texts ≤ MAX_TOKENS_PER_BATCH →
  let st' := foldl batch_step st texts in
  length <$> flush (batches st') (current_batch st')
  = (length <$> batches st) ++ sizes (length (current_batch st)) (length texts).
Proof.
  revert st. induction texts as [|text rest IH]; intros st Hpos Hsum.
  - cbn. destruct (current_batch st); cbn; [by rewrite app_nil_r|].
    by rewrite fmap_app.
  - cbn [foldl length sizes]. cbn [batch_tokens] in Hsum.
    pose proof (text_tokens_nonneg text) as Htext.
    pose proof (batch_tokens_nonneg rest) as Hrest.
    cbn zeta in IH. rewrite IH.
    + unfold batch_step. fold (text_tokens text).
      replace (current_tokens st + text_tokens text >? MAX_TOKENS_PER_BATCH) with false
        by lia.
      rewrite orb_false_r. unfold MAX_BATCH_SIZE.
      destruct (decide (100 ≤ length (current_batch st))%nat) as [Hfull|Hroom].
      * replace (Z.of_nat (length (current_batch st)) >=? 100) with true by lia.
        cbn [batches current_batch]. rewrite flush_nonempty by (intros Hnil; rewrite Hnil in Hfull; cbn in Hfull; lia).
        rewrite fmap_app, <- app_assoc. done.
      * replace (Z.of_nat (length (current_batch st)) >=? 100) with false by lia.
        cbn [batches current_batch]. rewrite length_app. cbn.
        by rewrite Nat.add_1_r.
    + unfold batch_step. fold (text_tokens text). destruct (_ || _); cbn; lia.
    + unfold batch_step. fold (text_tokens text). destruct (_ || _); cbn; lia.
Qed.

(** The batches are the texts, in order. *)
Lemma create_batches_concat (texts : list string) :
  concat (_create_batches texts) = texts.
Proof.
  unfold _create_batches.
  destruct (batch_inv_foldl texts _ _ batch_inv_init) as [Hconcat _ _ _ _ _].
  cbn [app] in Hconcat. cbn zeta.
  destruct (current_batch _) eqn:Hcb; cbn [flush].
  - by rewrite app_nil_r in Hconcat.
  - rewrite concat_app. cbn. by rewrite app_nil_r.
Qed.

Lemma create_batches_within_caps (texts : list string) :
  Forall within_caps (_create_batches texts).
Proof.
  unfold _create_batches.
  destruct (batch_inv_foldl texts _ _ batch_inv_init) as [_ _ Hclosed Hcur _ _].
  cbn zeta. destruct (current_batch _) eqn:Hcb; cbn [flush]; [done|].
  apply Forall_app. split; [done|]. apply Forall_singleton. by apply Hcur.
Qed.

Lemma create_batches_adjacent (texts : list string) : adjacent (_create_batches texts).
Proof.
  unfold _create_batches.
  by destruct (batch_inv_foldl texts _ _ batch_inv_init) as [_ _ _ _ _ Hadj].
Qed.

(** C7. [_create_batches] cuts the texts, in order, into non-empty batches
    within the caps (a single text above the token cap is a batch of its
    own), and each batch but the last was closed because the item-count cap
    was reached or the next text would have passed the token cap.  250 texts
    whose estimates sum to at most the token cap give batches of 100, 100
    and 50 texts. *)
Theorem create_batches_partition (texts : list string) :
  concat (_create_batches texts) = texts ∧
  Forall within_caps (_create_batches texts) ∧
  adjacent (_create_batches texts) ∧
  (length texts = 250%nat → batch_tokens texts ≤ MAX_TOKENS_PER_BATCH →
   length <$> _create_batches texts = [100; 100; 50]%nat).
Proof.
  split_and!.
  - apply create_batches_concat.
  - apply create_batches_within_caps.
  - apply create_batches_adjacent.
  - intros Hlen Hsum. unfold _create_batches.
    rewrite (foldl_batch_step_sizes texts (mk_batches [] [] 0)) by (cbn; lia).
    cbn [batches current_batch length fmap list_fmap app]. rewrite Hlen.
    vm_compute. reflexivity.
Qed.

End BatchFacts.

(** ** The response generator *)

Section ResponseGeneratorFacts.
Import ResponseGenerator.
Context {World : Type} {collaborators : Collaborators World}.

Lemma has_relevant_results_spec (chunks : list RetrievedChunk.t) :
  _has_relevant_results chunks = true
  ↔ ∃ chunk, chunk ∈ chunks
       ∧ PrimFloat.leb MIN_RELEVANCE_THRESHOLD (RetrievedChunk.score chunk) = true.
Proof.
  unfold _has_relevant_results. destruct chunks as [|c rest].
  - split; [done|]. intros (chunk & Hin & _). by apply elem_of_nil in Hin.
  - rewrite existsb_exists. split.
    + intros (chunk & Hin & Hs). exists chunk. by rewrite list_elem_of_In.
    + intros (chunk & Hin & Hs). exists chunk. by rewrite <- list_elem_of_In.
Qed.

(** [_call_openai] returns the first choice when the provider answers with
    one. *)
Lemma call_openai_succeeds (self : ResponseGenerator.t) (query context : string)
    (is_fallback : bool) (env : IO.Env World) :
  (∀ request, ∃ w' content rest,
     chat_completions_create request (IO.world env) = (w', inr (content :: rest))) →
  ∃ env' text, _call_openai self query context is_fallback env = (env', inr text).
Proof.
  intros Hchat. unfold _call_openai.
  match goal with |- context [chat_completions_create ?r] => set (request := r) end.
  destruct (Hchat request) as (w' & content & rest & Hcall).
  unfold IO.try_except, mbind, IO_bind, IO.bind, IO.call. rewrite Hcall. cbn.
  eauto.
Qed.

(** C1. When the chat model answers, [generate_response] returns a
    response; it is a fallback response without sources when no chunk
    (or no chunk at all) scores 0.7 or more, and it is not a fallback
    response when some chunk does. *)
Theorem generate_response_fallback_threshold (self : ResponseGenerator.t) (query : string)
    (retrieval_result : RetrievalResult.t) (selected_text : option string)
    (env : IO.Env World) :
  (∀ request, ∃ w' content rest,
     chat_completions_create request (IO.world env) = (w', inr (content :: rest))) →
  ∃ env' r,
    generate_response self query retrieval_result selected_text env = (env', inr r) ∧
    ((∀ chunk, chunk ∈ RetrievalResult.chunks retrieval_result →
        PrimFloat.leb MIN_RELEVANCE_THRESHOLD (RetrievedChunk.score chunk) = false) →
     GeneratedResponse.is_fallback r = true ∧ GeneratedResponse.sources r = []) ∧
    ((∃ chunk, chunk ∈ RetrievalResult.chunks retrieval_result ∧
        PrimFloat.leb MIN_RELEVANCE_THRESHOLD (RetrievedChunk.score chunk) = true) →
     GeneratedResponse.is_fallback r = false).
Proof.
  intros Hchat. unfold generate_response.
  destruct (_has_relevant_results (RetrievalResult.chunks retrieval_result)) eqn:Hrel;
    cbn [negb].
  - apply has_relevant_results_spec in Hrel as (chunk & Hin & Hscore).
    match goal with |- context [_call_openai self query ?c false] => set (context := c) end.
    destruct (call_openai_succeeds self query context false env Hchat)
      as (env' & text & Hcall).
    eexists env', _. unfold mbind, IO_bind, IO.bind. rewrite Hcall.
    split; [reflexivity|]. cbn. split; [|done].
    intros Hnone. specialize (Hnone chunk Hin).
    unfold MIN_RELEVANCE_THRESHOLD in *. congruence.
  - unfold _generate_fallback_response.
    destruct (call_openai_succeeds self query (default "" selected_text) true env Hchat)
      as (env' & text & Hcall).
    eexists env', _. unfold mbind, IO_bind, IO.bind. rewrite Hcall.
    split; [reflexivity|]. cbn. split; [done|].
    intros Hsome. apply has_relevant_results_spec in Hsome. congruence.
Qed.

(** The sources of a grounded response are those of the chunks the context
    builder used. *)
Lemma generate_response_sources (self : ResponseGenerator.t) (query : string)
    (retrieval_result : RetrievalResult.t) (selected_text : option string)
    (env env' : IO.Env World) (r : GeneratedResponse.t) :
  _has_relevant_results (RetrievalResult.chunks retrieval_result) = true →
  generate_response self query retrieval_result selected_text env = (env', inr r) →
  GeneratedResponse.sources r
  = _extract_sources
      (BuiltContext.chunks_used
         (ContextBuilder.build_context (context_builder self)
            (RetrievalResult.chunks retrieval_result) selected_text)).
Proof.
  intros Hrel. unfold generate_response. rewrite Hrel. cbn [negb].
  unfold mbind, IO_bind, IO.bind.
  destruct (_call_openai _ _ _ _ _) as [env1 [e|text]]; [done|].
  by intros [= _ <-].
Qed.

End ResponseGeneratorFacts.

(** The theorem at the chunks of [test_has_relevant_results_true], with the
    mocked chat model: the response is not a fallback. *)
Lemma generate_response_fallback_threshold_witness :
  ∃ env' r,
    ResponseGenerator.generate_response (collaborators := mock_collaborators [] (fun _ => false))
      (ResponseGenerator.mk "gpt-4o-mini" 1024 0.7%float ContextBuilder.init_default)
      "What is motion planning?"
      (RetrievalResult.mk "What is motion planning?" "what is motion planning?"
         [create_mock_chunk "chunk-1" "motion-planning" "Introduction" 0.8%float;
          create_mock_chunk "chunk-1" "motion-planning" "Introduction" 0.6%float] 2)
      None start = (env', inr r)
    ∧ GeneratedResponse.is_fallback r = false.
Proof.
  destruct (generate_response_fallback_threshold
              (collaborators := mock_collaborators [] (fun _ => false))
              (ResponseGenerator.mk "gpt-4o-mini" 1024 0.7%float ContextBuilder.init_default)
              "What is motion planning?"
              (RetrievalResult.mk "What is motion planning?" "what is motion planning?"
                 [create_mock_chunk "chunk-1" "motion-planning" "Introduction" 0.8%float;
                  create_mock_chunk "chunk-1" "motion-planning" "Introduction" 0.6%float] 2)
              None start)
    as (env' & r & Hrun & _ & Hgrounded).
  - intros request. by exists 0%nat, (Some "This is a test response about robotics."), [].
  - exists env', r. split; [exact Hrun|]. apply Hgrounded.
    exists (create_mock_chunk "chunk-1" "motion-planning" "Introduction" 0.8%float).
    split; [set_solver|reflexivity].
Defined.

Section SourceFacts.
Import ResponseGenerator.

Lemma extract_sources_foldl (chunks : list RetrievedChunk.t) (seen : list string)
    (seen_chapters : gset string) (sources : list Source.t) :
  (∀ key, key ∈ seen_chapters ↔ key ∈ seen) →
  snd (foldl extract_step (seen_chapters, sources) chunks)
  = sources ++ (source_of <$> first_by_key seen chunks).
Proof.
  revert seen seen_chapters sources.
  induction chunks as [|chunk rest IH]; intros seen seen_chapters sources Hseen.
  - cbn. by rewrite app_nil_r.
  - cbn [foldl first_by_key]. unfold extract_step at 2.
    destruct (decide (source_key chunk ∉ seen_chapters)) as [Hnew|Hold].
    + rewrite decide_False by (by rewrite <- Hseen).
      rewrite (IH (source_key chunk :: seen)).
      * cbn. by rewrite <- app_assoc.
      * intros key. rewrite elem_of_union, elem_of_singleton, elem_of_cons, Hseen.
        tauto.
    + rewrite decide_True by (rewrite <- Hseen; by apply dec_stable).
      by apply IH.
Qed.

(** [_extract_sources] keeps, in order, the first chunk of each key, the key
    being the string [chapter_id:section_title]. *)
Lemma extract_sources_first_by_key (chunks : list RetrievedChunk.t) :
  _extract_sources chunks = source_of <$> first_by_key [] chunks.
Proof.
  unfold _extract_sources. rewrite (extract_sources_foldl chunks []); [done|].
  intros key. set_solver.
Qed.

(** The example of the specification: of two chunks of section [S] and one
    of section [T], all in chapter [A], two sources remain and the source of
    [(A, S)] has the score of the first. *)
Lemma extract_sources_example :
  _extract_sources
    [create_mock_chunk "1" "A" "S" 0.9%float;
     create_mock_chunk "2" "A" "S" 0.8%float;
     create_mock_chunk "3" "A" "T" 0.7%float]
  = [source_of (create_mock_chunk "1" "A" "S" 0.9%float);
     source_of (create_mock_chunk "3" "A" "T" 0.7%float)].
Proof. vm_compute. reflexivity. Qed.

(** [String.append] on a string that starts with a known character. *)
Lemma append_nil (s : string) : "" +:+ s = s.
Proof. reflexivity. Qed.

Lemma append_cons (a : ascii) (s1 s2 : string) : String a s1 +:+ s2 = String a (s1 +:+ s2).
Proof. reflexivity. Qed.

(** A colon in neither chapter: the keys are equal only when the chapters
    and the sections are. *)
Lemma key_app_inj (c1 c2 s1 s2 : string) :
  (∀ a, a ∈ list_ascii_of_string c1 → a ≠ ":"%char) →
  (∀ a, a ∈ list_ascii_of_string c2 → a ≠ ":"%char) →
  c1 +:+ ":" +:+ s1 = c2 +:+ ":" +:+ s2 → c1 = c2 ∧ s1 = s2.
Proof.
  revert c2. induction c1 as [|a c1 IH]; intros [|b c2] H1 H2 Heq;
    rewrite ?append_cons, ?append_nil in Heq; cbn in H1, H2.
  - by injection Heq as ->.
  - injection Heq as <- _. exfalso. apply (H2 ":"%char); [left|done].
  - injection Heq as -> _. exfalso. apply (H1 ":"%char); [left|done].
  - injection Heq as -> Heq. destruct (IH c2) as [-> ->]; [| |done|done].
    + intros a Ha. apply H1. by right.
    + intros a Ha. apply H2. by right.
Qed.

(** For chapters without a colon, two chunks have the same key exactly when
    they have the same chapter and the same section. *)
Lemma source_key_pair (c1 c2 : RetrievedChunk.t) :
  (∀ a, a ∈ list_ascii_of_string (RetrievedChunk.chapter_id c1) → a ≠ ":"%char) →
  (∀ a, a ∈ list_ascii_of_string (RetrievedChunk.chapter_id c2) → a ≠ ":"%char) →
  source_key c1 = source_key c2
  ↔ RetrievedChunk.chapter_id c1 = RetrievedChunk.chapter_id c2
    ∧ RetrievedChunk.section_title c1 = RetrievedChunk.section_title c2.
Proof.
  intros H1 H2. unfold source_key. split.
  - by apply key_app_inj.
  - by intros [-> ->].
Qed.

(** C6 at two chunks with different (chapter, section) pairs whose keys
    coincide: chapter [a:b], section [c], and chapter [a], section [b:c].
    The second is dropped, although no chunk of its chapter and section came
    before. *)
Theorem extract_sources_key_collision :
  _extract_sources
    [create_mock_chunk "1" "a:b" "c" 0.9%float;
     create_mock_chunk "2" "a" "b:c" 0.8%float]
  = [source_of (create_mock_chunk "1" "a:b" "c" 0.9%float)].
Proof. vm_compute. reflexivity. Qed.

End SourceFacts.

(** ** The retriever *)

Section RetrieverFacts.
Import VectorRetriever.
Context {World : Type} {collaborators : Collaborators World}.

Lemma search_calls_app (t1 t2 : list Event) :
  search_calls (t1 ++ t2) = search_calls t1 ++ search_calls t2.
Proof. unfold search_calls. apply omap_app. Qed.

Lemma to_chunks_converted (hits : list SearchHit.t) (chunks : list RetrievedChunk.t) :
  Forall (λ hit, is_Some (SearchHit.payload hit)) hits →
  to_chunks hits chunks = inr (chunks ++ converted hits).
Proof.
  intros Hall. revert chunks. induction Hall as [|hit rest [payload Hp] _ IH]; intros chunks.
  - cbn. by rewrite app_nil_r.
  - cbn [to_chunks]. unfold converted. cbn [omap list_omap]. unfold to_chunk.
    rewrite Hp. rewrite IH. cbn. by rewrite <- app_assoc.
Qed.

(** The trace of [retrieve_with_embedding]: one search, with the effective
    parameters. *)
Lemma retrieve_with_embedding_trace (self : VectorRetriever.t) (embedding : list float)
    (top_k : option Z) (score_threshold : option float) (env : IO.Env World) :
  search_calls (IO.trace (retrieve_with_embedding self embedding top_k score_threshold env).1)
  = search_calls (IO.trace env)
      ++ [(effective_top_k self top_k, effective_score_threshold self score_threshold)].
Proof.
  unfold retrieve_with_embedding, mbind, IO_bind, IO.bind, IO.call, lift.
  destruct (search _ _ _ _) as [w' [e|hits]]; cbn.
  - by rewrite search_calls_app.
  - destruct (to_chunks hits []); cbn; by rewrite search_calls_app.
Qed.

(** The trace of [retrieve]: when the query processor returns, one search
    with the effective parameters. *)
Lemma retrieve_trace (self : VectorRetriever.t) (query : string)
    (top_k : option Z) (score_threshold : option float) (env : IO.Env World) :
  search_calls (IO.trace (retrieve self query top_k score_threshold env).1)
  = search_calls (IO.trace env)
      ++ match (process_query query (IO.world env)).2 with
         | inr _ => [(effective_top_k self top_k,
                      effective_score_threshold self score_threshold)]
         | inl _ => []
         end.
Proof.
  unfold retrieve, mbind, IO_bind, IO.bind, IO.call, lift.
  destruct (process_query query (IO.world env)) as [w1 [e|pq]]; cbn.
  - rewrite search_calls_app. reflexivity.
  - destruct (search _ _ _ _) as [w2 [e|hits]]; cbn.
    + by rewrite !search_calls_app, <- app_assoc.
    + destruct (to_chunks hits []); cbn; by rewrite !search_calls_app, <- app_assoc.
Qed.

(** C9. A [top_k] of 0 behaves as if it were not given, and so does a
    [score_threshold] of 0.0, in [retrieve] and in
    [retrieve_with_embedding]; the search is
    made with the effective parameters, which for the default retriever are
    5 and 0.5 in that case and are never zero; a [top_k] above 20 is
    searched with 20. *)
Theorem retrieve_zero_is_unspecified (self : VectorRetriever.t) (query : string)
    (embedding : list float) (env : IO.Env World) :
  (∀ score_threshold,
     retrieve self query (Some 0) score_threshold env
     = retrieve self query None score_threshold env) ∧
  (∀ top_k,
     retrieve self query top_k (Some 0%float) env = retrieve self query top_k None env) ∧
  (∀ score_threshold,
     retrieve_with_embedding self embedding (Some 0) score_threshold env
     = retrieve_with_embedding self embedding None score_threshold env) ∧
  (∀ top_k,
     retrieve_with_embedding self embedding top_k (Some 0%float) env
     = retrieve_with_embedding self embedding top_k None env) ∧
  (∀ top_k score_threshold,
     search_calls (IO.trace (retrieve self query top_k score_threshold env).1)
     = search_calls (IO.trace env)
         ++ match (process_query query (IO.world env)).2 with
            | inr _ => [(effective_top_k self top_k,
                         effective_score_threshold self score_threshold)]
            | inl _ => []
            end) ∧
  (∀ top_k score_threshold,
     search_calls
       (IO.trace (retrieve_with_embedding self embedding top_k score_threshold env).1)
     = search_calls (IO.trace env)
         ++ [(effective_top_k self top_k, effective_score_threshold self score_threshold)]) ∧
  effective_top_k init_default (Some 0) = 5 ∧
  effective_score_threshold init_default (Some 0%float) = 0.5%float ∧
  (∀ top_k, effective_top_k init_default top_k ≠ 0) ∧
  (∀ score_threshold,
     PrimFloat.eqb (effective_score_threshold init_default score_threshold) 0%float = false) ∧
  (∀ top_k, 20 < top_k → effective_top_k self (Some top_k) = 20).
Proof.
  split_and!; try reflexivity.
  - intros. apply retrieve_trace.
  - intros. apply retrieve_with_embedding_trace.
  - intros top_k. unfold effective_top_k, top_k_or_default, MAX_TOP_K. cbn.
    unfold DEFAULT_TOP_K. destruct top_k as [k|]; [|lia].
    destruct (Z.eqb_spec k 0); lia.
  - intros [s|]; cbn; [|reflexivity]. unfold truthy_float.
    destruct (PrimFloat.eqb s 0) eqn:Hs; cbn; [reflexivity|done].
  - intros top_k Hk. unfold effective_top_k, top_k_or_default, MAX_TOP_K.
    destruct (Z.eqb_spec top_k 0); lia.
Qed.

(** C5, as stated, fails: asked for 10 chunks of a chapter, the retriever
    searches with a limit of 20, not of 30. *)
Lemma retrieve_by_chapter_overfetch_counterexample :
  search_calls
    (IO.trace (retrieve_by_chapter (collaborators := mock_collaborators [] (fun _ => false))
                 init_default "test query" "motion-planning" (Some 10) None start).1)
  = [(20, 0.5%float)]
  ∧ (20 =? 3 * 10) = false.
Proof. vm_compute. done. Qed.

(** C5, amended. With [k] the requested [top_k], or the default when it is
    not given or 0: when the query processor and the search return, and
    every hit has a payload, [retrieve_by_chapter] returns; it has made one
    search, whose limit is [3 * k] capped at 20; the chunks returned are
    the first [k] of the hits of the requested chapter, so all of them are in
    that chapter and, for [k >= 0], there are at most [k]. *)
Theorem retrieve_by_chapter_overfetch (self : VectorRetriever.t) (query chapter_id : string)
    (top_k : option Z) (score_threshold : option float) (env : IO.Env World)
    (w1 w2 : World) (pq : ProcessedQuery.t) (hits : list SearchHit.t) :
  let k := top_k_or_default self top_k in
  let limit := effective_top_k self (Some (k * 3)) in
  let threshold := effective_score_threshold self score_threshold in
  process_query query (IO.world env) = (w1, inr pq) →
  search (ProcessedQuery.embedding pq) limit threshold w1 = (w2, inr hits) →
  Forall (λ hit, is_Some (SearchHit.payload hit)) hits →
  ∃ r,
    retrieve_by_chapter self query chapter_id top_k score_threshold env
    = (IO.mk_env w2
         (IO.trace env ++ [EvProcessQuery query (inr pq)]
            ++ [EvSearch (ProcessedQuery.embedding pq) limit threshold (inr hits)]),
       inr r) ∧
    (k ≠ 0 → limit = Z.min (3 * k) 20) ∧
    RetrievalResult.chunks r
      = slice_to (filter (λ chunk, RetrievedChunk.chapter_id chunk = chapter_id)
                         (converted hits)) k ∧
    Forall (λ chunk, RetrievedChunk.chapter_id chunk = chapter_id)
           (RetrievalResult.chunks r) ∧
    (0 ≤ k → Z.of_nat (length (RetrievalResult.chunks r)) ≤ k) ∧
    RetrievalResult.total_found r = Z.of_nat (length (RetrievalResult.chunks r)).
Proof.
  intros k limit threshold Hpq Hsearch Hpayload.
  unfold retrieve_by_chapter, retrieve, mbind, IO_bind, IO.bind, IO.call, lift.
  fold k. fold limit. fold threshold.
  rewrite Hpq. cbn [IO.world IO.trace]. rewrite Hsearch.
  rewrite to_chunks_converted by done. cbn [app].
  unfold mret, IO_ret, IO.ret. cbn [RetrievalResult.chunks].
  eexists. split; [by rewrite <- app_assoc|].
  cbn [RetrievalResult.chunks RetrievalResult.total_found].
  assert (Hfilter :
    List.filter (λ chunk, String.eqb (RetrievedChunk.chapter_id chunk) chapter_id)
                (converted hits)
    = filter (λ chunk, RetrievedChunk.chapter_id chunk = chapter_id) (converted hits))
    by apply filter_eqb_chapter.
  rewrite Hfilter.
  set (matching := filter _ (converted hits)).
  assert (Hall : Forall (λ chunk, RetrievedChunk.chapter_id chunk = chapter_id) matching).
  { apply Forall_forall. intros chunk Hin. by apply list_elem_of_filter in Hin as [? _]. }
  split_and!.
  - intros Hk. subst limit. unfold effective_top_k, top_k_or_default.
    destruct (Z.eqb_spec (k * 3) 0); [lia|]. f_equal. lia.
  - done.
  - unfold slice_to. destruct (k >=? 0); by apply Forall_take.
  - intros Hk. unfold slice_to. replace (k >=? 0) with true by lia.
    rewrite length_take. lia.
  - done.
Qed.

End RetrieverFacts.

(** The theorem at that test: one chunk comes back, of the chapter asked
    for. *)
Lemma retrieve_by_chapter_overfetch_witness :
  ∃ r,
    (VectorRetriever.retrieve_by_chapter
       (collaborators := mock_collaborators mixed_hits (fun _ => false))
       VectorRetriever.init_default "test query" "motion-planning" None None start).2
    = inr r
    ∧ RetrievedChunk.id <$> RetrievalResult.chunks r = ["chunk-1"]
    ∧ Forall (λ chunk, RetrievedChunk.chapter_id chunk = "motion-planning")
             (RetrievalResult.chunks r).
Proof.
  destruct (retrieve_by_chapter_overfetch
              (collaborators := mock_collaborators mixed_hits (fun _ => false))
              VectorRetriever.init_default "test query" "motion-planning" None None start
              0%nat 0%nat (ProcessedQuery.mk "test query" "test query" [] [0.1%float])
              mixed_hits eq_refl eq_refl)
    as (r & Hrun & _ & Hchunks & Hall & _).
  - repeat constructor; by eexists.
  - exists r. rewrite Hrun. split; [reflexivity|]. split; [|exact Hall].
    rewrite Hchunks. reflexivity.
Defined.

(** ** The embedding client returns one result for each text *)

Section EmbeddingFacts.
Import EmbeddingService.
Context {World : Type} {collaborators : Collaborators World}.

Lemma batch_results_length (response : EmbeddingResponse.t) (n : Z) (i : nat)
    (rest : list string) (results : list EmbeddingResult.t) :
  batch_results response n i rest = inr results → length results = length rest.
Proof.
  revert i results. induction rest as [|text rest IH]; intros i results Hrun; cbn in Hrun.
  - by injection Hrun as <-.
  - destruct (EmbeddingResponse.data response !! i); [|done].
    destruct (batch_results response n (S i) rest) eqn:Hrest; [done|].
    injection Hrun as <-. cbn. f_equal. by eapply IH.
Qed.

Lemma process_batch_length (self : EmbeddingService.t) (texts : list string)
    (env env' : IO.Env World) (results : list EmbeddingResult.t) :
  _process_batch self texts env = (env', inr results) → length results = length texts.
Proof.
  unfold _process_batch, mbind, IO_bind, IO.bind, IO.call.
  destruct (embeddings_create _ _ _) as [w' [e|response]]; cbn; [done|].
  destruct (batch_results response _ 0 texts) eqn:Hres; cbn; [done|].
  intros [= _ <-]. by eapply batch_results_length.
Qed.

Lemma retry_loop_length (self : EmbeddingService.t) (texts : list string)
    (remaining : nat) (attempt : Z) (retry_delay : float)
    (env env' : IO.Env World) (results : list EmbeddingResult.t) :
  retry_loop self texts remaining attempt retry_delay env = (env', inr results) →
  length results = length texts.
Proof.
  revert attempt retry_delay env.
  induction remaining as [|remaining IH]; intros attempt retry_delay env; cbn [retry_loop].
  - done.
  - unfold IO.try_except.
    destruct (_process_batch self texts env) as [env1 [e|rs]] eqn:Hbatch.
    + destruct e as [retry_after msg|msg|cls msg]; [| |done].
      * destruct (attempt =? MAX_RETRIES - 1); [done|].
        unfold mbind, IO_bind, IO.bind, IO.call. cbn. apply IH.
      * destruct (attempt =? MAX_RETRIES - 1); [done|].
        unfold mbind, IO_bind, IO.bind, IO.call. cbn. apply IH.
    + intros [= _ <-]. by eapply process_batch_length.
Qed.

Lemma process_batches_length (self : EmbeddingService.t) (batches : list (list string))
    (all_results : list EmbeddingResult.t) (env env' : IO.Env World)
    (results : list EmbeddingResult.t) :
  process_batches self batches all_results env = (env', inr results) →
  length results = (length all_results + length (concat batches))%nat.
Proof.
  revert all_results env. induction batches as [|batch rest IH]; intros all_results env.
  - cbn. intros [= _ <-]. lia.
  - cbn [process_batches]. unfold mbind, IO_bind, IO.bind, _process_batch_with_retry.
    destruct (retry_loop _ _ _ _ _ env) as [env1 [e|rs]] eqn:Hretry; [done|].
    intros Hrest. apply IH in Hrest. apply retry_loop_length in Hretry.
    rewrite Hrest, length_app. cbn [concat]. rewrite length_app. lia.
Qed.

(** [generate_embeddings] raises or returns as many results as texts. *)
Lemma generate_embeddings_length (self : EmbeddingService.t) (texts : list string)
    (env env' : IO.Env World) (results : list EmbeddingResult.t) :
  generate_embeddings self texts env = (env', inr results) →
  length results = length texts.
Proof.
  unfold generate_embeddings. destruct texts as [|text rest].
  - by intros [= _ <-].
  - intros Hrun. apply process_batches_length in Hrun.
    by rewrite Hrun, create_batches_concat.
Qed.

End EmbeddingFacts.

(** ** The indexer *)

Section IndexerFacts.
Import QdrantIndexer.
Context {World : Type} {collaborators : Collaborators World}.

(** The upsert loop attempts every offset, whatever the outcomes, and the
    outcomes it records and counts are the answers of the store. *)
Lemma upsert_loop_spec (indexed_chunks : list IndexedChunk.t) (offsets : list nat)
    (st : counters) (env : IO.Env World) :
  ∃ env' st' runs,
    upsert_loop indexed_chunks offsets st env = (env', inr st') ∧
    runs.*1 = offsets ∧
    IO.trace env' = IO.trace env ++ upsert_events indexed_chunks runs ∧
    indexed_count st' = indexed_count st + indexed_size indexed_chunks runs ∧
    failed_count st' = failed_count st + failed_size indexed_chunks runs ∧
    errors st' = errors st ++ failure_messages runs ∧
    runs = (store_runs indexed_chunks offsets (IO.world env)).1 ∧
    IO.world env' = (store_runs indexed_chunks offsets (IO.world env)).2.
Proof.
  revert st env. induction offsets as [|i rest IH]; intros st env.
  - exists env, st, []. cbn. rewrite !app_nil_r. split_and!; (done || lia).
  - cbn [upsert_loop]. unfold mbind, IO_bind, IO.bind at 1.
    unfold upsert_step, IO.try_except, mbind, IO_bind, IO.bind, _upsert_batch, IO.call.
    fold (sub_batch indexed_chunks i). fold (points_of (sub_batch indexed_chunks i)).
    destruct (upsert_vectors (points_of (sub_batch indexed_chunks i)) (IO.world env))
      as [w' out] eqn:Hup.
    assert (Hstore : ∀ runs w'',
      runs = (store_runs indexed_chunks rest w').1 →
      w'' = (store_runs indexed_chunks rest w').2 →
      store_runs indexed_chunks (i :: rest) (IO.world env) = ((i, out) :: runs, w'')).
    { intros runs w'' -> ->. cbn [store_runs]. rewrite Hup.
      by destruct (store_runs indexed_chunks rest w'). }
    destruct out as [e|[]]; cbn -[store_runs].
    + match goal with |- context [upsert_loop indexed_chunks rest ?s ?e'] =>
        destruct (IH s e')
          as (env' & st' & runs & Hrun & Hoff & Htrace & Hi & Hf & He & Hruns & Hworld)
      end.
      exists env', st', ((i, inl e) :: runs).
      rewrite (Hstore runs (IO.world env') Hruns Hworld). clear Hstore Hruns Hworld.
      cbn in *.
      rewrite Hrun, Hoff, Htrace, Hi, Hf, He, <- !app_assoc. cbn.
      split_and!; (done || lia).
    + match goal with |- context [upsert_loop indexed_chunks rest ?s ?e'] =>
        destruct (IH s e')
          as (env' & st' & runs & Hrun & Hoff & Htrace & Hi & Hf & He & Hruns & Hworld)
      end.
      exists env', st', ((i, inr ()) :: runs).
      rewrite (Hstore runs (IO.world env') Hruns Hworld). clear Hstore Hruns Hworld.
      cbn in *.
      rewrite Hrun, Hoff, Htrace, Hi, Hf, He, <- !app_assoc. cbn.
      split_and!; (done || lia).
Qed.

(** The sub-batches at the offsets of [range] are the whole list. *)
Lemma sub_batches_concat (step m : nat) (l : list IndexedChunk.t) :
  (length l ≤ m * step)%nat →
  concat ((fun k => slice l (k * step) step) <$> seq 0 m) = l.
Proof.
  revert l. induction m as [|m IH]; intros l Hlen.
  - destruct l; [done|]. cbn in Hlen. lia.
  - cbn [seq]. rewrite <- fmap_S_seq, fmap_cons, <- list_fmap_compose. cbn [concat].
    transitivity (take step l ++ drop step l); [|apply take_drop].
    f_equal.
    rewrite <- (IH (drop step l)) by (rewrite length_drop; lia).
    f_equal. apply list_fmap_ext. intros _ k _. unfold slice, compose.
    rewrite drop_drop. do 2 f_equal; lia.
Qed.

Lemma sizes_total (indexed_chunks : list IndexedChunk.t) (runs : list (nat * (Exn + unit))) :
  indexed_size indexed_chunks runs + failed_size indexed_chunks runs
  = Z.of_nat (length (concat (sub_batch indexed_chunks <$> runs.*1))).
Proof.
  induction runs as [|[i [e|u]] rest IH]; cbn; [done|..];
    rewrite length_app; lia.
Qed.

Lemma prepare_indexed (chunks : list ContentChunk.t) (results : list EmbeddingResult.t) :
  (prepare chunks results).2 = zip_with indexed_chunk chunks results.
Proof.
  unfold prepare.
  assert (Hgen : ∀ pairs st,
    (foldl prepare_step st pairs).2
    = st.2 ++ ((fun '(chunk, r) => indexed_chunk chunk r) <$> pairs)).
  { induction pairs as [|[chunk r] rest IH]; intros [chapters acc]; cbn.
    - by rewrite app_nil_r.
    - rewrite IH. cbn. by rewrite <- app_assoc. }
  rewrite Hgen. cbn [snd app]. revert results.
  induction chunks as [|chunk rest IH]; intros [|r results]; cbn; try done.
  by rewrite IH.
Qed.

End IndexerFacts.

Section IndexerClaims.
Import QdrantIndexer.
Context {World : Type} {collaborators : Collaborators World}.

Lemma range_step_covers (l : list IndexedChunk.t) :
  concat (sub_batch l <$> range_step (length l) UPSERT_BATCH_SIZE) = l.
Proof.
  unfold range_step, sub_batch. rewrite <- list_fmap_compose.
  apply (sub_batches_concat UPSERT_BATCH_SIZE). unfold UPSERT_BATCH_SIZE.
  pose proof (Nat.div_mod_eq (length l + 100 - 1) 100) as Hdiv.
  pose proof (Nat.mod_upper_bound (length l + 100 - 1) 100) as Hmod. lia.
Qed.

(** C4. For a non-empty list of chunks, [index_chunks] always returns.
    When the embeddings cannot be generated, nothing is indexed, every chunk
    is counted as failed, no chapter is reported and one error is recorded.
    Otherwise the sub-batches of 100 prepared chunks are upserted one after
    the other, each of them whatever happened to the ones before: the
    outcomes [runs] are the answers of the store to these upserts, made in
    order from the world the embedding left, and the world afterwards is
    the one the store leaves.  The sub-batches whose upsert fails add their
    size to [failed_chunks] and a message to [errors], the others add their
    size to [indexed_chunks], and the two counts add up to
    [total_chunks]. *)
Theorem index_chunks_partial_failure (self : QdrantIndexer.t) (chunks : list ContentChunk.t)
    (env : IO.Env World) :
  chunks ≠ [] →
  let total := Z.of_nat (length chunks) in
  let attempt :=
    EmbeddingService.generate_embeddings (embedding_service self)
      (ContentChunk.content <$> chunks) env in
  match attempt.2 with
  | inl e =>
      index_chunks self chunks env
      = (attempt.1,
         inr (IndexingResult.mk total 0 total []
                ["Embedding generation failed: " +:+ str_of_exn e]))
  | inr embedding_results =>
      let indexed_chunks := zip_with indexed_chunk chunks embedding_results in
      ∃ env' r runs,
        index_chunks self chunks env = (env', inr r) ∧
        runs.*1 = range_step (length indexed_chunks) UPSERT_BATCH_SIZE ∧
        concat (sub_batch indexed_chunks <$> runs.*1) = indexed_chunks ∧
        IO.trace env' = IO.trace attempt.1 ++ upsert_events indexed_chunks runs ∧
        IndexingResult.total_chunks r = total ∧
        IndexingResult.indexed_chunks r = indexed_size indexed_chunks runs ∧
        IndexingResult.failed_chunks r = failed_size indexed_chunks runs ∧
        IndexingResult.errors r = failure_messages runs ∧
        IndexingResult.indexed_chunks r + IndexingResult.failed_chunks r
          = IndexingResult.total_chunks r ∧
        runs = (store_runs indexed_chunks
                  (range_step (length indexed_chunks) UPSERT_BATCH_SIZE)
                  (IO.world attempt.1)).1 ∧
        IO.world env' = (store_runs indexed_chunks
                           (range_step (length indexed_chunks) UPSERT_BATCH_SIZE)
                           (IO.world attempt.1)).2
  end.
Proof.
  intros Hne total attempt. subst attempt.
  destruct chunks as [|chunk0 rest]; [done|]. clear Hne.
  unfold index_chunks.
  set (chunks := chunk0 :: rest) in *.
  destruct (EmbeddingService.generate_embeddings _ _ env) as [env1 [e|results]] eqn:Hemb;
    cbn [fst snd];
    unfold mbind, IO_bind, IO.bind, IO.try_except; rewrite Hemb;
    unfold mret, IO_ret, IO.ret.
  - reflexivity.
  - cbn zeta.
    destruct (prepare chunks results) as [chapters indexed_chunks] eqn:Hprep.
    assert (Hics : indexed_chunks = zip_with indexed_chunk chunks results).
    { rewrite <- prepare_indexed, Hprep. done. }
    subst indexed_chunks. set (indexed_chunks := zip_with indexed_chunk chunks results).
    destruct (upsert_loop_spec indexed_chunks
                (range_step (length indexed_chunks) UPSERT_BATCH_SIZE)
                (mk_counters 0 0 []) env1)
      as (env' & st' & runs & Hrun & Hoff & Htrace & Hi & Hf & He & Hruns & Hworld).
    rewrite Hrun.
    eexists env', _, runs. split; [reflexivity|].
    cbn [IndexingResult.total_chunks IndexingResult.indexed_chunks
         IndexingResult.failed_chunks IndexingResult.errors].
    cbn [indexed_count failed_count errors app] in Hi, Hf, He.
    assert (Hcover : concat (sub_batch indexed_chunks <$> runs.*1) = indexed_chunks).
    { rewrite Hoff. apply range_step_covers. }
    split_and!; try (done || lia).
    transitivity (indexed_size indexed_chunks runs + failed_size indexed_chunks runs);
      [lia|].
    rewrite sizes_total, Hcover. subst indexed_chunks.
    rewrite length_zip_with.
    apply generate_embeddings_length in Hemb.
    rewrite length_fmap in Hemb. subst total. lia.
Qed.

End IndexerClaims.

(** The theorem at 150 chunks, with a store whose first upsert fails: the
    indexer returns; the second sub-batch, of 50 chunks, is indexed and the
    first, of 100, is counted as failed with its message; the store has
    been called twice. *)
Lemma index_chunks_partial_failure_witness :
  ∃ env' r,
    QdrantIndexer.index_chunks
      (collaborators := mock_collaborators [] (fun n => bool_decide (n = 0%nat)))
      (QdrantIndexer.mk (EmbeddingService.mk "text-embedding-3-small"))
      (sample_chunk <$> seq 0 150) start = (env', inr r)
    ∧ IndexingResult.indexed_chunks r + IndexingResult.failed_chunks r = 150
    ∧ IndexingResult.indexed_chunks r = 50
    ∧ IndexingResult.failed_chunks r = 100
    ∧ IndexingResult.errors r
      = ["Failed to upsert batch 1: Qdrant not connected. Call connect() first."]
    ∧ IO.world env' = 2%nat.
Proof.
  assert (Hne : sample_chunk <$> seq 0 150 ≠ []).
  { intros Hnil. apply (f_equal length) in Hnil.
    rewrite length_fmap, length_seq in Hnil. discriminate Hnil. }
  pose proof (index_chunks_partial_failure
                (collaborators := mock_collaborators [] (fun n => bool_decide (n = 0%nat)))
                (QdrantIndexer.mk (EmbeddingService.mk "text-embedding-3-small"))
                (sample_chunk <$> seq 0 150) start Hne) as Hrun.
  cbn zeta in Hrun.
  destruct (EmbeddingService.generate_embeddings _ _ start).2 as [e|results] eqn:Hemb.
  - vm_compute in Hemb. discriminate Hemb.
  - destruct Hrun
      as (env' & r & runs & Hrun & _ & _ & _ & Htotal & Hi & Hf & He & Hsum & Hruns & Hworld).
    vm_compute in Hemb. injection Hemb as Hresults. subst results.
    exists env', r. split; [exact Hrun|].
    rewrite Hsum, Htotal, Hi, Hf, He, Hworld, Hruns.
    split_and!; vm_compute; reflexivity.
Defined.

(** What that run returns. *)
Example index_chunks_first_batch_fails :
  (QdrantIndexer.index_chunks
     (collaborators := mock_collaborators [] (fun n => bool_decide (n = 0%nat)))
     (QdrantIndexer.mk (EmbeddingService.mk "text-embedding-3-small"))
     (sample_chunk <$> seq 0 150) start).2
  = inr (IndexingResult.mk 150 50 100 ["intro"]
           ["Failed to upsert batch 1: Qdrant not connected. Call connect() first."]).
Proof. vm_compute. reflexivity. Qed.

(** ** The chunk identifiers *)

Section ChunkerFacts.
Import ContentChunker.

Lemma foldl_invariant {A B} (I : A → Prop) (f : A → B → A) (l : list B) (a : A) :
  (∀ a b, I a → I (f a b)) → I a → I (foldl f a l).
Proof. intros Hstep. revert a. induction l as [|b l IH]; cbn; auto. Qed.

Lemma chunk_step_inv (self : ContentChunker.t) (parsed_content : ParsedContent.t)
    (section_title : string) (st : chunk_state) (chunk_text : string) :
  let md := ParsedContent.metadata parsed_content in
  let section_metadata :=
    ContentMetadata.mk (ContentMetadata.chapter_id md) (ContentMetadata.title md)
      section_title (ContentMetadata.page_url md) (ContentMetadata.sidebar_position md) in
  chunks_inv parsed_content st →
  chunks_inv parsed_content
    (chunk_step self parsed_content section_title section_metadata st chunk_text).
Proof.
  intros md section_metadata [Hids Hpos Hnext]. unfold chunk_step.
  destruct (estimate_tokens chunk_text <? min_chunk_size self); [done|].
  split; cbn [chunks position].
  - apply Forall_app. split; [done|]. apply Forall_singleton. reflexivity.
  - rewrite fmap_app, length_app, Hpos. cbn [length fmap list_fmap ContentChunk.position].
    rewrite Nat.add_1_r, seq_S, fmap_app, Hnext. done.
  - rewrite length_app, Hnext. cbn. lia.
Qed.

Lemma chunk_content_inv (self : ContentChunker.t) (parsed_content : ParsedContent.t) :
  chunks_inv parsed_content
    (foldl (section_step self parsed_content) (mk_chunks [] 0)
           (ParsedContent.sections parsed_content)).
Proof.
  apply foldl_invariant.
  - intros st [section_title section_content] Hinv. unfold section_step.
    apply foldl_invariant; [|done]. intros st' chunk_text. apply chunk_step_inv.
  - split; cbn; done.
Qed.

(** C3. The identifier of a chunk is the string of the version-5 UUID of
    [chapter_id:section_title:position] in the namespace
    6ba7b810-9dad-11d1-80b4-00c04fd430c8.  Every chunk [chunk_content] makes
    carries the identifier of its chapter, its section and its position, the
    positions count from 0 in order, and so chunking the same parsed content
    again gives the same identifiers in the same order. *)
Theorem chunk_ids_deterministic (self : ContentChunker.t) (parsed_content : ParsedContent.t) :
  let made := chunk_content self parsed_content in
  uuid.UUID "6ba7b810-9dad-11d1-80b4-00c04fd430c8" = Some namespace ∧
  (∀ chapter_id section_title position,
     _generate_chunk_id chapter_id section_title position
     = uuid.str (uuid.uuid5 namespace (chunk_name chapter_id section_title position))) ∧
  Forall (λ chunk,
    ContentChunk.id chunk
    = _generate_chunk_id
        (ContentMetadata.chapter_id (ParsedContent.metadata parsed_content))
        (ContentMetadata.section_title (ContentChunk.metadata chunk))
        (ContentChunk.position chunk)) made ∧
  ContentChunk.position <$> made = Z.of_nat <$> seq 0 (length made) ∧
  (∀ again, again = parsed_content →
     ContentChunk.id <$> chunk_content self again = ContentChunk.id <$> made).
Proof.
  destruct (chunk_content_inv self parsed_content) as [Hids Hpos _].
  split_and!.
  - vm_compute. reflexivity.
  - reflexivity.
  - exact Hids.
  - exact Hpos.
  - by intros again ->.
Qed.

(** The identifiers [uuid.uuid5] gives for three names. *)
Example generate_chunk_id_values :
  _generate_chunk_id "intro" "Overview" 0 = "d3cd619c-b8b7-5b8c-bd67-06221e86f33b" ∧
  _generate_chunk_id "motion-planning" "Introduction" 12
    = "6c83ca40-5fdb-5ea8-88bf-c18d1f80c0a2" ∧
  _generate_chunk_id (letters 70) (String (ascii_of_nat 233) "") 3
    = "065978ad-d19d-5bfc-8923-666450382c67".
Proof. vm_compute. repeat split. Qed.

End ChunkerFacts.

(** * Further properties *)

(** ** The context builder takes the longest prefix that fits *)

Section ContextBuilderMore.
Import ContextBuilder.

Lemma formatted_from_app (first : Z) (l1 l2 : list RetrievedChunk.t) :
  formatted_from first (l1 ++ l2)
  = formatted_from first l1 ++ formatted_from (first + Z.of_nat (length l1)) l2.
Proof.
  revert first. induction l1 as [|c l1 IH]; intros first; cbn [formatted_from app length].
  - by rewrite Z.add_0_r.
  - rewrite IH. do 3 f_equal. lia.
Qed.

Lemma parts_tokens_app (l1 l2 : list string) :
  parts_tokens (l1 ++ l2) = parts_tokens l1 + parts_tokens l2.
Proof. induction l1 as [|p l1 IH]; cbn [parts_tokens app]; lia. Qed.

(** The loop, with what it appends to the parts of the context and why it
    stops. *)
Lemma build_loop_layout (self : ContextBuilder.t) (chunks : list RetrievedChunk.t)
    (st : loop_state) :
  ∃ k : nat,
    used (build_loop self chunks st) = used st ++ take k chunks ∧
    context_parts (build_loop self chunks st)
      = context_parts st
          ++ formatted_from (Z.of_nat (length (used st)) + 1) (take k chunks) ∧
    current_tokens (build_loop self chunks st)
      = current_tokens st
          + parts_tokens (formatted_from (Z.of_nat (length (used st)) + 1) (take k chunks)) ∧
    (∀ chunk, chunks !! k = Some chunk →
       max_chunks self ≤ Z.of_nat (length (used st) + k)
       ∨ max_tokens self
           < current_tokens (build_loop self chunks st)
             + _estimate_tokens
                 (_format_chunk chunk (Z.of_nat (length (used st) + k) + 1))).
Proof.
  revert st. induction chunks as [|chunk rest IH]; intros st.
  - exists 0%nat. cbn. rewrite !app_nil_r. split_and!; (done || lia).
  - cbn [build_loop].
    destruct (Z.of_nat (length (used st)) >=? max_chunks self) eqn:Hcount.
    { exists 0%nat. cbn. rewrite !app_nil_r, Nat.add_0_r.
      split_and!; (done || lia). }
    set (formatted := _format_chunk chunk (Z.of_nat (length (used st)) + 1)).
    destruct (current_tokens st + _estimate_tokens formatted >? max_tokens self) eqn:Htok.
    { exists 0%nat. cbn. rewrite !app_nil_r, Nat.add_0_r.
      split_and!; try (done || lia). intros c [= <-]. right. fold formatted. lia. }
    match goal with |- context [build_loop self rest ?s] => set (st2 := s) end.
    destruct (IH st2) as (k & Hused & Hparts & Htokens & Hstop).
    assert (Hlen2 : length (used st2) = S (length (used st))).
    { subst st2. cbn. rewrite length_app. cbn. lia. }
    exists (S k). cbn [take lookup list_lookup formatted_from parts_tokens].
    split_and!.
    + rewrite Hused. subst st2. cbn. by rewrite <- app_assoc.
    + rewrite Hparts, Hlen2. subst st2. cbn [context_parts]. rewrite <- app_assoc.
      cbn [app]. do 3 f_equal. lia.
    + rewrite Htokens, Hlen2. subst st2. cbn [current_tokens]. fold formatted.
      replace (Z.of_nat (S (length (used st))) + 1)
        with (Z.of_nat (length (used st)) + 1 + 1) by lia. lia.
    + intros c Hc. specialize (Hstop c Hc). rewrite Hlen2 in Hstop.
      replace (length (used st) + S k)%nat with (S (length (used st)) + k)%nat by lia.
      done.
Qed.

(** With larger budgets the loop goes at least as far. *)
Lemma build_loop_monotone (self self' : ContextBuilder.t) (chunks : list RetrievedChunk.t)
    (st : loop_state) :
  max_tokens self ≤ max_tokens self' →
  max_chunks self ≤ max_chunks self' →
  used (build_loop self chunks st) `prefix_of` used (build_loop self' chunks st).
Proof.
  intros Htokens Hchunks. revert st. induction chunks as [|chunk rest IH]; intros st.
  - done.
  - destruct (build_loop_layout self' (chunk :: rest) st) as (k' & Hused' & _).
    assert (Hbase : used st `prefix_of` used (build_loop self' (chunk :: rest) st)).
    { rewrite Hused'. by apply prefix_app_r. }
    clear Hused'. cbn [build_loop] in Hbase |- *.
    destruct (Z.of_nat (length (used st)) >=? max_chunks self) eqn:Hcount; [done|].
    set (formatted := _format_chunk chunk (Z.of_nat (length (used st)) + 1)) in *.
    destruct (current_tokens st + _estimate_tokens formatted >? max_tokens self) eqn:Htok;
      [done|].
    replace (Z.of_nat (length (used st)) >=? max_chunks self') with false by lia.
    replace (current_tokens st + _estimate_tokens formatted >? max_tokens self')
      with false by lia.
    apply IH.
Qed.

(** X1. On a non-empty list, [build_context] uses the first [k] chunks for
    some [k]; the text of the context is the selected-text block (when
    there is one), the header and these chunks, numbered from 1, joined by
    newlines; the estimate is the sum of the estimates of these parts; and
    when a chunk is left, it is because [k] has reached [max_chunks] or
    because the next chunk, formatted with number [k + 1], would take the
    estimate above [max_tokens]. *)
Theorem build_context_greedy (self : ContextBuilder.t) (chunks : list RetrievedChunk.t)
    (selected_text : option string) :
  chunks ≠ [] →
  let r := build_context self chunks selected_text in
  ∃ k : nat,
    BuiltContext.chunks_used r = take k chunks ∧
    BuiltContext.context_text r
      = join NL (context_parts (preamble selected_text)
                   ++ formatted_from 1 (take k chunks)) ∧
    BuiltContext.total_tokens_estimate r
      = parts_tokens (context_parts (preamble selected_text)
                        ++ formatted_from 1 (take k chunks)) ∧
    (∀ chunk, chunks !! k = Some chunk →
       max_chunks self ≤ Z.of_nat k
       ∨ max_tokens self
           < BuiltContext.total_tokens_estimate r
             + _estimate_tokens (_format_chunk chunk (Z.of_nat k + 1))).
Proof.
  intros Hne r. subst r. destruct chunks as [|c rest]; [done|].
  unfold build_context.
  destruct (build_loop_layout self (c :: rest) (preamble selected_text))
    as (k & Hused & Hparts & Htokens & Hstop).
  rewrite preamble_used in *. cbn [length app Nat.add Z.of_nat Z.add] in *.
  exists k.
  cbn [BuiltContext.chunks_used BuiltContext.context_text
       BuiltContext.total_tokens_estimate].
  split_and!; try done.
  - by rewrite Hparts.
  - rewrite Htokens, parts_tokens_app. f_equal.
    unfold preamble. destruct (truthy_str selected_text); cbn; lia.
Qed.

(** The theorem at the three chunks of [test_build_context_multiple_chunks]
    with room for two. *)
Lemma build_context_greedy_witness :
  ∃ k : nat,
    BuiltContext.chunks_used
      (build_context (ContextBuilder.mk 1000 2)
         [create_mock_chunk "1" "motion-planning" "Introduction" 0.95%float;
          create_mock_chunk "2" "motion-planning" "Algorithms" 0.85%float;
          create_mock_chunk "3" "motion-planning" "Examples" 0.75%float] None)
    = take k
        [create_mock_chunk "1" "motion-planning" "Introduction" 0.95%float;
         create_mock_chunk "2" "motion-planning" "Algorithms" 0.85%float;
         create_mock_chunk "3" "motion-planning" "Examples" 0.75%float].
Proof.
  destruct (build_context_greedy (ContextBuilder.mk 1000 2)
              [create_mock_chunk "1" "motion-planning" "Introduction" 0.95%float;
               create_mock_chunk "2" "motion-planning" "Algorithms" 0.85%float;
               create_mock_chunk "3" "motion-planning" "Examples" 0.75%float] None
              ltac:(done)) as (k & Hused & _).
  exists k. exact Hused.
Defined.

(** X2. A builder with budgets at least as large uses at least the same
    chunks: what the smaller builder uses is a prefix of what the larger
    one uses. *)
Theorem build_context_monotone (self self' : ContextBuilder.t)
    (chunks : list RetrievedChunk.t) (selected_text : option string) :
  max_tokens self ≤ max_tokens self' →
  max_chunks self ≤ max_chunks self' →
  BuiltContext.chunks_used (build_context self chunks selected_text)
    `prefix_of` BuiltContext.chunks_used (build_context self' chunks selected_text).
Proof.
  intros Htokens Hchunks. destruct chunks as [|c rest]; [done|].
  unfold build_context. cbn [BuiltContext.chunks_used].
  by apply build_loop_monotone.
Qed.

(** The theorem at the builders of two tests, [(100, 10)] and [(1000, 10)]. *)
Lemma build_context_monotone_witness :
  BuiltContext.chunks_used
    (build_context (ContextBuilder.mk 100 10)
       [create_mock_chunk "1" "motion-planning" "Introduction" 0.95%float;
        create_mock_chunk "2" "motion-planning" "Algorithms" 0.85%float] None)
    `prefix_of`
  BuiltContext.chunks_used
    (build_context (ContextBuilder.mk 1000 10)
       [create_mock_chunk "1" "motion-planning" "Introduction" 0.95%float;
        create_mock_chunk "2" "motion-planning" "Algorithms" 0.85%float] None).
Proof.
  apply (build_context_monotone (ContextBuilder.mk 100 10) (ContextBuilder.mk 1000 10));
    cbn; lia.
Defined.

End ContextBuilderMore.

(** ** The embedding client: order of the results, and retries *)

Section EmbeddingMore.
Import EmbeddingService.
Context {World : Type} {collaborators : Collaborators World}.

Lemma batch_results_texts (response : EmbeddingResponse.t) (n : Z) (i : nat)
    (rest : list string) (results : list EmbeddingResult.t) :
  batch_results response n i rest = inr results → EmbeddingResult.text <$> results = rest.
Proof.
  revert i results. induction rest as [|text rest IH]; intros i results Hrun; cbn in Hrun.
  - by injection Hrun as <-.
  - destruct (EmbeddingResponse.data response !! i); [|done].
    destruct (batch_results response n (S i) rest) eqn:Hrest; [done|].
    injection Hrun as <-. cbn. f_equal. by eapply IH.
Qed.

Lemma process_batch_texts (self : EmbeddingService.t) (texts : list string)
    (env env' : IO.Env World) (results : list EmbeddingResult.t) :
  _process_batch self texts env = (env', inr results) →
  EmbeddingResult.text <$> results = texts.
Proof.
  unfold _process_batch, mbind, IO_bind, IO.bind, IO.call.
  destruct (embeddings_create _ _ _) as [w' [e|response]]; cbn; [done|].
  destruct (batch_results response _ 0 texts) eqn:Hres; cbn; [done|].
  intros [= _ <-]. by eapply batch_results_texts.
Qed.

Lemma retry_loop_texts (self : EmbeddingService.t) (texts : list string)
    (remaining : nat) (attempt : Z) (retry_delay : float)
    (env env' : IO.Env World) (results : list EmbeddingResult.t) :
  retry_loop self texts remaining attempt retry_delay env = (env', inr results) →
  EmbeddingResult.text <$> results = texts.
Proof.
  revert attempt retry_delay env.
  induction remaining as [|remaining IH]; intros attempt retry_delay env; cbn [retry_loop].
  - done.
  - unfold IO.try_except.
    destruct (_process_batch self texts env) as [env1 [e|rs]] eqn:Hbatch.
    + destruct e as [retry_after msg|msg|cls msg]; [| |done].
      * destruct (attempt =? MAX_RETRIES - 1); [done|].
        unfold mbind, IO_bind, IO.bind, IO.call. cbn. apply IH.
      * destruct (attempt =? MAX_RETRIES - 1); [done|].
        unfold mbind, IO_bind, IO.bind, IO.call. cbn. apply IH.
    + intros [= _ <-]. by eapply process_batch_texts.
Qed.

Lemma process_batches_texts (self : EmbeddingService.t) (batches : list (list string))
    (all_results : list EmbeddingResult.t) (env env' : IO.Env World)
    (results : list EmbeddingResult.t) :
  process_batches self batches all_results env = (env', inr results) →
  EmbeddingResult.text <$> results
  = (EmbeddingResult.text <$> all_results) ++ concat batches.
Proof.
  revert all_results env. induction batches as [|batch rest IH]; intros all_results env.
  - cbn. intros [= _ <-]. by rewrite app_nil_r.
  - cbn [process_batches]. unfold mbind, IO_bind, IO.bind, _process_batch_with_retry.
    destruct (retry_loop _ _ _ _ _ env) as [env1 [e|rs]] eqn:Hretry; [done|].
    intros Hrest. apply IH in Hrest. apply retry_loop_texts in Hretry.
    rewrite Hrest, fmap_app, Hretry. cbn [concat]. by rewrite <- app_assoc.
Qed.

(** X3. When [generate_embeddings] returns, it returns one result for each
    text, in the order of the texts, each result carrying its text. *)
Theorem generate_embeddings_in_order (self : EmbeddingService.t) (texts : list string)
    (env env' : IO.Env World) (results : list EmbeddingResult.t) :
  generate_embeddings self texts env = (env', inr results) →
  EmbeddingResult.text <$> results = texts.
Proof.
  unfold generate_embeddings. destruct texts as [|text rest].
  - by intros [= _ <-].
  - intros Hrun. apply process_batches_texts in Hrun.
    by rewrite Hrun, create_batches_concat.
Qed.

Lemma embed_calls_app (t1 t2 : list Event) :
  embed_calls (t1 ++ t2) = embed_calls t1 ++ embed_calls t2.
Proof. apply omap_app. Qed.

Lemma sleeps_app (t1 t2 : list Event) : sleeps (t1 ++ t2) = sleeps t1 ++ sleeps t2.
Proof. apply omap_app. Qed.

(** An answer that is too short raises an error that is not tried again
    after. *)
Lemma batch_results_error (response : EmbeddingResponse.t) (n : Z) (i : nat)
    (rest : list string) (e : Exn) :
  batch_results response n i rest = inl e →
  retryable (inl e : Exn + list EmbeddingResult.t) = false.
Proof.
  revert i. induction rest as [|t rest IH]; intros i; cbn; [done|].
  destruct (EmbeddingResponse.data response !! i); [|by intros [= <-]].
  destruct (batch_results response n (S i) rest) eqn:Hrest; [|done].
  intros [= <-]. by eapply IH.
Qed.

(** One attempt: one call of the endpoint, and an outcome that is tried
    again after exactly when the call's is. *)
Lemma process_batch_call (self : EmbeddingService.t) (texts : list string)
    (env : IO.Env World) :
  ∃ out,
    IO.trace (_process_batch self texts env).1
      = IO.trace env ++ [EvEmbed (model self) texts out] ∧
    retryable (_process_batch self texts env).2 = retryable out ∧
    (∀ e, (_process_batch self texts env).2 = inl e → retryable out = true →
          out = inl e).
Proof.
  unfold _process_batch, mbind, IO_bind, IO.bind, IO.call.
  destruct (embeddings_create _ _ _) as [w' [e|response]]; cbn.
  - exists (inl e). split_and!; try done. by intros e' [= ->].
  - exists (inr response).
    destruct (batch_results response _ 0 texts) as [e|rs] eqn:Hres; cbn; [|done].
    split_and!; try done. by apply batch_results_error in Hres.
Qed.

(** The retry loop from attempt [MAX_RETRIES - remaining] on. *)
Lemma retry_loop_calls (self : EmbeddingService.t) (texts : list string)
    (remaining : nat) (attempt : Z) (retry_delay : float) (env : IO.Env World) :
  attempt = MAX_RETRIES - Z.of_nat remaining →
  (1 ≤ remaining)%nat →
  ∃ new,
    IO.trace (retry_loop self texts remaining attempt retry_delay env).1
      = IO.trace env ++ new ∧
    (1 ≤ length (embed_calls new) ≤ remaining)%nat ∧
    length (sleeps new) = (length (embed_calls new) - 1)%nat ∧
    Forall (λ call, call.1 = (model self, texts)) (embed_calls new) ∧
    (retryable (retry_loop self texts remaining attempt retry_delay env).2 = true →
     length (embed_calls new) = remaining
     ∧ Forall (λ call, retryable call.2 = true) (embed_calls new)) ∧
    (Forall (λ call, suggests_wait call.2 = false) (embed_calls new) →
     sleeps new `prefix_of` backoff (remaining - 1) retry_delay).
Proof.
  revert attempt retry_delay env.
  induction remaining as [|remaining IH]; intros attempt retry_delay env Hattempt Hpos;
    [lia|].
  cbn [retry_loop]. unfold IO.try_except.
  destruct (process_batch_call self texts env) as (out & Htrace & Hretry & Hsame).
  destruct (_process_batch self texts env) as [env1 [e|rs]] eqn:Hbatch;
    cbn [fst snd] in Htrace, Hretry, Hsame.
  - assert (Hlast : (attempt =? MAX_RETRIES - 1) = bool_decide (remaining = 0%nat)).
    { unfold MAX_RETRIES in *. case_bool_decide; lia. }
    assert (Hstop :
      ∃ new, IO.trace env1 = IO.trace env ++ new ∧
        (1 ≤ length (embed_calls new) ≤ S remaining)%nat ∧
        length (sleeps new) = (length (embed_calls new) - 1)%nat ∧
        Forall (λ call, call.1 = (model self, texts)) (embed_calls new) ∧
        (retryable (inl e : Exn + list EmbeddingResult.t) = true →
         remaining = 0%nat →
         length (embed_calls new) = S remaining
         ∧ Forall (λ call, retryable call.2 = true) (embed_calls new)) ∧
        (Forall (λ call, suggests_wait call.2 = false) (embed_calls new) →
         sleeps new `prefix_of` backoff (S remaining - 1) retry_delay)).
    { exists [EvEmbed (model self) texts out]. cbn.
      split_and!; try done; try lia.
      - by repeat constructor.
      - intros Hr ->. split; [done|]. repeat constructor. cbn. by rewrite <- Hretry.
      - intros _. apply prefix_nil. }
    destruct e as [retry_after msg|msg|cls msg].
    + rewrite Hlast. case_bool_decide as Hzero.
      { destruct Hstop as (new & ? & ? & ? & ? & Hr & ?). exists new. cbn [fst snd].
        split_and!; try done; try lia. intros Hre. by apply Hr. }
      unfold mbind, IO_bind, IO.bind, IO.call. cbn [IO.world IO.trace fst snd].
      match goal with |- context [retry_loop self texts remaining ?a ?d ?e1] =>
        destruct (IH a d e1) as (new & Ht & Hcount & Hsleeps & Hargs & Hgive & Hback);
          [lia|lia|]; set (rest := retry_loop self texts remaining a d e1) in * end.
      cbn [IO.trace] in Ht. rewrite Htrace in Ht.
      exists ([EvEmbed (model self) texts out]
              ++ [EvSleep (wait_time retry_after retry_delay)] ++ new).
      rewrite Ht, <- !app_assoc. rewrite !embed_calls_app, !sleeps_app. cbn.
      split_and!; try done; try lia.
      * constructor; [done|]. done.
      * intros Hre. destruct (Hgive Hre) as [Hn Hall]. split; [lia|].
        constructor; [|done]. cbn. rewrite <- Hretry. done.
      * intros Hno. inversion Hno as [|? ? Hfirst Hrest]; subst.
        specialize (Hback Hrest).
        assert (Hsame' : out = inl (RateLimitError retry_after msg)).
        { apply Hsame; [done|]. by rewrite <- Hretry. }
        subst out. cbn in Hfirst. destruct retry_after; [done|]. cbn [wait_time].
        destruct remaining as [|remaining']; [done|].
        cbn [Nat.sub] in Hback |- *. rewrite ?Nat.sub_0_r in Hback.
        cbn [backoff]. by apply prefix_cons.
    + rewrite Hlast. case_bool_decide as Hzero.
      { destruct Hstop as (new & ? & ? & ? & ? & Hr & ?). exists new. cbn [fst snd].
        split_and!; try done; try lia. intros Hre. by apply Hr. }
      unfold mbind, IO_bind, IO.bind, IO.call. cbn [IO.world IO.trace fst snd].
      match goal with |- context [retry_loop self texts remaining ?a ?d ?e1] =>
        destruct (IH a d e1) as (new & Ht & Hcount & Hsleeps & Hargs & Hgive & Hback);
          [lia|lia|]; set (rest := retry_loop self texts remaining a d e1) in * end.
      cbn [IO.trace] in Ht. rewrite Htrace in Ht.
      exists ([EvEmbed (model self) texts out] ++ [EvSleep retry_delay] ++ new).
      rewrite Ht, <- !app_assoc. rewrite !embed_calls_app, !sleeps_app. cbn.
      split_and!; try done; try lia.
      * constructor; [done|]. done.
      * intros Hre. destruct (Hgive Hre) as [Hn Hall]. split; [lia|].
        constructor; [|done]. cbn. rewrite <- Hretry. done.
      * intros Hno. inversion Hno as [|? ? Hfirst Hrest]; subst.
        specialize (Hback Hrest).
        destruct remaining as [|remaining']; [done|].
        cbn [Nat.sub] in Hback |- *. rewrite ?Nat.sub_0_r in Hback.
        cbn [backoff]. by apply prefix_cons.
    + destruct Hstop as (new & ? & ? & ? & ? & Hr & ?). exists new. cbn [fst snd].
      split_and!; try done; lia.
  - exists [EvEmbed (model self) texts out]. cbn. split_and!; try done; try lia.
    + by repeat constructor.
    + intros _. apply prefix_nil.
Qed.

(** One attempt records one call, with what the endpoint answers in the
    world of the attempt. *)
Lemma process_batch_trace (self : EmbeddingService.t) (texts : list string)
    (env : IO.Env World) :
  IO.trace (_process_batch self texts env).1
  = IO.trace env
    ++ [EvEmbed (model self) texts
          (embeddings_create (model self) texts (IO.world env)).2].
Proof.
  unfold _process_batch, mbind, IO_bind, IO.bind, IO.call.
  destruct (embeddings_create _ _ _) as [w' [e|response]]; cbn; [done|].
  by destruct (batch_results response _ 0 texts).
Qed.

(** The events of the retry loop: calls of the endpoint with one sleep
    between two of them, the first call being made in the world the loop
    starts in. *)
Lemma retry_loop_alternates (self : EmbeddingService.t) (texts : list string)
    (remaining : nat) (attempt : Z) (retry_delay : float) (env : IO.Env World) :
  ∃ new,
    IO.trace (retry_loop self texts remaining attempt retry_delay env).1
      = IO.trace env ++ new ∧
    new = interleave (event_of_call <$> embed_calls new) (EvSleep <$> sleeps new) ∧
    ((1 ≤ remaining)%nat →
     head new
     = Some (EvEmbed (model self) texts
               (embeddings_create (model self) texts (IO.world env)).2)).
Proof.
  revert attempt retry_delay env.
  induction remaining as [|remaining IH]; intros attempt retry_delay env.
  { exists []. cbn. rewrite app_nil_r. split_and!; [done..|lia]. }
  cbn [retry_loop]. unfold IO.try_except.
  pose proof (process_batch_trace self texts env) as Htrace.
  set (out := (embeddings_create (model self) texts (IO.world env)).2) in *.
  assert (Hone : ∃ new,
    IO.trace (_process_batch self texts env).1 = IO.trace env ++ new ∧
    new = interleave (event_of_call <$> embed_calls new) (EvSleep <$> sleeps new) ∧
    ((1 ≤ S remaining)%nat → head new = Some (EvEmbed (model self) texts out))).
  { exists [EvEmbed (model self) texts out]. done. }
  assert (Hmore : ∀ delay new,
    new = interleave (event_of_call <$> embed_calls new) (EvSleep <$> sleeps new) →
    let new' := [EvEmbed (model self) texts out] ++ [EvSleep delay] ++ new in
    new' = interleave (event_of_call <$> embed_calls new') (EvSleep <$> sleeps new') ∧
    ((1 ≤ S remaining)%nat → head new' = Some (EvEmbed (model self) texts out))).
  { intros delay new Hshape. cbn. split; [|done]. do 2 f_equal. exact Hshape. }
  destruct (_process_batch self texts env) as [env1 [e|rs]] eqn:Hbatch;
    cbn [fst snd] in Htrace, Hone; [|exact Hone].
  assert (Hsleep : ∀ delay,
    ∃ new,
      IO.trace
        ((IO.call (fun w => (asyncio_sleep delay w, inr ())) (fun _ => EvSleep delay);;
          retry_loop self texts remaining (attempt + 1)
            (min_float (retry_delay * 2)%float MAX_RETRY_DELAY)) env1).1
        = IO.trace env ++ new ∧
      new = interleave (event_of_call <$> embed_calls new) (EvSleep <$> sleeps new) ∧
      ((1 ≤ S remaining)%nat → head new = Some (EvEmbed (model self) texts out))).
  { intros delay. unfold mbind, IO_bind, IO.bind, IO.call. cbn [IO.world IO.trace fst snd].
    match goal with |- context [retry_loop self texts remaining ?a ?d ?e1] =>
      destruct (IH a d e1) as (new & Ht & Hshape & Hhead) end.
    cbn [IO.trace] in Ht.
    exists ([EvEmbed (model self) texts out] ++ [EvSleep delay] ++ new).
    split; [by rewrite Ht, Htrace, <- !app_assoc|].
    by apply Hmore. }
  destruct e as [retry_after msg|msg|cls msg].
  - destruct (attempt =? MAX_RETRIES - 1); [exact Hone|apply Hsleep].
  - destruct (attempt =? MAX_RETRIES - 1); [exact Hone|apply Hsleep].
  - exact Hone.
Qed.

(** X4. [_process_batch_with_retry] calls the endpoint at least once and at
    most three times, always with its own model and batch, the first time
    in the world it starts in, and sleeps once between two calls: the
    events it adds are the calls with the sleeps between them.  It gives up
    with a rate-limit or API error only after three calls, each of which
    failed with such an error.  When no rate-limit error says how long to
    wait, the sleeps are 1 second and then 2 seconds. *)
Theorem process_batch_with_retry_calls (self : EmbeddingService.t) (texts : list string)
    (env : IO.Env World) :
  ∃ new,
    IO.trace (_process_batch_with_retry self texts env).1 = IO.trace env ++ new ∧
    (1 ≤ length (embed_calls new) ≤ 3)%nat ∧
    length (sleeps new) = (length (embed_calls new) - 1)%nat ∧
    Forall (λ call, call.1 = (model self, texts)) (embed_calls new) ∧
    (retryable (_process_batch_with_retry self texts env).2 = true →
     length (embed_calls new) = 3%nat
     ∧ Forall (λ call, retryable call.2 = true) (embed_calls new)) ∧
    (Forall (λ call, suggests_wait call.2 = false) (embed_calls new) →
     sleeps new `prefix_of` [1%float; 2%float]) ∧
    new = interleave (event_of_call <$> embed_calls new) (EvSleep <$> sleeps new) ∧
    head new
    = Some (EvEmbed (model self) texts
              (embeddings_create (model self) texts (IO.world env)).2).
Proof.
  unfold _process_batch_with_retry.
  destruct (retry_loop_calls self texts (Z.to_nat MAX_RETRIES) 0 INITIAL_RETRY_DELAY env)
    as (new & Htrace & Hcount & Hsleeps & Hargs & Hgive & Hback);
    [reflexivity|unfold MAX_RETRIES; lia|].
  destruct (retry_loop_alternates self texts (Z.to_nat MAX_RETRIES) 0
              INITIAL_RETRY_DELAY env) as (new' & Htrace' & Hshape & Hhead).
  assert (new' = new) as ->.
  { rewrite Htrace in Htrace'. by apply app_inv_head in Htrace'. }
  replace (backoff _ _) with [1%float; 2%float] in Hback by (vm_compute; reflexivity).
  exists new. unfold MAX_RETRIES in *. split_and!; try done; try lia.
  apply Hhead. cbn. lia.
Qed.

End EmbeddingMore.

(** The theorem at two texts, with the mocked provider. *)
Lemma generate_embeddings_in_order_witness :
  EmbeddingResult.text
    <$> [EmbeddingResult.mk "What is a robot?" [0.1%float] 1;
         EmbeddingResult.mk "Sensors and perception" [0.1%float] 1]
  = ["What is a robot?"; "Sensors and perception"].
Proof.
  apply (generate_embeddings_in_order
           (collaborators := mock_collaborators [] (fun _ => false))
           (EmbeddingService.mk "text-embedding-3-small")
           ["What is a robot?"; "Sensors and perception"] start
           (IO.mk_env 0%nat
              [EvEmbed "text-embedding-3-small"
                 ["What is a robot?"; "Sensors and perception"]
                 (inr (EmbeddingResponse.mk [[0.1%float]; [0.1%float]] 2 2))])).
  vm_compute. reflexivity.
Defined.

(** ** The chunker: what every chunk satisfies, and the overlap *)

Section ChunkerMore.
Import ContentChunker.

Lemma foldl_invariant_in {A B} (I : A → Prop) (f : A → B → A) (l : list B) (a : A) :
  (∀ a b, b ∈ l → I a → I (f a b)) → I a → I (foldl f a l).
Proof.
  revert a. induction l as [|b l IH]; intros a Hstep Ha; cbn; [done|].
  apply IH.
  - intros a' b' Hin. apply Hstep. by right.
  - apply Hstep; [by left|done].
Qed.

(** X5. Every chunk [chunk_content] makes has an estimate of at least
    [min_chunk_size], which is the estimate of its own text; it carries the
    chapter, title and URL of the document and the title of a section of
    the document, and its text is one of the pieces [_split_text] cuts that
    section into. *)
Theorem chunk_content_floor (self : ContentChunker.t) (parsed_content : ParsedContent.t) :
  Forall (λ chunk,
    min_chunk_size self ≤ ContentChunk.token_count chunk ∧
    ContentChunk.token_count chunk = estimate_tokens (ContentChunk.content chunk) ∧
    ContentMetadata.chapter_id (ContentChunk.metadata chunk)
      = ContentMetadata.chapter_id (ParsedContent.metadata parsed_content) ∧
    ContentMetadata.title (ContentChunk.metadata chunk)
      = ContentMetadata.title (ParsedContent.metadata parsed_content) ∧
    ContentMetadata.page_url (ContentChunk.metadata chunk)
      = ContentMetadata.page_url (ParsedContent.metadata parsed_content) ∧
    ∃ section_content,
      (ContentMetadata.section_title (ContentChunk.metadata chunk), section_content)
        ∈ ParsedContent.sections parsed_content ∧
      ContentChunk.content chunk ∈ _split_text self section_content)
    (chunk_content self parsed_content).
Proof.
  unfold chunk_content.
  apply (foldl_invariant_in (λ st, Forall _ (chunks st))); [|by constructor].
  intros st [section_title section_content] Hsection Hst. unfold section_step.
  apply (foldl_invariant_in (λ st, Forall _ (chunks st))); [|done].
  intros st' chunk_text Htext Hst'. unfold chunk_step.
  destruct (estimate_tokens chunk_text <? min_chunk_size self) eqn:Hsmall; [done|].
  cbn [chunks]. apply Forall_app. split; [done|]. apply Forall_singleton.
  cbn. split_and!; try done; [lia|]. by exists section_content.
Qed.

(** The overlap loop, from any point of its run. *)
Lemma overlap_spec (self : ContentChunker.t) (reversed overlap_chunks : list string)
    (overlap_size : Z) :
  ∃ k : nat,
    (overlap self reversed overlap_chunks overlap_size).1
      = rev (take k reversed) ++ overlap_chunks ∧
    (overlap self reversed overlap_chunks overlap_size).2
      = overlap_size + paragraphs_tokens (take k reversed) ∧
    (overlap_size ≤ chunk_overlap self →
     (overlap self reversed overlap_chunks overlap_size).2 ≤ chunk_overlap self) ∧
    (∀ paragraph, reversed !! k = Some paragraph →
       chunk_overlap self
         < (overlap self reversed overlap_chunks overlap_size).2
           + estimate_tokens paragraph).
Proof.
  revert overlap_chunks overlap_size.
  induction reversed as [|prev rest IH]; intros overlap_chunks overlap_size.
  - exists 0%nat. cbn. split_and!; (done || lia).
  - cbn [overlap].
    destruct (overlap_size + estimate_tokens prev <=? chunk_overlap self) eqn:Hfits.
    + destruct (IH (prev :: overlap_chunks) (overlap_size + estimate_tokens prev))
        as (k & Hchunks & Hsize & Hbound & Hstop).
      exists (S k). cbn [take rev lookup list_lookup paragraphs_tokens].
      split_and!.
      * rewrite Hchunks, <- app_assoc. done.
      * rewrite Hsize. lia.
      * intros _. apply Hbound. lia.
      * done.
    + exists 0%nat. cbn. split_and!; try (done || lia).
      intros paragraph [= <-]. lia.
Qed.

Lemma paragraphs_tokens_rev (paragraphs : list string) :
  paragraphs_tokens (rev paragraphs) = paragraphs_tokens paragraphs.
Proof.
  induction paragraphs as [|p rest IH]; [done|]. cbn [rev paragraphs_tokens].
  assert (Happ : ∀ l1 l2, paragraphs_tokens (l1 ++ l2)
                          = paragraphs_tokens l1 + paragraphs_tokens l2).
  { intros l1 l2. induction l1 as [|q l1 IH1]; cbn [app paragraphs_tokens]; lia. }
  rewrite Happ, IH. cbn. lia.
Qed.







End ChunkerMore.


(** What that text is cut into: the second paragraph is in both pieces. *)
Example split_text_carries_over :
  ContentChunker._split_text (ContentChunker.mk 8 4 0)
    (letters 16 +:+ NL +:+ NL +:+ letters 17 +:+ NL +:+ NL +:+ letters 18)
  = [join ContentChunker.PARA_SEP [letters 16; letters 17];
     join ContentChunker.PARA_SEP [letters 17; letters 18]].
Proof. vm_compute. reflexivity. Qed.

(** ** Strings as lists of characters *)

Section StringFacts.

Lemma chars_app (s1 s2 : string) : chars (s1 +:+ s2) = chars s1 ++ chars s2.
Proof.
  unfold chars. induction s1 as [|a s1 IH]; [done|].
  rewrite append_cons. cbn. by rewrite IH.
Qed.

Lemma chars_inj (s1 s2 : string) : chars s1 = chars s2 → s1 = s2.
Proof.
  intros Heq. rewrite <- (string_of_list_ascii_of_string s1),
    <- (string_of_list_ascii_of_string s2). unfold chars in Heq. by rewrite Heq.
Qed.

Lemma string_app_assoc (s1 s2 s3 : string) : (s1 +:+ s2) +:+ s3 = s1 +:+ (s2 +:+ s3).
Proof. apply chars_inj. by rewrite !chars_app, app_assoc. Qed.

Lemma string_app_nil_r (s : string) : s +:+ "" = s.
Proof. apply chars_inj. by rewrite chars_app, app_nil_r. Qed.

Lemma rev_app_spec (s1 s2 : string) : String.rev_app s1 s2 = String.rev s1 +:+ s2.
Proof.
  unfold String.rev. revert s2. induction s1 as [|a s1 IH]; intros s2; [done|].
  cbn [String.rev_app]. rewrite IH, (IH (String a "")), string_app_assoc. done.
Qed.

Lemma string_rev_cons (a : ascii) (s : string) :
  String.rev (String a s) = String.rev s +:+ String a "".
Proof. unfold String.rev at 1. cbn [String.rev_app]. apply rev_app_spec. Qed.

Lemma chars_rev (s : string) : chars (String.rev s) = rev (chars s).
Proof.
  induction s as [|a s IH]; [done|].
  rewrite string_rev_cons, chars_app, IH. done.
Qed.

Lemma string_rev_involutive (s : string) : String.rev (String.rev s) = s.
Proof. apply chars_inj. by rewrite !chars_rev, rev_involutive. Qed.

Lemma join_cons (sep a b : string) (l : list string) :
  join sep (a :: b :: l) = a +:+ sep +:+ join sep (b :: l).
Proof. reflexivity. Qed.

Lemma is_newline_spec (c : ascii) : is_newline c = true → String c "" = NL.
Proof. unfold is_newline. intros Heq. apply Ascii.eqb_eq in Heq. by subst. Qed.

Lemma split_lines_go_nonempty (cur s : string) : split_lines_go cur s ≠ [].
Proof.
  revert cur. induction s as [|c rest IH]; intros cur; cbn; [done|].
  destruct (is_newline c); [done|apply IH].
Qed.

Lemma split_lines_go_join (cur s : string) :
  join NL (split_lines_go cur s) = String.rev cur +:+ s.
Proof.
  revert cur. induction s as [|c rest IH]; intros cur; cbn [split_lines_go].
  - cbn. by rewrite string_app_nil_r.
  - destruct (is_newline c) eqn:Hnl.
    + pose proof (split_lines_go_nonempty "" rest) as Hne.
      destruct (split_lines_go "" rest) as [|l ls] eqn:Hsplit; [done|].
      rewrite join_cons, <- Hsplit, IH. cbn [String.rev String.rev_app].
      rewrite append_nil. apply is_newline_spec in Hnl.
      change (String c rest) with (String c "" +:+ rest). by rewrite Hnl.
    + rewrite IH, string_rev_cons, string_app_assoc. done.
Qed.

(** Joining the lines of a string with newlines gives the string back. *)
Lemma join_split_lines (s : string) : join NL (split_lines s) = s.
Proof. unfold split_lines. by rewrite split_lines_go_join. Qed.

End StringFacts.

(** ** The sections of a document *)

Section ParserFacts.
Import ContentParser.

Lemma foldl_line_step_plain (lines : list string) (st : sections_state) :
  Forall (λ line, heading_match line = None) lines →
  foldl line_step st lines
  = mk_sections (sections st) (current_heading st) (current_content st ++ lines).
Proof.
  intros Hplain. revert st. induction Hplain as [|line rest Hline _ IH]; intros st.
  - cbn. rewrite app_nil_r. by destruct st.
  - cbn [foldl]. rewrite IH. unfold line_step. rewrite Hline. cbn.
    by rewrite <- app_assoc.
Qed.

(** X7. A document none of whose lines is a heading is one section, titled
    [Introduction], whose text is the stripped document. *)
Theorem extract_sections_without_heading (content : string) :
  Forall (λ line, heading_match line = None) (split_lines content) →
  _extract_sections content = [("Introduction", strip content)].
Proof.
  intros Hplain. unfold _extract_sections. cbn zeta.
  rewrite foldl_line_step_plain by done. cbn [sections current_heading current_content app].
  unfold save_section. cbn [current_content sections current_heading].
  pose proof (split_lines_go_nonempty "" content) as Hne. fold (split_lines content) in Hne.
  destruct (split_lines content) as [|l ls] eqn:Hsplit; [done|].
  cbn [app]. by rewrite <- Hsplit, join_split_lines.
Qed.

(** The theorem at a document of two lines. *)
Lemma extract_sections_without_heading_witness :
  _extract_sections ("Robots sense, plan and act." +:+ NL +:+ "#hashtag is no heading" +:+ NL)
  = [("Introduction",
      strip ("Robots sense, plan and act." +:+ NL +:+ "#hashtag is no heading" +:+ NL))].
Proof.
  apply extract_sections_without_heading. vm_compute. repeat constructor.
Defined.

(** The invariant of the loop of [_extract_sections]: the titles of the
    sections saved so far are, in order, among the titles seen before the
    current one. *)
Lemma line_step_titles (lines : list string) (st : sections_state) (seen : list string) :
  (sections st).*1 `sublist_of` seen →
  ∃ seen',
    seen' ++ [current_heading (foldl line_step st lines)]
      = seen ++ [current_heading st] ++ (strip <$> omap heading_match lines) ∧
    (sections (foldl line_step st lines)).*1 `sublist_of` seen'.
Proof.
  revert st seen. induction lines as [|line rest IH]; intros st seen Hsub.
  - exists seen. cbn. done.
  - cbn [foldl omap list_omap].
    destruct (heading_match line) as [title|] eqn:Hmatch.
    + assert (Hstep : line_step st line
                      = mk_sections (save_section st) (strip title) [])
        by (unfold line_step; by rewrite Hmatch).
      rewrite Hstep.
      destruct (IH (mk_sections (save_section st) (strip title) [])
                   (seen ++ [current_heading st])) as (seen' & Heq & Hsub').
      { cbn [sections]. unfold save_section. destruct (current_content st).
        - by apply sublist_inserts_r.
        - rewrite fmap_app. apply sublist_app; [exact Hsub|reflexivity]. }
      exists seen'. split; [|done]. rewrite Heq. cbn [current_heading fmap list_fmap].
      by rewrite <- !app_assoc.
    + assert (Hstep : line_step st line
                      = mk_sections (sections st) (current_heading st)
                                    (current_content st ++ [line]))
        by (unfold line_step; by rewrite Hmatch).
      rewrite Hstep.
      destruct (IH (mk_sections (sections st) (current_heading st)
                                (current_content st ++ [line])) seen Hsub)
        as (seen' & Heq & Hsub').
      exists seen'. split; [|done]. by rewrite Heq.
Qed.

(** X8. The titles of the sections of a document are, in the order of the
    sections, among [Introduction] followed by the stripped titles of the
    heading lines of the document: there are no more sections than heading
    lines and one, and a section has the title of the heading above it. *)
Theorem extract_sections_titles (content : string) :
  (_extract_sections content).*1
    `sublist_of`
  "Introduction" :: (strip <$> omap heading_match (split_lines content)).
Proof.
  unfold _extract_sections. cbn zeta.
  destruct (line_step_titles (split_lines content) (mk_sections [] "Introduction" []) [])
    as (seen' & Heq & Hsub); [done|].
  cbn [app current_heading] in Heq. rewrite <- Heq.
  unfold save_section. destruct (current_content _).
  - by apply sublist_inserts_r.
  - rewrite fmap_app. apply sublist_app; [exact Hsub|reflexivity].
Qed.

End ParserFacts.

(** ** Splitting at whitespace, and joining with spaces *)

Section SplitFacts.

(** What [split_ws_go] emits when the run [cur] ends. *)
Lemma split_ws_go_nil (cur : string) :
  split_ws_go cur "" = if String.eqb cur "" then [] else [String.rev cur].
Proof. reflexivity. Qed.

Lemma string_rev_nonempty (s : string) : s ≠ "" → String.eqb (String.rev s) "" = false.
Proof.
  intros Hne. apply String.eqb_neq. intros Heq.
  apply (f_equal chars) in Heq. rewrite chars_rev in Heq.
  destruct s as [|a s]; [done|]. cbn in Heq.
  by apply app_eq_nil in Heq as [_ ?].
Qed.

Lemma split_ws_go_read (w s cur : string) :
  Forall (λ c, isspace c = false) (chars w) →
  split_ws_go cur (w +:+ s) = split_ws_go (String.rev_app w cur) s.
Proof.
  revert cur. induction w as [|a w IH]; intros cur Hw; [done|].
  rewrite append_cons. cbn [split_ws_go String.rev_app].
  inversion Hw as [|? ? Ha Hrest]; subst. rewrite Ha. by apply IH.
Qed.

Lemma split_ws_go_word (w : string) :
  is_word w → split_ws_go "" w = [w].
Proof.
  intros [Hne Hw]. rewrite <- (string_app_nil_r w) at 1.
  rewrite split_ws_go_read by done. fold (String.rev w).
  rewrite split_ws_go_nil, string_rev_nonempty by done.
  by rewrite string_rev_involutive.
Qed.

(** Splitting words joined by single spaces gives the words back. *)
Lemma split_ws_join (ws : list string) :
  Forall is_word ws → split_ws (join " " ws) = ws.
Proof.
  unfold split_ws. induction 1 as [|w rest Hw Hrest IH]; [done|].
  destruct rest as [|w2 rest].
  - cbn [join]. by apply split_ws_go_word.
  - rewrite join_cons, split_ws_go_read by apply Hw. fold (String.rev w).
    rewrite append_cons, append_nil. cbn [split_ws_go].
    replace (isspace " ") with true by reflexivity.
    rewrite string_rev_nonempty by apply Hw. rewrite string_rev_involutive, IH. done.
Qed.

(** The pieces of a split are words, made of characters of the string. *)
Lemma split_ws_go_words (P : ascii → Prop) (cur s : string) :
  Forall (λ c, isspace c = false ∧ P c) (chars cur) →
  Forall P (chars s) →
  Forall (λ w, w ≠ "" ∧ Forall (λ c, isspace c = false ∧ P c) (chars w))
         (split_ws_go cur s).
Proof.
  assert (Hemit : ∀ cur, Forall (λ c, isspace c = false ∧ P c) (chars cur) →
    Forall (λ w, w ≠ "" ∧ Forall (λ c, isspace c = false ∧ P c) (chars w))
           (if String.eqb cur "" then [] else [String.rev cur])).
  { intros cur' Hcur. destruct (String.eqb_spec cur' "") as [->|Hne]; [done|].
    apply Forall_singleton. split.
    - apply String.eqb_neq. by apply string_rev_nonempty.
    - rewrite chars_rev. by apply Forall_rev. }
  revert cur. induction s as [|c rest IH]; intros cur Hcur Hs.
  - by apply Hemit.
  - cbn [split_ws_go]. inversion Hs as [|? ? Hc Hrest]; subst.
    destruct (isspace c) eqn:Hspace.
    + apply Forall_app. split; [by apply Hemit|]. by apply IH.
    + apply IH; [|done]. by constructor.
Qed.

Lemma split_ws_words (P : ascii → Prop) (s : string) :
  Forall P (chars s) →
  Forall (λ w, w ≠ "" ∧ Forall (λ c, isspace c = false ∧ P c) (chars w)) (split_ws s).
Proof. intros Hs. by apply split_ws_go_words. Qed.

Lemma chars_join (P : ascii → Prop) (ws : list string) :
  P " "%char → Forall (λ w, Forall P (chars w)) ws → Forall P (chars (join " " ws)).
Proof.
  intros Hspace. induction 1 as [|w rest Hw Hrest IH]; [done|].
  destruct rest as [|w2 rest]; [done|].
  rewrite join_cons, !chars_app. apply Forall_app. split; [done|].
  apply Forall_app. split; [by repeat constructor|done].
Qed.

Lemma chars_lower (s : string) : chars (lower s) = lower_char <$> chars s.
Proof.
  unfold chars. induction s as [|c s IH]; [done|].
  cbn [lower list_ascii_of_string]. by rewrite IH.
Qed.

Lemma chars_remove_punctuation (s : string) :
  chars (QueryProcessor.remove_punctuation s) = QueryProcessor.keep_char <$> chars s.
Proof.
  unfold chars. induction s as [|c s IH]; [done|].
  cbn [QueryProcessor.remove_punctuation list_ascii_of_string]. by rewrite IH.
Qed.

Lemma lower_fixed (s : string) : Forall (λ c, lower_char c = c) (chars s) → lower s = s.
Proof.
  induction s as [|c s IH]; [done|]. intros Hs.
  inversion Hs as [|? ? Hc Hrest]; subst. cbn [lower]. by rewrite Hc, IH.
Qed.

Lemma remove_punctuation_fixed (s : string) :
  Forall (λ c, QueryProcessor.keep_char c = c) (chars s) →
  QueryProcessor.remove_punctuation s = s.
Proof.
  induction s as [|c s IH]; [done|]. intros Hs.
  inversion Hs as [|? ? Hc Hrest]; subst.
  cbn [QueryProcessor.remove_punctuation]. by rewrite Hc, IH.
Qed.

(** Facts about single characters, checked on each of them. *)
Lemma keep_lower_fixed (c : ascii) :
  let c' := QueryProcessor.keep_char (lower_char c) in
  QueryProcessor.keep_char c' = c' ∧ lower_char c' = c'.
Proof. destruct c as [[] [] [] [] [] [] [] []]; split; reflexivity. Qed.

Lemma kept_is_query_char (c : ascii) :
  isspace c = false → QueryProcessor.keep_char c = c → lower_char c = c → query_char c.
Proof.
  unfold query_char, QueryProcessor.keep_char. intros Hspace Hkeep Hlower.
  split; [|done]. rewrite Hspace, orb_false_r in Hkeep.
  destruct (is_word_char c) eqn:Hw; [done|]. cbn [orb] in *.
  destruct (Ascii.eqb c "?") eqn:Hq; [done|].
  destruct (Ascii.eqb c "-") eqn:Hh; [done|]. cbn in Hkeep. subst c. done.
Qed.

End SplitFacts.

(** ** The query processor *)

Section QueryFacts.
Import QueryProcessor.

(** X9. The result of [preprocess_query] is made of word characters,
    question marks and hyphens, none of them in upper case, in words
    separated by single spaces, with no space at either end; and
    preprocessing it again changes nothing. *)
Theorem preprocess_query_normal_form (query : string) :
  let processed := preprocess_query query in
  Forall (λ c, c = " "%char ∨ query_char c) (chars processed) ∧
  Forall is_word (split_ws processed) ∧
  join " " (split_ws processed) = processed ∧
  preprocess_query processed = processed.
Proof.
  cbn zeta.
  set (x := remove_punctuation (lower (join " " (split_ws query)))).
  assert (Hx : Forall (λ c, keep_char c = c ∧ lower_char c = c) (chars x)).
  { subst x. rewrite chars_remove_punctuation, chars_lower, <- list_fmap_compose.
    apply Forall_fmap, Forall_true. intros c. apply keep_lower_fixed. }
  pose proof (split_ws_words _ x Hx) as Hwords.
  set (ws := split_ws x) in *.
  assert (Hword : Forall is_word ws).
  { eapply Forall_impl; [exact Hwords|]. intros w [Hne Hw]. split; [done|].
    eapply Forall_impl; [exact Hw|]. by intros c [? _]. }
  assert (Hsplit : split_ws (join " " ws) = ws) by by apply split_ws_join.
  assert (Hchars : Forall (λ c, c = " "%char ∨ query_char c) (chars (join " " ws))).
  { apply chars_join; [by left|].
    eapply Forall_impl; [exact Hwords|]. intros w [_ Hw].
    eapply Forall_impl; [exact Hw|]. intros c (Hspace & Hkeep & Hlower).
    right. by apply kept_is_query_char. }
  assert (Hp : preprocess_query query = join " " ws) by reflexivity.
  rewrite Hp. split_and!; try done.
  - by rewrite Hsplit.
  - by rewrite Hsplit.
  - unfold preprocess_query. cbn zeta. rewrite Hsplit.
    rewrite lower_fixed.
    2:{ eapply Forall_impl; [exact Hchars|]. intros c [->|[_ ?]]; done. }
    rewrite remove_punctuation_fixed.
    2:{ eapply Forall_impl; [exact Hchars|]. intros c [->|[Hq _]]; [done|].
        unfold keep_char. apply orb_true_iff in Hq as [Hq|Hq].
        - apply orb_true_iff in Hq as [Hq|Hq]; rewrite Hq, ?orb_true_r; done.
        - rewrite Hq, ?orb_true_r. done. }
    by rewrite Hsplit.
Qed.

Lemma add_synonyms_spec (query_lower : string) (expanded_terms synonyms : list string) :
  add_synonyms query_lower expanded_terms synonyms
  = expanded_terms
    ++ filter (λ synonym, contains (lower synonym) query_lower = false) synonyms.
Proof.
  unfold add_synonyms. revert expanded_terms.
  induction synonyms as [|synonym rest IH]; intros expanded_terms; cbn [foldl].
  - by rewrite filter_nil, app_nil_r.
  - rewrite IH, filter_cons.
    destruct (contains (lower synonym) query_lower) eqn:Hin; cbn [negb].
    + by rewrite decide_False by done.
    + rewrite decide_True by done. by rewrite <- app_assoc.
Qed.

Lemma expand_word_spec (query_lower : string) (expanded_terms : list string)
    (word : string) :
  expand_word query_lower expanded_terms word
  = expanded_terms ++ candidates query_lower word.
Proof.
  unfold expand_word, candidates. destruct (DOMAIN_SYNONYMS !! word).
  - apply add_synonyms_spec.
  - by rewrite app_nil_r.
Qed.

Lemma foldl_expand_word (query_lower : string) (words expanded_terms : list string) :
  foldl (expand_word query_lower) expanded_terms words
  = expanded_terms ++ (words ≫= candidates query_lower).
Proof.
  revert expanded_terms. induction words as [|word rest IH]; intros expanded_terms; cbn.
  - by rewrite app_nil_r.
  - by rewrite IH, expand_word_spec, <- app_assoc.
Qed.

(** X10. Every term [expand_query] returns is a synonym, in the table, of a
    word of the lowercased query that is not a stop word, and its lowercase
    form does not occur in the lowercased query; this holds in whatever
    order the set of words is iterated. *)
Theorem expand_query_terms (iterate : gset string → list string)
    (self : QueryProcessor.t) (query term : string) :
  (∀ words word, word ∈ iterate words → word ∈ words) →
  term ∈ expand_query iterate self query →
  enable_expansion self = true ∧
  contains (lower term) (lower query) = false ∧
  ∃ word synonyms,
    word ∈ split_ws (lower query) ∧ (word ∉ STOP_WORDS) ∧
    DOMAIN_SYNONYMS !! word = Some synonyms ∧ term ∈ synonyms.
Proof.
  intros Hiterate. unfold expand_query.
  destruct (enable_expansion self); cbn [negb]; [|by intros ?%elem_of_nil].
  cbn zeta. rewrite foldl_expand_word, app_nil_l.
  intros (word & Hterm & Hword)%list_elem_of_bind.
  apply Hiterate in Hword. apply elem_of_difference in Hword as [Hin Hstop].
  apply elem_of_list_to_set in Hin.
  unfold candidates in Hterm.
  destruct (DOMAIN_SYNONYMS !! word) as [synonyms|] eqn:Hsyn; [|by apply elem_of_nil in Hterm].
  apply list_elem_of_filter in Hterm as [Hout Hterm].
  split_and!; [done..|]. by exists word, synonyms.
Qed.

(** X11. Two orders of iteration over the same words give the same
    expansion terms, each as often, in possibly different orders. *)
Theorem expand_query_permutation (iterate iterate' : gset string → list string)
    (self : QueryProcessor.t) (query : string) :
  (∀ words, iterate words ≡ₚ iterate' words) →
  expand_query iterate self query ≡ₚ expand_query iterate' self query.
Proof.
  intros Hsame. unfold expand_query. destruct (enable_expansion self); cbn [negb]; [|done].
  cbn zeta. rewrite !foldl_expand_word, !app_nil_l. by rewrite Hsame.
Qed.

(** X12. The text that is embedded depends on the order of iteration: the
    first three expansion terms are kept, and which they are is decided by
    the order in which the words of the query come out of the set. *)
Theorem embedding_text_depends_on_iteration (self : QueryProcessor.t) :
  enable_expansion self = true →
  ∃ query : string,
    let text iterate := build_embedding_text query (expand_query iterate self query) in
    (∀ words : gset string, reverse (elements words) ≡ₚ elements words) ∧
    text elements ≠ text (reverse ∘ elements).
Proof.
  intros Henabled. exists "robot vision". cbn zeta. split.
  - intros words. apply reverse_Permutation.
  - unfold expand_query. rewrite Henabled. vm_compute. discriminate.
Qed.

Section Processing.
Context {World : Type} {collaborators : Collaborators World}.
Import EmbeddingService.

Lemma create_batches_singleton (text : string) : _create_batches [text] = [[text]].
Proof.
  unfold _create_batches. cbn [foldl]. unfold batch_step. cbn [current_batch length].
  by destruct (_ || _).
Qed.

(** X13. [process_query] has exactly one text embedded, the processed
    query followed by its first expansion terms: the embeddings endpoint is
    called once to three times, each time with that text alone.  It raises
    what the embedding raises; otherwise the embedding service has returned
    one result, and the query comes back with its processed form, its
    expansion terms and the embedding of that result. *)
Theorem process_query_embeds_one_text (iterate : gset string → list string)
    (self : QueryProcessor.t) (query : string) (env : IO.Env World) :
  let processed := preprocess_query query in
  let expanded_terms := expand_query iterate self processed in
  let text := build_embedding_text processed expanded_terms in
  let run := QueryProcessor.process_query iterate self query env in
  (∃ new,
     IO.trace run.1 = IO.trace env ++ new ∧
     (1 ≤ length (embed_calls new) ≤ 3)%nat ∧
     Forall (λ call, call.1 = (model (embedding_service self), [text]))
            (embed_calls new)) ∧
  match generate_embeddings (embedding_service self) [text] env with
  | (env', inl e) => run = (env', inl e)
  | (env', inr results) =>
      ∃ result, results = [result] ∧ EmbeddingResult.text result = text ∧
        run = (env', inr (ProcessedQuery.mk query processed expanded_terms
                            (EmbeddingResult.embedding result)))
  end.
Proof.
  cbn zeta. unfold QueryProcessor.process_query.
  set (processed := preprocess_query query).
  set (expanded_terms := expand_query iterate self processed).
  set (text := build_embedding_text processed expanded_terms).
  unfold EmbeddingServiceSingle.generate_embedding, generate_embeddings.
  rewrite create_batches_singleton. cbn [process_batches].
  unfold _process_batch_with_retry.
  destruct (retry_loop_calls (embedding_service self) [text] (Z.to_nat MAX_RETRIES) 0
              INITIAL_RETRY_DELAY env) as (new & Htrace & Hcalls & _ & Hsame & _);
    [reflexivity|unfold MAX_RETRIES; lia|].
  replace (Z.to_nat MAX_RETRIES) with 3%nat in * by reflexivity.
  unfold mbind, IO_bind, IO.bind.
  destruct (retry_loop _ _ _ _ _ env) as [env1 [e|results]] eqn:Hretry;
    cbn [fst snd] in Htrace.
  - split; [|done]. by exists new.
  - pose proof (retry_loop_texts _ _ _ _ _ _ _ _ Hretry) as Htexts.
    destruct results as [|result [|? ?]]; try done.
    cbn in Htexts. injection Htexts as Htext.
    cbn. split; [by exists new|]. by exists result.
Qed.

End Processing.

End QueryFacts.

Lemma expand_query_terms_witness :
  QueryProcessor.enable_expansion (QueryProcessor.mk (EmbeddingService.mk "m") true) = true ∧
  contains (lower "humanoid") (lower "robot vision") = false ∧
  ∃ word synonyms,
    word ∈ split_ws (lower "robot vision") ∧ (word ∉ QueryProcessor.STOP_WORDS) ∧
    QueryProcessor.DOMAIN_SYNONYMS !! word = Some synonyms ∧ "humanoid" ∈ synonyms.
Proof.
  apply (expand_query_terms elements).
  - intros words word. apply elem_of_elements.
  - apply list_elem_of_In. vm_compute. tauto.
Defined.

Lemma expand_query_permutation_witness :
  QueryProcessor.expand_query elements
    (QueryProcessor.mk (EmbeddingService.mk "m") true) "robot vision"
  ≡ₚ QueryProcessor.expand_query (reverse ∘ elements)
       (QueryProcessor.mk (EmbeddingService.mk "m") true) "robot vision".
Proof.
  apply expand_query_permutation. intros words. symmetry. apply reverse_Permutation.
Defined.

Lemma embedding_text_depends_on_iteration_witness :
  ∃ query : string,
    let text iterate :=
      QueryProcessor.build_embedding_text query
        (QueryProcessor.expand_query iterate
           (QueryProcessor.mk (EmbeddingService.mk "m") true) query) in
    (∀ words : gset string, reverse (elements words) ≡ₚ elements words) ∧
    text elements ≠ text (reverse ∘ elements).
Proof. apply embedding_text_depends_on_iteration. reflexivity. Defined.

(** ** Retrieval, and the whole pipeline *)

Section RetrieverMore.
Import VectorRetriever.
Context {World : Type} {collaborators : Collaborators World}.

(** [retrieve], stage by stage. *)
Lemma retrieve_cases (self : VectorRetriever.t) (query : string) (top_k : option Z)
    (score_threshold : option float) (env : IO.Env World) :
  let k := effective_top_k self top_k in
  let s := effective_score_threshold self score_threshold in
  retrieve self query top_k score_threshold env
  = match process_query query (IO.world env) with
    | (w1, inl e) => (IO.mk_env w1 (IO.trace env ++ [EvProcessQuery query (inl e)]), inl e)
    | (w1, inr pq) =>
        let vector := ProcessedQuery.embedding pq in
        match search vector k s w1 with
        | (w2, out) =>
            (IO.mk_env w2 ((IO.trace env ++ [EvProcessQuery query (inr pq)])
                           ++ [EvSearch vector k s out]),
             match out with
             | inl e => inl e
             | inr hits =>
                 match to_chunks hits [] with
                 | inl e => inl e
                 | inr chunks =>
                     inr (RetrievalResult.mk query (ProcessedQuery.processed_query pq)
                            chunks (Z.of_nat (length chunks)))
                 end
             end)
        end
    end.
Proof.
  cbn zeta. unfold retrieve, mbind, IO_bind, IO.bind, IO.call, lift.
  destruct (process_query query (IO.world env)) as [w1 [e|pq]]; cbn; [done|].
  destruct (search _ _ _ _) as [w2 [e|hits]]; cbn; [done|].
  by destruct (to_chunks hits []).
Qed.

Lemma to_chunks_inv (hits : list SearchHit.t) (acc chunks : list RetrievedChunk.t) :
  to_chunks hits acc = inr chunks →
  Forall (λ hit, is_Some (SearchHit.payload hit)) hits ∧ chunks = acc ++ converted hits.
Proof.
  revert acc. induction hits as [|hit rest IH]; intros acc; cbn [to_chunks].
  - intros [= <-]. by rewrite app_nil_r.
  - unfold converted. cbn [omap list_omap]. unfold to_chunk at 1 2.
    destruct (SearchHit.payload hit) as [payload|] eqn:Hp; [|done].
    intros [Hrest ->]%IH. split; [by constructor|]. cbn. by rewrite <- app_assoc.
Qed.

Lemma to_chunks_missing (hits : list SearchHit.t) (acc : list RetrievedChunk.t) :
  Exists (λ hit, SearchHit.payload hit = None) hits →
  to_chunks hits acc
  = inl (Error "AttributeError" "'NoneType' object has no attribute 'get'").
Proof.
  intros Hmissing. revert acc.
  induction hits as [|hit rest IH]; intros acc; [by apply Exists_nil in Hmissing|].
  cbn [to_chunks]. unfold to_chunk.
  destruct (SearchHit.payload hit) as [payload|] eqn:Hp; [|done].
  apply IH. apply Exists_cons in Hmissing as [Hhit|Hrest]; [congruence|done].
Qed.

Lemma converted_fields (hits : list SearchHit.t) :
  Forall (λ hit, is_Some (SearchHit.payload hit)) hits →
  RetrievedChunk.id <$> converted hits = SearchHit.id <$> hits ∧
  RetrievedChunk.score <$> converted hits = SearchHit.score <$> hits ∧
  length (converted hits) = length hits.
Proof.
  intros Hall.
  assert (Hcons : ∀ hit rest payload, SearchHit.payload hit = Some payload →
    ∃ chunk, converted (hit :: rest) = chunk :: converted rest ∧
      RetrievedChunk.id chunk = SearchHit.id hit ∧
      RetrievedChunk.score chunk = SearchHit.score hit).
  { intros hit rest payload Hp. unfold converted. cbn [omap list_omap].
    unfold to_chunk at 1. rewrite Hp. by eexists. }
  induction Hall as [|hit rest [payload Hp] _ (IHid & IHscore & IHlen)]; [done|].
  destruct (Hcons hit rest payload Hp) as (chunk & -> & Hid & Hscore).
  cbn [fmap list_fmap length]. by rewrite IHid, IHscore, IHlen, Hid, Hscore.
Qed.

(** X14. When [retrieve] returns, the query processor and then the store
    were called, once each, and the result has one chunk for each hit of the
    store, in the order of the hits, with the identifier and the score of
    its hit; [total_found] is the number of hits, and the query and its
    processed form are those of the call.  What is recorded is what the
    query processor answered in the world of the call and what the store
    answered after it. *)
Theorem retrieve_keeps_hits (self : VectorRetriever.t) (query : string)
    (top_k : option Z) (score_threshold : option float) (env env' : IO.Env World)
    (result : RetrievalResult.t) :
  retrieve self query top_k score_threshold env = (env', inr result) →
  ∃ pq hits,
    IO.trace env'
    = IO.trace env
      ++ [EvProcessQuery query (inr pq);
          EvSearch (ProcessedQuery.embedding pq) (effective_top_k self top_k)
                   (effective_score_threshold self score_threshold) (inr hits)] ∧
    RetrievalResult.chunks result = converted hits ∧
    RetrievedChunk.id <$> RetrievalResult.chunks result = SearchHit.id <$> hits ∧
    RetrievedChunk.score <$> RetrievalResult.chunks result = SearchHit.score <$> hits ∧
    RetrievalResult.total_found result = Z.of_nat (length hits) ∧
    RetrievalResult.query result = query ∧
    RetrievalResult.processed_query result = ProcessedQuery.processed_query pq ∧
    ∃ w1,
      process_query query (IO.world env) = (w1, inr pq) ∧
      search (ProcessedQuery.embedding pq) (effective_top_k self top_k)
             (effective_score_threshold self score_threshold) w1
      = (IO.world env', inr hits).
Proof.
  rewrite retrieve_cases. cbn zeta.
  destruct (process_query query (IO.world env)) as [w1 [e|pq]]; [done|].
  destruct (search _ _ _ _) as [w2 [e|hits]] eqn:Hsearch; [done|].
  destruct (to_chunks hits []) as [e|chunks] eqn:Hchunks; [done|].
  intros [= <- <-]. apply to_chunks_inv in Hchunks as [Hall ->]. cbn [app].
  destruct (converted_fields hits Hall) as (Hid & Hscore & Hlen).
  exists pq, hits. cbn. rewrite <- app_assoc, Hlen. split_and!; try done.
  by exists w1.
Qed.

(** X15. One hit without a payload makes [retrieve] fail as a whole: after
    the search it raises [AttributeError], and the chunks of the other hits
    are lost. *)
Theorem retrieve_missing_payload (self : VectorRetriever.t) (query : string)
    (top_k : option Z) (score_threshold : option float) (env : IO.Env World)
    (w1 w2 : World) (pq : ProcessedQuery.t) (hits : list SearchHit.t) :
  process_query query (IO.world env) = (w1, inr pq) →
  search (ProcessedQuery.embedding pq) (effective_top_k self top_k)
         (effective_score_threshold self score_threshold) w1 = (w2, inr hits) →
  Exists (λ hit, SearchHit.payload hit = None) hits →
  (retrieve self query top_k score_threshold env).2
  = inl (Error "AttributeError" "'NoneType' object has no attribute 'get'").
Proof.
  intros Hpq Hsearch Hmissing. rewrite retrieve_cases. cbn zeta.
  rewrite Hpq. cbn zeta. rewrite Hsearch. cbn [snd].
  by rewrite to_chunks_missing.
Qed.

(** X16. What was indexed comes back: for chunks stored as [index_chunks]
    prepares them, the hits of their points are converted to chunks with the
    identifier, content, chapter, title, section, page and position of the
    chunks that were indexed, and with the scores of the hits. *)
Theorem indexed_chunks_come_back
    (items : list (ContentChunk.t * EmbeddingResult.t * float)) :
  let stored :=
    points_of ((λ item, QdrantIndexer.indexed_chunk item.1.1 item.1.2) <$> items) in
  to_chunks (zip_with hit_of stored items.*2) []
  = inr ((λ item, retrieved_of item.1.1 item.2) <$> items).
Proof.
  cbn zeta.
  assert (Hgen : ∀ acc,
    to_chunks
      (zip_with hit_of
         (points_of ((λ item, QdrantIndexer.indexed_chunk item.1.1 item.1.2) <$> items))
         items.*2) acc
    = inr (acc ++ ((λ item, retrieved_of item.1.1 item.2) <$> items))).
  { induction items as [|[[chunk r] score] rest IH]; intros acc.
    - cbn. by rewrite app_nil_r.
    - cbn [fmap list_fmap points_of zip_with to_chunks fst snd] in *.
      unfold to_chunk at 1. cbn [hit_of SearchHit.payload]. 
      unfold points_of in IH. rewrite IH. cbn. by rewrite <- app_assoc. }
  apply Hgen.
Qed.

End RetrieverMore.

(** The theorem at the hits of the tests: two hits, two chunks. *)
Lemma retrieve_keeps_hits_witness :
  ∃ hits,
    RetrievedChunk.id <$> converted mixed_hits = SearchHit.id <$> hits ∧
    RetrievedChunk.score <$> converted mixed_hits = SearchHit.score <$> hits ∧
    2 = Z.of_nat (length hits).
Proof.
  destruct (retrieve_keeps_hits
              (collaborators := mock_collaborators mixed_hits (fun _ => false))
              VectorRetriever.init_default "test query" None None start
              (VectorRetriever.retrieve
                 (collaborators := mock_collaborators mixed_hits (fun _ => false))
                 VectorRetriever.init_default "test query" None None start).1
              (RetrievalResult.mk "test query" "test query" (converted mixed_hits) 2))
    as (pq & hits & _ & _ & Hid & Hscore & Htotal & _).
  - vm_compute. reflexivity.
  - exists hits. split; [exact Hid|]. split; [exact Hscore|exact Htotal].
Defined.

(** The theorem at a store that returns a point without a payload after one
    with a payload. *)
Lemma retrieve_missing_payload_witness :
  (VectorRetriever.retrieve
     (collaborators :=
        mock_collaborators (mixed_hits ++ [SearchHit.mk "chunk-3" 0.8%float None])
                           (fun _ => false))
     VectorRetriever.init_default "test query" None None start).2
  = inl (Error "AttributeError" "'NoneType' object has no attribute 'get'").
Proof.
  apply (retrieve_missing_payload
           (collaborators :=
              mock_collaborators (mixed_hits ++ [SearchHit.mk "chunk-3" 0.8%float None])
                                 (fun _ => false))
           VectorRetriever.init_default "test query" None None start 0%nat 0%nat
           (ProcessedQuery.mk "test query" "test query" [] [0.1%float])
           (mixed_hits ++ [SearchHit.mk "chunk-3" 0.8%float None])).
  - reflexivity.
  - reflexivity.
  - apply Exists_app. right. by constructor.
Defined.

(** ** The sources of a response *)

Section SourcesMore.
Import ResponseGenerator.

Lemma first_by_key_sublist (seen : list string) (chunks : list RetrievedChunk.t) :
  first_by_key seen chunks `sublist_of` chunks.
Proof.
  revert seen. induction chunks as [|chunk rest IH]; intros seen; cbn [first_by_key].
  - done.
  - destruct (decide (source_key chunk ∈ seen)).
    + by apply sublist_cons.
    + by apply sublist_skip.
Qed.

Lemma first_by_key_fresh (seen : list string) (chunks : list RetrievedChunk.t) :
  NoDup (source_key <$> first_by_key seen chunks) ∧
  Forall (λ chunk, source_key chunk ∉ seen) (first_by_key seen chunks).
Proof.
  revert seen. induction chunks as [|chunk rest IH]; intros seen; cbn [first_by_key].
  - split; [apply NoDup_nil_2|done].
  - destruct (decide (source_key chunk ∈ seen)) as [Hold|Hnew]; [apply IH|].
    destruct (IH (source_key chunk :: seen)) as [Hdistinct Hfresh].
    split.
    + cbn. apply NoDup_cons_2; [|done].
      intros (other & Hkey & Hin)%list_elem_of_fmap.
      rewrite Forall_forall in Hfresh. apply (Hfresh other Hin).
      rewrite <- Hkey. by left.
    + constructor; [done|]. eapply Forall_impl; [exact Hfresh|].
      intros other Hother Hin. apply Hother. by right.
Qed.

Lemma first_by_key_covers (seen : list string) (chunks : list RetrievedChunk.t)
    (chunk : RetrievedChunk.t) :
  chunk ∈ chunks →
  source_key chunk ∈ seen ∨ source_key chunk ∈ source_key <$> first_by_key seen chunks.
Proof.
  revert seen. induction chunks as [|first rest IH]; intros seen Hin;
    [by apply elem_of_nil in Hin|].
  cbn [first_by_key]. apply elem_of_cons in Hin as [->|Hin].
  - destruct (decide (source_key first ∈ seen)); [by left|]. right. cbn. by left.
  - destruct (decide (source_key first ∈ seen)); [by apply IH|].
    destruct (IH (source_key first :: seen) Hin) as [Hseen|Hlater].
    + apply elem_of_cons in Hseen as [Heq|Hseen]; [|by left].
      right. cbn. rewrite Heq. by left.
    + right. cbn. by right.
Qed.

(** X17. The sources [_extract_sources] returns are citations of some of
    the chunks, in the order of the chunks, beginning with the first chunk;
    no two of them have the same key [chapter_id:section_title], and the key
    of every chunk is the key of one of them. *)
Theorem extract_sources_distinct_keys (chunks : list RetrievedChunk.t) :
  let sources := _extract_sources chunks in
  sources `sublist_of` (source_of <$> chunks) ∧
  head sources = source_of <$> head chunks ∧
  NoDup (key_of_source <$> sources) ∧
  ∀ chunk, chunk ∈ chunks → source_key chunk ∈ key_of_source <$> sources.
Proof.
  cbn zeta. rewrite extract_sources_first_by_key.
  assert (Hkeys : ∀ l : list RetrievedChunk.t,
            key_of_source <$> (source_of <$> l) = source_key <$> l).
  { intros l. rewrite <- list_fmap_compose. by apply list_fmap_ext. }
  rewrite Hkeys. split_and!.
  - apply fmap_sublist, first_by_key_sublist.
  - destruct chunks as [|chunk rest]; [done|]. cbn [first_by_key].
    rewrite decide_False by apply not_elem_of_nil. done.
  - apply first_by_key_fresh.
  - intros chunk Hin.
    destruct (first_by_key_covers [] chunks chunk Hin) as [Hseen|Hkey]; [|done].
    by apply elem_of_nil in Hseen.
Qed.

End SourcesMore.

(** ** The service that answers a request *)

Section RAGMore.
Import ResponseGenerator.
Context {World : Type} {collaborators : Collaborators World}.

(** [generate_response] by the answer of the chat model. *)
Lemma generate_response_cases (self : ResponseGenerator.t) (query : string)
    (retrieval_result : RetrievalResult.t) (selected_text : option string)
    (env : IO.Env World) :
  let chunks := RetrievalResult.chunks retrieval_result in
  let request := chat_request self query chunks selected_text in
  generate_response self query retrieval_result selected_text env
  = match chat_completions_create request (IO.world env) with
    | (w', out) =>
        (IO.mk_env w' (IO.trace env ++ [EvChat request out]),
         match out with
         | inl e => inl e
         | inr [] => inl (Error "IndexError" "list index out of range")
         | inr (content :: _) =>
             inr (GeneratedResponse.mk (default "" content)
                    (if _has_relevant_results chunks
                     then _extract_sources
                            (BuiltContext.chunks_used
                               (ContextBuilder.build_context (context_builder self)
                                  chunks selected_text))
                     else [])
                    (negb (_has_relevant_results chunks)) query selected_text)
         end)
    end.
Proof.
  cbn zeta. unfold generate_response, chat_request.
  destruct (_has_relevant_results (RetrievalResult.chunks retrieval_result)); cbn [negb].
  - unfold _call_openai, IO.try_except, mbind, IO_bind, IO.bind, IO.call.
    destruct (chat_completions_create _ _) as [w' [e|[|content rest]]]; done.
  - unfold _generate_fallback_response, _call_openai, IO.try_except, mbind, IO_bind,
      IO.bind, IO.call.
    destruct (chat_completions_create _ _) as [w' [e|[|content rest]]]; done.
Qed.

Lemma chat_calls_app (t1 t2 : list Event) :
  chat_calls (t1 ++ t2) = chat_calls t1 ++ chat_calls t2.
Proof. unfold chat_calls. apply omap_app. Qed.

(** X18. When the service answers a request, the query was processed, the
    store searched and the chat model called, once each and in that order,
    each in the world the call before it left, and what is recorded is
    what they answered.
    The answer is the first choice of the chat model; it is a fallback
    exactly when no converted hit scores 0.7 or more, and then it cites no
    source and the chat model was given the fallback prompt; otherwise its
    sources cite some of the converted hits, in their order.  The query and
    the selected text of the request are returned as they came. *)
Theorem rag_process_query_answer (self : RAGService.t) (request : RAGRequest.t)
    (env env' : IO.Env World) (r : RAGResponse.t) :
  RAGService.process_query self request env = (env', inr r) →
  ∃ pq hits content rest cited,
    let chunks := converted hits in
    IO.trace env'
    = IO.trace env
      ++ [EvProcessQuery (RAGRequest.query request) (inr pq);
          EvSearch (ProcessedQuery.embedding pq)
            (VectorRetriever.effective_top_k (RAGService.retriever self)
               (Some (RAGRequest.top_k request)))
            (VectorRetriever.effective_score_threshold (RAGService.retriever self)
               (Some (RAGRequest.score_threshold request)))
            (inr hits);
          EvChat (chat_request (RAGService.response_generator self)
                    (RAGRequest.query request) chunks (RAGRequest.selected_text request))
                 (inr (content :: rest))] ∧
    Forall (λ hit, is_Some (SearchHit.payload hit)) hits ∧
    RAGResponse.response r = default "" content ∧
    RAGResponse.query r = RAGRequest.query request ∧
    RAGResponse.selected_text r = RAGRequest.selected_text request ∧
    RAGResponse.is_fallback r = negb (_has_relevant_results chunks) ∧
    cited `sublist_of` chunks ∧
    RAGResponse.sources r = RAGService.to_dict <$> (source_of <$> cited) ∧
    (RAGResponse.is_fallback r = true → RAGResponse.sources r = []) ∧
    ∃ w1 w2,
      process_query (RAGRequest.query request) (IO.world env) = (w1, inr pq) ∧
      search (ProcessedQuery.embedding pq)
        (VectorRetriever.effective_top_k (RAGService.retriever self)
           (Some (RAGRequest.top_k request)))
        (VectorRetriever.effective_score_threshold (RAGService.retriever self)
           (Some (RAGRequest.score_threshold request))) w1 = (w2, inr hits) ∧
      chat_completions_create
        (chat_request (RAGService.response_generator self)
           (RAGRequest.query request) chunks (RAGRequest.selected_text request)) w2
      = (IO.world env', inr (content :: rest)).
Proof.
  unfold RAGService.process_query, mbind, IO_bind, IO.bind.
  rewrite retrieve_cases. cbn zeta.
  destruct (process_query _ (IO.world env)) as [w1 [e|pq]]; [done|].
  destruct (search _ _ _ _) as [w2 [e|hits]] eqn:Hsearch; [done|].
  destruct (VectorRetriever.to_chunks hits []) as [e|chunks] eqn:Hchunks; [done|].
  apply to_chunks_inv in Hchunks as [Hall ->]. cbn [app].
  rewrite generate_response_cases. cbn zeta.
  cbn [RetrievalResult.chunks IO.world IO.trace].
  destruct (chat_completions_create _ w2) as [w3 [e|[|content rest]]] eqn:Hchat;
    [done..|].
  unfold mret, IO_ret, IO.ret. intros [= <- <-].
  cbn [RAGResponse.response RAGResponse.query RAGResponse.selected_text
       RAGResponse.is_fallback RAGResponse.sources GeneratedResponse.response
       GeneratedResponse.sources GeneratedResponse.is_fallback IO.trace].
  destruct (_has_relevant_results (converted hits)) eqn:Hrel.
  - exists pq, hits, content, rest,
      (first_by_key []
         (BuiltContext.chunks_used
            (ContextBuilder.build_context
               (context_builder (RAGService.response_generator self)) (converted hits)
               (RAGRequest.selected_text request)))).
    cbn zeta. rewrite Hrel, <- !app_assoc. cbn [app negb].
    split_and!; try done.
    + etrans; [apply first_by_key_sublist|].
      destruct (build_context_prefix
                  (context_builder (RAGService.response_generator self)) (converted hits)
                  (RAGRequest.selected_text request)) as [rest' Hrest].
      rewrite Hrest at 2. by apply sublist_inserts_r.
    + by rewrite extract_sources_first_by_key.
    + by exists w1, w2.
  - exists pq, hits, content, rest, []. cbn zeta. rewrite Hrel, <- !app_assoc.
    cbn [app negb]. split_and!; try done.
    + apply sublist_nil_l.
    + by exists w1, w2.
Qed.

(** X19. The chat model is called at most once for a request, and only
    after the query was processed and the store returned hits that all carry
    a payload: when the query processor, the store or the conversion of the
    hits fails, the service raises without calling the chat model. *)
Theorem rag_chat_after_search (self : RAGService.t) (request : RAGRequest.t)
    (env : IO.Env World) :
  let run := RAGService.process_query self request env in
  ∃ new,
    IO.trace run.1 = IO.trace env ++ new ∧
    (length (chat_calls new) ≤ 1)%nat ∧
    (length (search_calls new) ≤ 1)%nat ∧
    (chat_calls new = [] → ∃ e, run.2 = inl e) ∧
    (chat_calls new ≠ [] →
     ∃ pq w1 w2 hits,
       process_query (RAGRequest.query request) (IO.world env) = (w1, inr pq) ∧
       search (ProcessedQuery.embedding pq)
         (VectorRetriever.effective_top_k (RAGService.retriever self)
            (Some (RAGRequest.top_k request)))
         (VectorRetriever.effective_score_threshold (RAGService.retriever self)
            (Some (RAGRequest.score_threshold request))) w1 = (w2, inr hits) ∧
       Forall (λ hit, is_Some (SearchHit.payload hit)) hits).
Proof.
  cbn zeta. unfold RAGService.process_query, mbind, IO_bind, IO.bind.
  rewrite retrieve_cases. cbn zeta.
  destruct (process_query _ (IO.world env)) as [w1 [e|pq]] eqn:Hpq.
  { eexists. split; [reflexivity|]. cbn. split_and!; [lia|lia|by eexists|done]. }
  destruct (search _ _ _ _) as [w2 [e|hits]] eqn:Hsearch.
  { eexists. split; [cbn; by rewrite <- app_assoc|].
    cbn. split_and!; [lia|lia|by eexists|done]. }
  destruct (VectorRetriever.to_chunks hits []) as [e|chunks] eqn:Hchunks.
  { eexists. split; [cbn; by rewrite <- app_assoc|].
    cbn. split_and!; [lia|lia|by eexists|done]. }
  apply to_chunks_inv in Hchunks as [Hall ->].
  rewrite generate_response_cases. cbn zeta.
  cbn [RetrievalResult.chunks IO.world IO.trace].
  destruct (chat_completions_create _ w2) as [w3 out].
  eexists. split.
  { destruct out as [e|[|content rest]]; cbn; by rewrite <- !app_assoc. }
  cbn. split_and!; [lia|lia|done|].
  intros _. by exists pq, w1, w2, hits.
Qed.

End RAGMore.

(** The theorem at the request of a test, with the mocked collaborators. *)
Lemma rag_process_query_answer_witness :
  ∃ r content,
    (RAGService.process_query
       (collaborators := mock_collaborators mixed_hits (fun _ => false))
       (RAGService.mk VectorRetriever.init_default
          (ResponseGenerator.mk "gpt-4o-mini" 1024 0.7%float ContextBuilder.init_default))
       (RAGRequest.init "test query") start).2 = inr r ∧
    RAGResponse.response r = default "" content ∧
    RAGResponse.query r = "test query" ∧
    RAGResponse.selected_text r = None.
Proof.
  destruct (RAGService.process_query
              (collaborators := mock_collaborators mixed_hits (fun _ => false))
              (RAGService.mk VectorRetriever.init_default
                 (ResponseGenerator.mk "gpt-4o-mini" 1024 0.7%float
                    ContextBuilder.init_default))
              (RAGRequest.init "test query") start) as [env' [e|r]] eqn:Hrun.
  - vm_compute in Hrun. discriminate Hrun.
  - destruct (rag_process_query_answer _ _ _ _ _ Hrun)
      as (pq & hits & content & rest & cited & _ & _ & Hresponse & Hquery & Hselected & _).
    exists r, content. split; [reflexivity|]. split; [exact Hresponse|].
    split; [exact Hquery|exact Hselected].
Defined.

(** ** The indexer *)

Section IndexerMore.
Import QdrantIndexer.
Context {World : Type} {collaborators : Collaborators World}.

Lemma prepare_chapters (chunks : list ContentChunk.t) (results : list EmbeddingResult.t) :
  length results = length chunks →
  (prepare chunks results).1 = list_to_set (chapter_of <$> chunks).
Proof.
  intros Hlen. unfold prepare.
  assert (Hgen : ∀ (pairs : list (ContentChunk.t * EmbeddingResult.t)) st,
    (foldl prepare_step st pairs).1 = st.1 ∪ list_to_set (chapter_of <$> pairs.*1)).
  { induction pairs as [|[chunk r] rest IH]; intros [chapters acc]; cbn.
    - by rewrite (right_id_L ∅ (∪)).
    - rewrite IH. cbn. by rewrite <- (assoc_L (∪)). }
  rewrite Hgen, fst_zip by lia. cbn [fst]. by rewrite (left_id_L ∅ (∪)).
Qed.

(** [index_chunks] always returns a result. *)
Lemma index_chunks_returns (self : QdrantIndexer.t) (chunks : list ContentChunk.t)
    (env : IO.Env World) :
  ∃ env' r,
    index_chunks self chunks env = (env', inr r) ∧
    IndexingResult.total_chunks r = Z.of_nat (length chunks) ∧
    (∀ env1 results,
       EmbeddingService.generate_embeddings (embedding_service self)
         (ContentChunk.content <$> chunks) env = (env1, inr results) →
       IndexingResult.chapters_processed r
       = sorted (list_to_set (chapter_of <$> chunks))).
Proof.
  destruct chunks as [|chunk0 rest].
  { eexists env, _. split; [reflexivity|]. split; [done|]. intros _ _ _. done. }
  unfold index_chunks.
  set (chunks := chunk0 :: rest) in *.
  destruct (EmbeddingService.generate_embeddings _ _ env) as [env1 [e|results]] eqn:Hemb;
    unfold mbind, IO_bind, IO.bind, IO.try_except; rewrite Hemb;
    unfold mret, IO_ret, IO.ret.
  - eexists _, _. split; [reflexivity|]. split; [done|]. by intros ? ? [=].
  - cbn zeta.
    pose proof (prepare_chapters chunks results) as Hchapters.
    destruct (prepare chunks results) as [chapters indexed_chunks] eqn:Hprep.
    destruct (upsert_loop_spec indexed_chunks
                (range_step (length indexed_chunks) UPSERT_BATCH_SIZE)
                (mk_counters 0 0 []) env1)
      as (env' & st' & runs & Hrun & _).
    rewrite Hrun. eexists env', _. split; [reflexivity|]. split; [done|].
    intros ? ? _. cbn. f_equal. apply Hchapters.
    apply generate_embeddings_length in Hemb. by rewrite length_fmap in Hemb.
Qed.

(** X20. When the embeddings were generated, [chapters_processed] lists
    the chapters of the chunks that were given, each once and in increasing
    order, whatever became of the upserts: a chapter is listed also when
    none of its chunks was stored. *)
Theorem index_chunks_chapters (self : QdrantIndexer.t) (chunks : list ContentChunk.t)
    (env env1 : IO.Env World) (results : list EmbeddingResult.t) :
  EmbeddingService.generate_embeddings (embedding_service self)
    (ContentChunk.content <$> chunks) env = (env1, inr results) →
  ∃ env' r,
    index_chunks self chunks env = (env', inr r) ∧
    StronglySorted String.le (IndexingResult.chapters_processed r) ∧
    NoDup (IndexingResult.chapters_processed r) ∧
    ∀ chapter,
      chapter ∈ IndexingResult.chapters_processed r ↔ chapter ∈ chapter_of <$> chunks.
Proof.
  intros Hemb.
  destruct (index_chunks_returns self chunks env) as (env' & r & Hrun & _ & Hchapters).
  exists env', r. split; [done|]. rewrite (Hchapters _ _ Hemb). unfold sorted.
  split_and!.
  - apply StronglySorted_merge_sort; apply _.
  - rewrite merge_sort_Permutation. apply NoDup_elements.
  - intros chapter. rewrite merge_sort_Permutation, elem_of_elements.
    apply elem_of_list_to_set.
Qed.

End IndexerMore.

(** The theorem at three chunks of one chapter, with a store that refuses
    every upsert. *)
Lemma index_chunks_chapters_witness :
  ∃ env' r,
    QdrantIndexer.index_chunks
      (collaborators := mock_collaborators [] (fun _ => true))
      (QdrantIndexer.mk (EmbeddingService.mk "text-embedding-3-small"))
      (sample_chunk <$> seq 0 3) start = (env', inr r) ∧
    StronglySorted String.le (IndexingResult.chapters_processed r) ∧
    NoDup (IndexingResult.chapters_processed r) ∧
    "intro" ∈ IndexingResult.chapters_processed r.
Proof.
  destruct (EmbeddingService.generate_embeddings
              (collaborators := mock_collaborators [] (fun _ => true))
              (EmbeddingService.mk "text-embedding-3-small")
              (ContentChunk.content <$> (sample_chunk <$> seq 0 3)) start)
    as [env1 [e|results]] eqn:Hemb.
  - vm_compute in Hemb. discriminate Hemb.
  - destruct (index_chunks_chapters
                (collaborators := mock_collaborators [] (fun _ => true))
                (QdrantIndexer.mk (EmbeddingService.mk "text-embedding-3-small"))
                (sample_chunk <$> seq 0 3) start env1 results Hemb)
      as (env' & r & Hrun & Hsorted & Hdistinct & Hchapters).
    exists env', r. split; [exact Hrun|]. split; [exact Hsorted|].
    split; [exact Hdistinct|]. apply Hchapters. cbn. by left.
Defined.

Section ReindexMore.
Import QdrantIndexer QdrantIndexerChapters.
Context {World : Type} {collaborators : Collaborators World} {client : QdrantClient World}.

(** X21. [reindex_chapter] indexes only after the deletion.  Without a
    connection it raises [RuntimeError] and nothing has happened; when the
    deletion raises, it raises the same and nothing was embedded or
    upserted.  After a deletion that succeeded it never raises: it returns
    what [index_chunks] returns, from the world the deletion has left, for
    the chunks given, whichever chapters they are of. *)
Theorem reindex_chapter_outcome (collection_name : string) (self : QdrantIndexer.t)
    (chapter_id : string) (chunks : list ContentChunk.t) (env : IO.Env World) :
  let run := reindex_chapter collection_name self chapter_id chunks env in
  if is_connected (IO.world env) then
    match client_delete collection_name chapter_id (IO.world env) with
    | (w', inl e) => run = (IO.mk_env w' (IO.trace env), inl e)
    | (w', inr _) =>
        ∃ env' r,
          run = (env', inr r) ∧
          index_chunks self chunks (IO.mk_env w' (IO.trace env)) = (env', inr r) ∧
          IndexingResult.total_chunks r = Z.of_nat (length chunks)
    end
  else run = (env, inl (Error "RuntimeError" "Qdrant not connected")).
Proof.
  cbn zeta. unfold reindex_chapter, delete_chapter, mbind, IO_bind, IO.bind.
  destruct (is_connected (IO.world env)); cbn [negb]; [|done].
  destruct (client_delete _ _ _) as [w' [e|[]]]; [done|].
  destruct (index_chunks_returns self chunks (IO.mk_env w' (IO.trace env)))
    as (env' & r & Hrun & Htotal & _).
  exists env', r. by rewrite Hrun.
Qed.

End ReindexMore.

(** ** The pieces of a text keep its paragraphs *)

Section StripFacts.

Lemma lstrip_all_space (s : string) :
  Forall (λ c, isspace c = true) (chars s) → lstrip s = "".
Proof.
  induction s as [|c s IH]; [done|]. intros Hs.
  inversion Hs as [|? ? Hc Hrest]; subst. cbn [lstrip]. rewrite Hc. by apply IH.
Qed.

Lemma lstrip_empty_inv (s : string) :
  lstrip s = "" → Forall (λ c, isspace c = true) (chars s).
Proof.
  induction s as [|c s IH]; [by constructor|]. cbn [lstrip].
  destruct (isspace c) eqn:Hc; [|done]. intros Hs. constructor; [done|by apply IH].
Qed.

Lemma lstrip_head (s : string) :
  lstrip s = "" ∨ ∃ c rest, lstrip s = String c rest ∧ isspace c = false.
Proof.
  induction s as [|c s IH]; [by left|]. cbn [lstrip].
  destruct (isspace c) eqn:Hc; [done|]. right. by exists c, s.
Qed.

Lemma string_rev_empty_inv (s : string) : String.rev s = "" → s = "".
Proof. intros Hrev. by rewrite <- (string_rev_involutive s), Hrev. Qed.

Lemma strip_empty_inv (s : string) :
  strip s = "" → Forall (λ c, isspace c = true) (chars s).
Proof.
  unfold strip. intros Hs%string_rev_empty_inv%lstrip_empty_inv.
  rewrite chars_rev in Hs. apply Forall_rev in Hs. rewrite rev_involutive in Hs.
  destruct (lstrip_head s) as [Hempty|(c & rest & Hhead & Hc)].
  - by apply lstrip_empty_inv.
  - rewrite Hhead in Hs. inversion Hs as [|? ? Hspace _]; subst. congruence.
Qed.

Lemma strip_all_space (s : string) :
  Forall (λ c, isspace c = true) (chars s) → strip s = "".
Proof. intros Hs. unfold strip. by rewrite (lstrip_all_space s Hs). Qed.

Lemma split_paragraphs_chars (P : ascii → Prop) (in_sep : bool) (cur text : string) :
  Forall P (chars cur) → Forall P (chars text) →
  Forall (λ p, Forall P (chars p)) (split_paragraphs in_sep cur text).
Proof.
  revert in_sep cur. induction text as [|c rest IH]; intros in_sep cur Hcur Htext.
  - cbn. apply Forall_singleton. rewrite chars_rev. by apply Forall_rev.
  - inversion Htext as [|? ? Hc Hrest]; subst. cbn [split_paragraphs].
    destruct in_sep.
    + destruct (is_newline c); apply IH; try done. by apply Forall_singleton.
    + destruct rest as [|c' rest'].
      * apply IH; [|done]. by constructor.
      * destruct (is_newline c && is_newline c').
        -- constructor; [rewrite chars_rev; by apply Forall_rev|]. by apply IH.
        -- apply IH; [|done]. by constructor.
Qed.

End StripFacts.

Section ChunkerParagraphs.
Import ContentChunker.

Lemma chunker_estimate_nonneg (text : string) : 0 ≤ estimate_tokens text.
Proof. unfold estimate_tokens, len. apply Z.div_pos; lia. Qed.

Lemma paragraphs_tokens_app (l1 l2 : list string) :
  paragraphs_tokens (l1 ++ l2) = paragraphs_tokens l1 + paragraphs_tokens l2.
Proof. induction l1 as [|q l1 IH]; cbn [app paragraphs_tokens]; lia. Qed.

Lemma overlap_size_bound (self : ContentChunker.t) (reversed overlap_chunks : list string)
    (overlap_size : Z) :
  0 ≤ overlap_size → overlap_size ≤ Z.max 0 (chunk_overlap self) →
  (overlap self reversed overlap_chunks overlap_size).2 ≤ Z.max 0 (chunk_overlap self).
Proof.
  revert overlap_chunks overlap_size.
  induction reversed as [|prev rest IH]; intros overlap_chunks overlap_size Hpos Hle;
    cbn [overlap]; [done|].
  pose proof (chunker_estimate_nonneg prev).
  destruct (overlap_size + estimate_tokens prev <=? chunk_overlap self) eqn:Hfits;
    [|done].
  apply IH; lia.
Qed.

(** What is carried over: its size is the sum of its paragraphs. *)
Lemma overlap_total (self : ContentChunker.t) (current : list string) :
  (overlap self (rev current) [] 0).2
    = paragraphs_tokens (overlap self (rev current) [] 0).1 ∧
  (overlap self (rev current) [] 0).2 ≤ Z.max 0 (chunk_overlap self).
Proof.
  split; [|apply overlap_size_bound; lia].
  destruct (overlap_spec self (rev current) [] 0) as (k & Hchunks & Hsize & _).
  rewrite Hsize, Hchunks, app_nil_r, paragraphs_tokens_rev. done.
Qed.

Lemma paragraph_kept_mono (self : ContentChunker.t) (pieces pieces' current current' : list string)
    (para : string) :
  (∀ piece, piece ∈ pieces → piece ∈ pieces') →
  (para ∈ current →
   para ∈ current' ∨
   ∃ group, para ∈ group ∧ join PARA_SEP group ∈ pieces' ∧
            paragraphs_tokens group ≤ split_bound self) →
  paragraph_kept self pieces current para → paragraph_kept self pieces' current' para.
Proof.
  unfold paragraph_kept. intros Hpieces Hcurrent.
  destruct (estimate_tokens para >? chunk_size self).
  - intros Hkept piece Hpiece. by apply Hpieces, Hkept.
  - intros [Hin|(group & Hin & Hgroup & Hsize)]; [by apply Hcurrent|].
    right. exists group. split_and!; [done|by apply Hpieces|done].
Qed.

Lemma paragraph_step_inv (self : ContentChunker.t) (seen : list string)
    (st : split_state) (para : string) :
  split_inv self seen st → split_inv self (seen ++ [strip para]) (paragraph_step self st para).
Proof.
  destruct st as [pieces current size]. unfold split_inv, paragraph_step.
  cbn [yielded current_chunk current_size]. intros (-> & Hbound & Hkept).
  set (p := strip para).
  assert (Hmax : 0 ≤ Z.max 0 (chunk_overlap self)) by lia.
  pose proof (chunker_estimate_nonneg p) as Hp.
  destruct (String.eqb_spec p "") as [Hempty|Hne].
  { cbn [yielded current_chunk current_size]. split_and!; [done..|].
    intros q [Hq|Hq%list_elem_of_singleton]%elem_of_app Hq'; [by apply Hkept|congruence]. }
  assert (Hflush : ∀ q, q ∈ current →
    ∃ group, q ∈ group ∧
      join PARA_SEP group ∈ pieces ++ [join PARA_SEP current] ∧
      paragraphs_tokens group ≤ split_bound self).
  { intros q Hq. exists current. split_and!; [done|..].
    - apply elem_of_app. right. by apply list_elem_of_singleton.
    - destruct Hbound as [->|Hle]; [|done]. by apply elem_of_nil in Hq. }
  assert (Hlast : ∀ l : list string, p ∈ l ++ [p]).
  { intros l. apply elem_of_app. right. by apply list_elem_of_singleton. }
  destruct (estimate_tokens p >? chunk_size self) eqn:Hlarge.
  - (* a paragraph above the size: the piece being filled is yielded, then
       the pieces of the paragraph *)
    destruct current as [|first others]; cbn [yielded current_chunk current_size].
    + split_and!; [done|by left|].
      intros q [Hq|Hq%list_elem_of_singleton]%elem_of_app Hq'.
      * eapply paragraph_kept_mono; [| |by apply Hkept].
        -- intros piece Hpiece. apply elem_of_app. by left.
        -- by left.
      * subst q. unfold paragraph_kept. rewrite Hlarge.
        intros piece Hpiece. apply elem_of_app. by right.
    + split_and!; [done|by left|].
      intros q [Hq|Hq%list_elem_of_singleton]%elem_of_app Hq'.
      * eapply paragraph_kept_mono; [| |by apply Hkept].
        -- intros piece Hpiece. apply elem_of_app. left. apply elem_of_app. by left.
        -- intros Hin. right.
           destruct (Hflush q Hin) as (group & Hgroup & Hjoin & Hle).
           exists group. split_and!; [done| |done]. apply elem_of_app. by left.
      * subst q. unfold paragraph_kept. rewrite Hlarge.
        intros piece Hpiece. apply elem_of_app. by right.
  - (* a paragraph within the size *)
    assert (Hsmall : estimate_tokens p ≤ chunk_size self) by lia.
    assert (Hself : ∀ l l', paragraph_kept self l (l' ++ [p]) p).
    { intros l l'. unfold paragraph_kept. rewrite Hlarge. left. apply Hlast. }
    destruct current as [|first others].
    + cbn [yielded current_chunk current_size app paragraphs_tokens].
      split_and!; [lia|right; unfold split_bound; lia|].
      intros q [Hq|Hq%list_elem_of_singleton]%elem_of_app Hq'.
      * eapply paragraph_kept_mono; [| |by apply Hkept]; [done|].
        by intros ?%elem_of_nil.
      * subst q. apply (Hself pieces []).
    + set (current := first :: others) in *.
      assert (Hle : paragraphs_tokens current ≤ split_bound self).
      { destruct Hbound as [Hnil|Hle]; [done|done]. }
      destruct (paragraphs_tokens current + estimate_tokens p >? chunk_size self) eqn:Hfull.
      * destruct (overlap_total self current) as [Htotal Hkeptle].
        destruct (overlap self (rev current) [] 0) as [kept kept_size].
        cbn [fst snd] in Htotal, Hkeptle.
        cbn [yielded current_chunk current_size].
        rewrite paragraphs_tokens_app. cbn [paragraphs_tokens].
        split_and!; [lia|right; unfold split_bound; lia|].
        intros q [Hq|Hq%list_elem_of_singleton]%elem_of_app Hq'.
        -- eapply paragraph_kept_mono; [| |by apply Hkept].
           ++ intros piece Hpiece. apply elem_of_app. by left.
           ++ intros Hin. right. by apply Hflush.
        -- subst q. apply Hself.
      * cbn [yielded current_chunk current_size].
        rewrite paragraphs_tokens_app. cbn [paragraphs_tokens].
        split_and!; [lia|right; unfold split_bound; lia|].
        intros q [Hq|Hq%list_elem_of_singleton]%elem_of_app Hq'.
        -- eapply paragraph_kept_mono; [| |by apply Hkept]; [done|].
           intros Hin. left. apply elem_of_app. by left.
        -- subst q. apply Hself.
Qed.

Lemma foldl_paragraph_step_inv (self : ContentChunker.t) (paragraphs seen : list string)
    (st : split_state) :
  split_inv self seen st →
  split_inv self (seen ++ (strip <$> paragraphs)) (foldl (paragraph_step self) st paragraphs).
Proof.
  revert seen st. induction paragraphs as [|para rest IH]; intros seen st Hst; cbn.
  - by rewrite app_nil_r.
  - rewrite (cons_middle (strip para)), app_assoc. by apply IH, paragraph_step_inv.
Qed.

(** X22. [_split_text] loses no paragraph.  A paragraph of the text that
    is not blank and is within [chunk_size] is, stripped, one of the
    paragraphs of a piece that is yielded, and the paragraphs of that piece
    add up to at most [chunk_size] and what is carried over, which is at
    most [chunk_overlap]; the pieces of a paragraph above [chunk_size], as
    [_split_large_paragraph] cuts it, are all yielded. *)
Theorem split_text_keeps_paragraphs (self : ContentChunker.t) (text para : string) :
  para ∈ strip <$> split_paragraphs false "" text →
  para ≠ "" →
  if estimate_tokens para >? chunk_size self
  then ∀ piece, piece ∈ _split_large_paragraph self para → piece ∈ _split_text self text
  else ∃ group,
         para ∈ group ∧ join PARA_SEP group ∈ _split_text self text ∧
         paragraphs_tokens group ≤ chunk_size self + Z.max 0 (chunk_overlap self).
Proof.
  intros Hpara Hne. unfold _split_text.
  destruct (String.eqb_spec (strip text) "") as [Hblank|Htext].
  { exfalso. apply strip_empty_inv in Hblank.
    apply list_elem_of_fmap in Hpara as (raw & -> & Hraw).
    pose proof (split_paragraphs_chars _ false "" text (Forall_nil_2 _) Hblank) as Hall.
    rewrite Forall_forall in Hall. apply Hne, strip_all_space, Hall, Hraw. }
  cbn zeta.
  assert (Hstart : split_inv self [] (mk_split [] [] 0)).
  { split_and!; [done|by left|]. by intros ? ?%elem_of_nil. }
  apply (foldl_paragraph_step_inv self (split_paragraphs false "" text)) in Hstart
    as (_ & Hbound & Hkept).
  cbn [app] in Hkept. specialize (Hkept para Hpara Hne).
  match goal with |- context [foldl ?f ?a ?l] => set (st := foldl f a l) in * end.
  unfold paragraph_kept, yield_current in *.
  destruct (estimate_tokens para >? chunk_size self).
  - intros piece Hpiece. specialize (Hkept piece Hpiece).
    destruct (current_chunk st); [done|]. apply elem_of_app. by left.
  - destruct Hkept as [Hin|(group & Hin & Hgroup & Hsize)].
    + exists (current_chunk st). destruct (current_chunk st) as [|first others] eqn:Hcurrent;
        [by apply elem_of_nil in Hin|].
      split_and!; [done|..].
      * apply elem_of_app. right. by apply list_elem_of_singleton.
      * destruct Hbound as [Hnil|Hle]; [done|]. exact Hle.
    + exists group. split_and!; [done| |done].
      destruct (current_chunk st); [done|]. apply elem_of_app. by left.
Qed.

End ChunkerParagraphs.

(** The theorem at a text of two paragraphs, for the second. *)
Lemma split_text_keeps_paragraphs_witness :
  ∃ group,
    "Second paragraph." ∈ group ∧
    join ContentChunker.PARA_SEP group
      ∈ ContentChunker._split_text ContentChunker.init_default
          ("First paragraph." +:+ NL +:+ NL +:+ "Second paragraph.") ∧
    paragraphs_tokens group ≤ 500 + Z.max 0 50.
Proof.
  apply (split_text_keeps_paragraphs ContentChunker.init_default
           ("First paragraph." +:+ NL +:+ NL +:+ "Second paragraph.")
           "Second paragraph.").
  - apply list_elem_of_In. vm_compute. tauto.
  - discriminate.
Defined.

Section ChunkerSentences.
Import ContentChunker.





End ChunkerSentences.

